(** * ar-figma-tokens: the tree engine and the migration engine, embedded in Rocq

    The development follows the repository file by file:
    - [Js]: the few JavaScript string and truthiness primitives the code uses;
    - [TreeNode], [VariableData]: the records of [types/custom.ts];
    - [VariableHelpers]: [utils/variableHelpers.ts] ([isValidVariableName],
      [getShortVariableName], [getVariableGroupPath]);
    - [TreeBuilder]: [utils/treeBuilder.ts] ([buildTree], [filterTree],
      [updateNodeChecked], [getCheckedVariableIds], [toggleNodeCollapsed]);
    - [CodeJs]: the ES5 bundle [src/code.js] ([buildTree] with its two passes,
      [filterTree], [toggleNodeCollapsed], [validateModeCompatibility],
      [swapVariableCollection], [batchSwapVariables]);
    - [VariablesService]: [services/variablesService.ts];
    - [Coordinator]: the handlers of [src/code.js] ([getCollections],
      [initialize], [loadCollectionVariables], [handleError] and
      [figma.ui.onmessage]), as long as no [buildTree] has given
      [Object.prototype] a [children] array.

    Around them: [TreeHeap] reads [filterTree] on a heap of node objects,
    [JsObject] is the plain object [code.js] uses as a dictionary, [Figma] is
    the host's variable store with the log of what was written to it,
    [Batch] and the second half of [TreeBuilder] hold the predicates the
    properties are stated with, and [Sample] is the data they are run on.

    Strings are Rocq strings: one [ascii] stands for one code unit below 256. *)

From Stdlib Require Import String Ascii List Bool Arith ZArith Lia.
From stdpp Require Import base option list strings pretty gmap.
Import ListNotations.
Local Open Scope string_scope.

(* ===================================================================== *)
(** ** JavaScript primitives *)
(* ===================================================================== *)

Module Js.

(** [s.split('/')]: always a non-empty list; an empty string gives [[""]]. *)
Fixpoint split (s : string) : list string :=
  match s with
  | EmptyString => [EmptyString]
  | String c r =>
      if Ascii.eqb c "/"%char then EmptyString :: split r
      else match split r with
           | h :: t => String c h :: t
           | [] => [String c EmptyString]
           end
  end.

(** Truthiness of a string: every string but the empty one. *)
Definition truthy (s : string) : bool :=
  match s with EmptyString => false | String _ _ => true end.

(** WhiteSpace and LineTerminator code units below 256: TAB, LF, VT, FF, CR,
    SPACE and NBSP. *)
Definition isWhiteSpace (c : ascii) : bool :=
  let n := nat_of_ascii c in
  ((n =? 9) || (n =? 10) || (n =? 11) || (n =? 12) || (n =? 13) || (n =? 32)
   || (n =? 160))%nat.

Fixpoint trimStart (s : string) : string :=
  match s with
  | EmptyString => EmptyString
  | String c r => if isWhiteSpace c then trimStart r else s
  end.

(** Drops the white space at the end: a character is kept when it is not
    white space or when something is kept after it. *)
Fixpoint trimEnd (s : string) : string :=
  match s with
  | EmptyString => EmptyString
  | String c r =>
      match trimEnd r with
      | EmptyString => if isWhiteSpace c then EmptyString else String c EmptyString
      | r' => String c r'
      end
  end.

Definition trim (s : string) : string := trimEnd (trimStart s).

(** [toLowerCase] on code units below 256: A-Z, and the Latin-1 capitals
    U+00C0-U+00DE without the multiplication sign U+00D7. *)
Definition lowerChar (c : ascii) : ascii :=
  let n := nat_of_ascii c in
  if (((65 <=? n) && (n <=? 90)) || ((192 <=? n) && (n <=? 222) && negb (n =? 215)))%nat
  then ascii_of_nat (n + 32) else c.

Fixpoint toLowerCase (s : string) : string :=
  match s with
  | EmptyString => EmptyString
  | String c r => String (lowerChar c) (toLowerCase r)
  end.

Fixpoint startsWith (s p : string) : bool :=
  match p, s with
  | EmptyString, _ => true
  | String _ _, EmptyString => false
  | String b p', String a s' => Ascii.eqb a b && startsWith s' p'
  end.

(** [s.includes(sub)]. *)
Fixpoint includes (s sub : string) : bool :=
  startsWith s sub ||
  match s with
  | EmptyString => false
  | String _ r => includes r sub
  end.

(** The values a [name] property can hold at run time. *)
Inductive value : Type :=
| undefined
| null
| boolean (b : bool)
| number (n : Z)
| str (s : string)
| object.

(** [!v] is false exactly on the truthy values. *)
Definition truthyValue (v : value) : bool :=
  match v with
  | undefined | null => false
  | boolean b => b
  | number n => negb (Z.eqb n 0)
  | str s => truthy s
  | object => true
  end.

(** [typeof v === 'string']. *)
Definition isString (v : value) : bool :=
  match v with str _ => true | _ => false end.

(** What a [throw] carries: a [TypeError] of the engine (a property read on
    [undefined], a call of something that is no function), or [new Error(m)]
    with the message [m] of one of the repository's throw sites. *)
Inductive exn (Message : Type) : Type :=
| TypeError
| Error (message : Message).
Arguments TypeError {Message}.
Arguments Error {Message} message.

(** How a call ends: it returns, or it throws. *)
Inductive completion (Message A : Type) : Type :=
| normal (a : A)
| throw (e : exn Message).
Arguments normal {Message A} a.
Arguments throw {Message A} e.

(** [v.split('/')] on a run-time value: a method call on [undefined] or
    [null], or on a value without a [split] method, is a [TypeError]. *)
Definition splitValue {Message} (v : value) : completion Message (list string) :=
  match v with
  | str s => normal (split s)
  | _ => throw TypeError
  end.

(** [s.endsWith(p)]: some suffix of [s] is [p]. *)
Fixpoint endsWith (s p : string) : bool :=
  String.eqb s p ||
  match s with
  | EmptyString => false
  | String _ r => endsWith r p
  end.

End Js.

(* ===================================================================== *)
(** ** types/custom.ts *)
(* ===================================================================== *)

Module TreeNode.

Inductive NodeType : Type := group | variable.

(** [interface TreeNode]; the optional fields [children] and [variableId]
    are options ([None] for a key that is absent or [undefined]). *)
#[local] Unset Elimination Schemes.
Inductive t : Type := make {
  id : string;
  name : string;
  type : NodeType;
  children : option (list t);
  variableId : option string;
  collapsed : bool;
  level : nat;
  checked : bool;
  indeterminate : bool;
  (* only the nodes of code.js carry it: [None] for a node without the key,
     [Some None] for [null], [Some (Some p)] for the path [p] *)
  parentPath : option (option string)
}.
#[local] Set Elimination Schemes.

Definition isVariable (n : t) : bool :=
  match type n with variable => true | group => false end.

End TreeNode.

Abbreviation Forest := (list TreeNode.t).

(** Induction over a node and its children. *)

Section TreeNodeInduction.

Variable P : TreeNode.t -> Prop.

Hypothesis withoutChildren :
  forall i n ty v col lv ch ind pp, P (TreeNode.make i n ty None v col lv ch ind pp).

Hypothesis withChildren :
  forall i n ty l v col lv ch ind pp,
    Forall P l -> P (TreeNode.make i n ty (Some l) v col lv ch ind pp).

Fixpoint TreeNode_ind (node : TreeNode.t) : P node :=
  match node with
  | TreeNode.make i n ty cs v col lv ch ind pp =>
      match cs with
      | None => withoutChildren i n ty v col lv ch ind pp
      | Some l =>
          withChildren i n ty l v col lv ch ind pp
            ((fix all (l : Forest) : Forall P l :=
                match l with
                | [] => List.Forall_nil P
                | x :: r => List.Forall_cons P x r (TreeNode_ind x) (all r)
                end) l)
      end
  end.

End TreeNodeInduction.

Inductive VariableResolvedDataType : Type := BOOLEAN | FLOAT | STRING | COLOR.

(** [VariableValue]; a number is kept as the 64 bits of its double, the code
    only copies values. *)
Inductive VariableValue : Type :=
| booleanValue (b : bool)
| numberValue (bits : Z)
| stringValue (s : string)
| RGBA (r g b a : Z)
| VariableAlias (id : string).

(** [Record<string, VariableValue>] in the order [Object.keys] and
    [Object.values] enumerate it. *)
Abbreviation ValuesByMode := (list (string * VariableValue)).

Module VariableData.

(** [interface VariableData]. The type says [name : string]; the run-time
    value may be anything, which is what code.js guards against. *)
Record t : Type := make {
  id : string;
  name : Js.value;
  resolvedType : VariableResolvedDataType;
  collectionId : string;
  valuesByMode : ValuesByMode
}.

End VariableData.

(** A [Map<string, V>]: its entries in insertion order. *)
Module JsMap.

Definition t (V : Type) : Type := list (string * V).

Definition has {V} (m : t V) (k : string) : bool :=
  existsb (fun e => String.eqb (fst e) k) m.

Definition get {V} (m : t V) (k : string) : option V :=
  match find (fun e => String.eqb (fst e) k) m with
  | Some e => Some (snd e)
  | None => None
  end.

(** [m.set(k, v)]: an existing key keeps its place. *)
Fixpoint set {V} (m : t V) (k : string) (v : V) : t V :=
  match m with
  | [] => [(k, v)]
  | (k', v') :: r => if String.eqb k' k then (k, v) :: r else (k', v') :: set r k v
  end.

Definition values {V} (m : t V) : list V := map snd m.

End JsMap.

(* ===================================================================== *)
(** ** utils/variableHelpers.ts *)
(* ===================================================================== *)

Module VariableHelpers.

(** [name.length > 0 && name.length <= 255 && !name.startsWith('/') &&
    !name.endsWith('/')]. *)
Definition isValidVariableName (name : string) : bool :=
  (0 <? String.length name)%nat && (String.length name <=? 255)%nat
  && negb (Js.startsWith name "/") && negb (Js.endsWith name "/").

(** [parts[parts.length - 1]]; [split] never gives an empty array, so the
    index is in range. *)
Definition getShortVariableName (fullName : string) : string :=
  let parts := Js.split fullName in
  nth (length parts - 1) parts EmptyString.

(** [parts.slice(0, -1).join('/')], or the empty string for a single part. *)
Definition getVariableGroupPath (fullName : string) : string :=
  let parts := Js.split fullName in
  if (length parts <=? 1)%nat then EmptyString
  else String.concat "/" (removelast parts).

End VariableHelpers.

(* ===================================================================== *)
(** ** utils/treeBuilder.ts *)
(* ===================================================================== *)

Module TreeBuilder.
Import TreeNode.

Definition SEPARATOR : string := "/".

(** The [Map] object [currentLevel] points to: [root] itself, or a
    [nextLevelMap] that was made from a node's [children] and that nothing
    else refers to. *)
Inductive LevelRef : Type :=
| rootLevel
| detached (m : JsMap.t TreeNode.t).

(** The variables the loop body of [buildTree] reads and writes. *)
Record Walk : Type := mkWalk {
  root : JsMap.t TreeNode.t;
  currentLevel : LevelRef;
  currentPath : string
}.

Definition levelMap (w : Walk) : JsMap.t TreeNode.t :=
  match currentLevel w with
  | rootLevel => root w
  | detached m => m
  end.

(** [currentLevel.set(k, node)]: it writes to [root] only while
    [currentLevel] still is [root]. *)
Definition levelSet (w : Walk) (k : string) (node : TreeNode.t) : Walk :=
  match currentLevel w with
  | rootLevel => mkWalk (JsMap.set (root w) k node) rootLevel (currentPath w)
  | detached m => mkWalk (root w) (detached (JsMap.set m k node)) (currentPath w)
  end.

Definition newNode (variableId currentPath part : string) (isLeaf : bool) (index : nat)
  : TreeNode.t :=
  TreeNode.make currentPath part (if isLeaf then variable else group)
    (if isLeaf then None else Some [])
    (if isLeaf then Some variableId else None)
    true index false false None.

(** [nextLevelMap]: a fresh [Map] filled from [children]. *)
Definition nextLevelMap (children : Forest) : JsMap.t TreeNode.t :=
  fold_left (fun m child => JsMap.set m (TreeNode.id child) child) children [].

(** The callback of [parts.forEach]. *)
Definition visitPart (variableId : string) (nparts : nat) (w : Walk) (index : nat)
    (part : string) : Walk :=
  let path := currentPath w ++ (if Js.truthy (currentPath w) then SEPARATOR else "") ++ part in
  let isLeaf := (index =? nparts - 1)%nat in
  let w1 :=
    if negb (JsMap.has (levelMap w) path)
    then levelSet w path (newNode variableId path part isLeaf index)
    else w in
  let w2 := mkWalk (root w1) (currentLevel w1) path in
  match JsMap.get (levelMap w1) path with
  | Some currentNode =>
      match negb isLeaf, TreeNode.children currentNode with
      | true, Some cs => mkWalk (root w2) (detached (nextLevelMap cs)) path
      | _, _ => w2
      end
  | None => w2
  end.

(** [parts.forEach(callback)], from index [index] on. *)
Fixpoint forEachPart (variableId : string) (nparts : nat) (parts : list string)
    (index : nat) (w : Walk) : Walk :=
  match parts with
  | [] => w
  | part :: rest =>
      forEachPart variableId nparts rest (S index) (visitPart variableId nparts w index part)
  end.

(** The body of [for (const variable of variables)]: [root] after it, or the
    [TypeError] of [variable.name.split]. *)
Definition visitVariable (root : JsMap.t TreeNode.t) (v : VariableData.t)
  : Js.completion Empty_set (JsMap.t TreeNode.t) :=
  match Js.splitValue (VariableData.name v) with
  | Js.throw e => Js.throw e
  | Js.normal parts =>
      Js.normal
        (TreeBuilder.root
           (forEachPart (VariableData.id v) (length parts) parts 0 (mkWalk root rootLevel "")))
  end.

Fixpoint visitVariables (root : JsMap.t TreeNode.t) (variables : list VariableData.t)
  : Js.completion Empty_set (JsMap.t TreeNode.t) :=
  match variables with
  | [] => Js.normal root
  | v :: rest =>
      match visitVariable root v with
      | Js.throw e => Js.throw e
      | Js.normal root' => visitVariables root' rest
      end
  end.

Fixpoint flattenNode (node : TreeNode.t) : TreeNode.t :=
  match node with
  | make i n ty cs v col lv ch ind pp =>
      match ty, cs with
      | group, Some l => make i n ty (Some (map flattenNode l)) v col lv ch ind pp
      | _, _ => node
      end
  end.

Definition buildTree (variables : list VariableData.t) : Js.completion Empty_set Forest :=
  match visitVariables [] variables with
  | Js.throw e => Js.throw e
  | Js.normal root => Js.normal (map flattenNode (JsMap.values root))
  end.

(** [list.map(f).filter(x => x !== null)]. *)
Definition mapFilter {A B} (f : A -> option B) : list A -> list B :=
  fix go (l : list A) : list B :=
    match l with
    | [] => []
    | x :: r => match f x with Some y => y :: go r | None => go r end
    end.

(** The inner function [matchNode] of [filterTree]. *)
Fixpoint matchNode (lowerQuery : string) (node : TreeNode.t) : option TreeNode.t :=
  match node with
  | make i n ty cs v col lv ch ind pp =>
      let nameMatches := Js.includes (Js.toLowerCase i) lowerQuery in
      match ty with
      | variable => if nameMatches then Some node else None
      | group =>
          let matchedChildren :=
            match cs with
            | Some l => mapFilter (matchNode lowerQuery) l
            | None => []
            end in
          if (0 <? length matchedChildren)%nat || nameMatches
          then Some (make i n ty (Some matchedChildren) v false lv ch ind pp)
          else None
      end
  end.

Definition filterTree (tree : Forest) (query : string) : Forest :=
  if negb (Js.truthy (Js.trim query)) then tree
  else mapFilter (matchNode (Js.toLowerCase query)) tree.

(** One element of the [children.map] of [updateAllChildren]. *)
Fixpoint updateAllChildrenNode (checked : bool) (child : TreeNode.t) : TreeNode.t :=
  match child with
  | make i n ty cs v col lv _ _ pp =>
      make i n ty
        (match cs with
         | Some l => Some (map (updateAllChildrenNode checked) l)
         | None => None
         end)
        v col lv checked false pp
  end.

Definition updateAllChildren (children : Forest) (checked : bool) : Forest :=
  map (updateAllChildrenNode checked) children.

Definition checkedCount (l : Forest) : nat := length (List.filter (fun c => TreeNode.checked c) l).
Definition indeterminateCount (l : Forest) : nat :=
  length (List.filter (fun c => TreeNode.indeterminate c) l).

(** One element of the [tree.map] of [updateNodeChecked]. *)
Fixpoint updateNodeCheckedNode (nodeId : string) (checked : bool) (node : TreeNode.t)
  : TreeNode.t :=
  match node with
  | make i n ty cs v col lv ch ind pp =>
      if String.eqb i nodeId then
        make i n ty
          (match cs with
           | Some l => Some (updateAllChildren l checked)
           | None => None
           end)
          v col lv checked false pp
      else
        match cs with
        | Some l =>
            let updatedChildren := map (updateNodeCheckedNode nodeId checked) l in
            let cc := checkedCount updatedChildren in
            let ic := indeterminateCount updatedChildren in
            make i n ty (Some updatedChildren) v col lv
              (cc =? length updatedChildren)%nat
              (((0 <? cc) && (cc <? length updatedChildren)) || (0 <? ic))%nat pp
        | None => node
        end
  end.

Definition updateNodeChecked (tree : Forest) (nodeId : string) (checked : bool) : Forest :=
  map (updateNodeCheckedNode nodeId checked) tree.

(** The inner function [traverse] of [getCheckedVariableIds], one node. *)
Fixpoint traverseNode (node : TreeNode.t) : list string :=
  match node with
  | make i n ty cs v col lv ch ind pp =>
      (match ty, v with
       | variable, Some vid => if ch && Js.truthy vid then [vid] else []
       | _, _ => []
       end)
      ++ match cs with
         | Some l => flat_map traverseNode l
         | None => []
         end
  end.

Definition getCheckedVariableIds (tree : Forest) : list string :=
  flat_map traverseNode tree.

(** One element of the [tree.map] of [toggleNodeCollapsed]. *)
Fixpoint toggleNode (nodeId : string) (node : TreeNode.t) : TreeNode.t :=
  match node with
  | make i n ty cs v col lv ch ind pp =>
      if String.eqb i nodeId then make i n ty cs v (negb col) lv ch ind pp
      else
        match cs with
        | Some l => make i n ty (Some (map (toggleNode nodeId) l)) v col lv ch ind pp
        | None => node
        end
  end.

Definition toggleNodeCollapsed (tree : Forest) (nodeId : string) : Forest :=
  map (toggleNode nodeId) tree.

(** *** What the claims about a forest speak of *)

(** A node and all the nodes below it. *)
Fixpoint subtree (node : TreeNode.t) : Forest :=
  node :: match TreeNode.children node with
          | Some l => flat_map subtree l
          | None => []
          end.

Definition nodesOf (forest : Forest) : Forest := flat_map subtree forest.

(** The variable leaves of the subtree of a node, the node included. *)
Fixpoint leavesOf (node : TreeNode.t) : Forest :=
  (if TreeNode.isVariable node then [node] else [])
  ++ match TreeNode.children node with
     | Some l => flat_map leavesOf l
     | None => []
     end.

Definition descendantLeaves (node : TreeNode.t) : Forest :=
  match TreeNode.children node with
  | Some l => flat_map leavesOf l
  | None => []
  end.

Definition allChecked (leaves : Forest) : bool := forallb TreeNode.checked leaves.
Definition someChecked (leaves : Forest) : bool := existsb TreeNode.checked leaves.

(** The tri-state invariant at one group: [checked] iff all the descendant
    leaves are checked, [indeterminate] iff some but not all of them are. *)
Definition triStateAt (node : TreeNode.t) : bool :=
  match TreeNode.type node with
  | variable => true
  | group =>
      let leaves := descendantLeaves node in
      Bool.eqb (TreeNode.checked node) (allChecked leaves)
      && Bool.eqb (TreeNode.indeterminate node)
           (someChecked leaves && negb (allChecked leaves))
  end.

Definition triState (forest : Forest) : bool := forallb triStateAt (nodesOf forest).

(** The shape of the data model: a group has one child or more, a variable
    has no [children]. *)
Definition shapeAt (node : TreeNode.t) : bool :=
  match TreeNode.type node, TreeNode.children node with
  | variable, None => true
  | group, Some (_ :: _) => true
  | _, _ => false
  end.

Definition wellShaped (forest : Forest) : bool := forallb shapeAt (nodesOf forest).

Definition wellShapedNode (node : TreeNode.t) : Prop :=
  forall m, In m (subtree node) -> shapeAt m = true.

(** No variable leaf is marked indeterminate. *)
Definition detAt (n : TreeNode.t) : bool :=
  negb (TreeNode.isVariable n && TreeNode.indeterminate n).

Definition leavesDeterminate (forest : Forest) : bool := forallb detAt (nodesOf forest).

(** What the set-all leaves on a node. *)
Definition uniformAt (value : bool) (m : TreeNode.t) : Prop :=
  TreeNode.checked m = value /\ TreeNode.indeterminate m = false.

(** The three conditions together, on the subtree of one node. *)
Definition good (node : TreeNode.t) : Prop :=
  forall m, In m (subtree node) -> shapeAt m = true /\ detAt m = true /\ triStateAt m = true.

(** The variable ids of the variables of a subtree, in the order of a
    depth-first traversal from left to right. *)
Fixpoint variableIdsOf (node : TreeNode.t) : list string :=
  (match TreeNode.type node, TreeNode.variableId node with
   | variable, Some vid => if Js.truthy vid then [vid] else []
   | _, _ => []
   end)
  ++ match TreeNode.children node with
     | Some l => flat_map variableIdsOf l
     | None => []
     end.

(** The variable ids under the nodes that have the id [nodeId]. *)
Fixpoint idsUnder (nodeId : string) (node : TreeNode.t) : list string :=
  if String.eqb (TreeNode.id node) nodeId then variableIdsOf node
  else match TreeNode.children node with
       | Some l => flat_map (idsUnder nodeId) l
       | None => []
       end.

(** The id of the node contains the query, letter case apart. *)
Definition matches (query : string) (node : TreeNode.t) : bool :=
  Js.includes (Js.toLowerCase (TreeNode.id node)) (Js.toLowerCase query).

(** A node without anything below it. *)
Definition childless (node : TreeNode.t) : Prop :=
  TreeNode.children node = None \/ TreeNode.children node = Some [].

(** A string of white space only (the empty string included). *)
Fixpoint blank (s : string) : bool :=
  match s with
  | EmptyString => true
  | String c r => Js.isWhiteSpace c && blank r
  end.


End TreeBuilder.


(* ===================================================================== *)
(** ** [filterTree] on the heap *)
(* ===================================================================== *)

(** The functions of [TreeBuilder] take a forest by its content. To speak of
    the objects themselves (is a node of the input written to?), the same
    [filterTree] is given here over a heap: a node object holds its own
    properties and, for [children], references to other objects. *)
Module TreeHeap.

(** A node object: the node without its [children], and the references its
    [children] array holds ([None] without the key). *)
Record Object : Type := mkObject {
  own : TreeNode.t;
  refs : option (list nat)
}.

(** The heap: a reference is a position in it, a new object goes last. *)
Definition Heap : Type := list Object.

Definition alloc (h : Heap) (o : Object) : Heap * nat := ((h ++ [o])%list, length h).

(** [h] holds the tree [t] at the reference [l]. *)
Fixpoint reads (h : Heap) (t : TreeNode.t) (l : nat) {struct t} : Prop :=
  match t with
  | TreeNode.make i n ty cs v col lv ch ind pp =>
      exists o,
        h !! l = Some o
        /\ own o = TreeNode.make i n ty None v col lv ch ind pp
        /\ match cs, refs o with
           | None, None => True
           | Some ts, Some ls =>
               (fix all (ts : Forest) (ls : list nat) : Prop :=
                  match ts, ls with
                  | [], [] => True
                  | t' :: ts', l' :: ls' => reads h t' l' /\ all ts' ls'
                  | _, _ => False
                  end) ts ls
           | _, _ => False
           end
  end.

(** [refs.map(f).filter(x => x !== null)], the heap passed along. *)
Definition mapFilter (f : Heap -> nat -> option (Heap * option nat))
  : Heap -> list nat -> option (Heap * list nat) :=
  fix go (h : Heap) (ls : list nat) : option (Heap * list nat) :=
    match ls with
    | [] => Some (h, [])
    | l :: r =>
        match f h l with
        | None => None
        | Some (h1, kept) =>
            match go h1 r with
            | None => None
            | Some (h2, rs) =>
                Some (h2, match kept with Some l' => l' :: rs | None => rs end)
            end
        end
    end.

(** [matchNode]: the heap after the call and the reference it returns
    ([None] for [null]); no result when [fuel] nested calls are not enough
    or a reference leads nowhere. *)
Fixpoint matchNode (fuel : nat) (lowerQuery : string) (h : Heap) (l : nat)
  : option (Heap * option nat) :=
  match fuel with
  | 0 => None
  | S fuel' =>
      match h !! l with
      | None => None
      | Some node =>
          let nameMatches := Js.includes (Js.toLowerCase (TreeNode.id (own node))) lowerQuery in
          match TreeNode.type (own node) with
          | TreeNode.variable =>
              if nameMatches
              then let '(h1, copy) := alloc h node in Some (h1, Some copy)
              else Some (h, None)
          | TreeNode.group =>
              match match refs node with
                    | Some ls => mapFilter (matchNode fuel' lowerQuery) h ls
                    | None => Some (h, [])
                    end with
              | None => None
              | Some (h1, matchedChildren) =>
                  if (0 <? length matchedChildren)%nat || nameMatches
                  then
                    let expanded :=
                      match own node with
                      | TreeNode.make i n ty cs v col lv ch ind pp =>
                          TreeNode.make i n ty cs v false lv ch ind pp
                      end in
                    let '(h2, copy) := alloc h1 (mkObject expanded (Some matchedChildren)) in
                    Some (h2, Some copy)
                  else Some (h1, None)
              end
          end
      end
  end.

Definition filterTree (fuel : nat) (h : Heap) (tree : list nat) (query : string)
  : option (Heap * list nat) :=
  if negb (Js.truthy (Js.trim query)) then Some (h, tree)
  else mapFilter (matchNode fuel (Js.toLowerCase query)) h tree.

(** The number of nested calls a tree asks for. *)
Fixpoint height (t : TreeNode.t) : nat :=
  S (match TreeNode.children t with
     | Some ts => list_max (map height ts)
     | None => 0
     end).

(** The reference a call returns reads the node that the function on
    contents returns. *)
Definition agree (h : Heap) (expected : option TreeNode.t) (r : option nat) : Prop :=
  match expected, r with
  | Some t, Some l => reads h t l
  | None, None => True
  | _, _ => False
  end.

(** On every heap that holds [t], [matchNode] returns, only adds objects,
    and agrees with [matchNode] on contents. *)
Definition sound (fuel : nat) (lowerQuery : string) (t : TreeNode.t) : Prop :=
  forall (h : Heap) l,
    reads h t l ->
    exists h' r,
      matchNode fuel lowerQuery h l = Some (h', r)
      /\ (exists new, h' = (h ++ new)%list)
      /\ agree h' (TreeBuilder.matchNode lowerQuery t) r.

End TreeHeap.

(* ===================================================================== *)
(** ** A plain object used as a dictionary ([var nodeMap = {}]) *)
(* ===================================================================== *)

Module JsObject.

(** The own properties, in the order they were created. *)
Definition t (V : Type) : Type := list (string * V).

(** The properties every plain object inherits from [Object.prototype], as
    long as nothing was added to it; each holds a function or, for
    [__proto__], the prototype itself: all truthy. *)
Definition prototypeKeys : list string :=
  [ "constructor"; "__defineGetter__"; "__defineSetter__"; "hasOwnProperty";
    "__lookupGetter__"; "__lookupSetter__"; "isPrototypeOf";
    "propertyIsEnumerable"; "toString"; "valueOf"; "__proto__"; "toLocaleString" ].

Definition isPrototypeKey (k : string) : bool :=
  existsb (String.eqb k) prototypeKeys.

(** What [o[k]] reads. *)
Inductive slot (V : Type) : Type :=
| own (v : V)
| inherited
| missing.
Arguments own {V} v.
Arguments inherited {V}.
Arguments missing {V}.

Definition getOwn {V} (o : t V) (k : string) : option V :=
  match find (fun e => String.eqb (fst e) k) o with
  | Some e => Some (snd e)
  | None => None
  end.

Definition get {V} (o : t V) (k : string) : slot V :=
  match getOwn o k with
  | Some v => own v
  | None => if isPrototypeKey k then inherited else missing
  end.

(** [o[k] = v] for a key that is no inherited accessor: an own key keeps its
    place, a new one goes last. *)
Fixpoint set {V} (o : t V) (k : string) (v : V) : t V :=
  match o with
  | [] => [(k, v)]
  | (k', v') :: r => if String.eqb k' k then (k, v) :: r else (k', v') :: set r k v
  end.

Definition digit (c : ascii) : option N :=
  let n := N_of_ascii c in
  if ((48 <=? n) && (n <=? 57))%N then Some (n - 48)%N else None.

Fixpoint digits (s : string) (acc : N) : option N :=
  match s with
  | EmptyString => Some acc
  | String c r =>
      match digit c with
      | Some d => digits r (10 * acc + d)%N
      | None => None
      end
  end.

(** An array index: the canonical decimal form of an integer below 2^32 - 1. *)
Definition arrayIndex (k : string) : option N :=
  match k with
  | EmptyString => None
  | String c r =>
      if Ascii.eqb c "0"%char && Js.truthy r then None
      else if (10 <? String.length k)%nat then None
      else match digits k 0 with
           | Some n => if (n <? 4294967295)%N then Some n else None
           | None => None
           end
  end.

Fixpoint insertByIndex (e : N * string) (l : list (N * string)) : list (N * string) :=
  match l with
  | [] => [e]
  | e' :: r => if (fst e <=? fst e')%N then e :: l else e' :: insertByIndex e r
  end.

Definition sortByIndex (l : list (N * string)) : list (N * string) :=
  fold_right insertByIndex [] l.

(** The keys a [for (k in o)] visits: array indices in ascending order, then
    the other keys in creation order. *)
Definition forInKeys {V} (o : t V) : list string :=
  let ks := map fst o in
  let indexed :=
    flat_map (fun k => match arrayIndex k with Some n => [(n, k)] | None => [] end) ks in
  let named :=
    List.filter (fun k => match arrayIndex k with Some _ => false | None => true end) ks in
  (map snd (sortByIndex indexed) ++ named)%list.

End JsObject.

(* ===================================================================== *)
(** ** The host's variable store ([figma.variables]) *)
(* ===================================================================== *)

(** The plugin API is not part of the repository. The store below is the
    part of it the code consumes: collections with their ordered modes and
    member ids, variables with their per-mode values, and the three writes
    (create, set a value for a mode, remove). Every write also goes to the
    log [writes], so that what a call did to the store can be read off.
    Store calls are taken to succeed, as the code takes them to. *)
Module Figma.

Module Mode.
Record t : Type := make { modeId : string; name : string }.
End Mode.

Module VariableCollection.
Record t : Type := make {
  id : string;
  name : string;
  modes : list Mode.t;
  variableIds : list string
}.
End VariableCollection.

(** The API's [Variable] object. *)
Module FigmaVariable.
Record t : Type := make {
  id : string;
  name : string;
  resolvedType : VariableResolvedDataType;
  variableCollectionId : string;
  valuesByMode : ValuesByMode
}.
End FigmaVariable.

Inductive Write : Type :=
| created (name collectionId : string) (resolvedType : VariableResolvedDataType)
    (newId : string)
| valueSet (variableId modeId : string) (value : VariableValue)
(* [setValueForMode] was given [Object.prototype[key]] as its mode *)
| valueSetInherited (variableId key : string) (value : VariableValue)
| removed (variableId : string).

Record Store : Type := mkStore {
  variables : gmap string FigmaVariable.t;
  collections : gmap string VariableCollection.t;
  writes : list Write
}.

Definition getVariableByIdAsync (s : Store) (id : string) : option FigmaVariable.t :=
  variables s !! id.

Definition getVariableCollectionByIdAsync (s : Store) (id : string)
  : option VariableCollection.t :=
  collections s !! id.

(** The id the store gives to the next variable: one no variable has. *)
Definition candidateId (n : nat) : string := "VariableID:new:" ++ pretty n.

Definition freshId (vars : gmap string FigmaVariable.t) : string :=
  match find (fun k => bool_decide (vars !! k = None))
             (map candidateId (seq 0 (S (size vars)))) with
  | Some k => k
  | None => candidateId (S (size vars))
  end.

Definition addMember (variableId : string) (c : VariableCollection.t)
  : VariableCollection.t :=
  VariableCollection.make (VariableCollection.id c) (VariableCollection.name c)
    (VariableCollection.modes c) (VariableCollection.variableIds c ++ [variableId])%list.

Definition dropMember (variableId : string) (c : VariableCollection.t)
  : VariableCollection.t :=
  VariableCollection.make (VariableCollection.id c) (VariableCollection.name c)
    (VariableCollection.modes c)
    (List.filter (fun k => negb (String.eqb k variableId)) (VariableCollection.variableIds c)).

(** [figma.variables.createVariable(name, collectionId, resolvedType)]: the
    new variable, without values, and the store that holds it. *)
Definition createVariable (name collectionId : string)
    (resolvedType : VariableResolvedDataType) (s : Store) : FigmaVariable.t * Store :=
  let newId := freshId (variables s) in
  let v := FigmaVariable.make newId name resolvedType collectionId [] in
  (v, mkStore (<[newId := v]> (variables s))
        (alter (addMember newId) collectionId (collections s))
        (writes s ++ [created name collectionId resolvedType newId])%list).

Fixpoint setValue (values : ValuesByMode) (modeId : string) (value : VariableValue)
  : ValuesByMode :=
  match values with
  | [] => [(modeId, value)]
  | (k, x) :: r =>
      if String.eqb k modeId then (modeId, value) :: r else (k, x) :: setValue r modeId value
  end.

(** [variable.setValueForMode(modeId, value)] on the variable [variableId]. *)
Definition setValueForMode (variableId modeId : string) (value : VariableValue)
    (s : Store) : Store :=
  mkStore
    (alter (fun v => FigmaVariable.make (FigmaVariable.id v) (FigmaVariable.name v) (FigmaVariable.resolvedType v)
                       (FigmaVariable.variableCollectionId v)
                       (setValue (FigmaVariable.valuesByMode v) modeId value))
           variableId (variables s))
    (collections s)
    (writes s ++ [valueSet variableId modeId value])%list.

(** [variable.setValueForMode(m, value)] where [m] is no mode id but the
    function or object that every plain object inherits as [key]. The call
    is recorded; the values of the variable, which are held by mode id, are
    left as they are. *)
Definition setValueForInherited (variableId key : string) (value : VariableValue)
    (s : Store) : Store :=
  mkStore (variables s) (collections s)
    (writes s ++ [valueSetInherited variableId key value])%list.

(** [variable.remove()] on the variable that [variableId] resolved to. *)
Definition remove (variableId : string) (s : Store) : Store :=
  mkStore (delete variableId (variables s))
    (dropMember variableId <$> collections s)
    (writes s ++ [removed variableId])%list.

(** The collection has a member that resolves to a variable of that name. *)
Definition holdsName (s : Store) (collection : VariableCollection.t) (name : string)
  : Prop :=
  exists memberId member,
    In memberId (VariableCollection.variableIds collection)
    /\ getVariableByIdAsync s memberId = Some member
    /\ FigmaVariable.name member = name.

(** [valuesByMode[modeId]]. *)
Definition valueFor (values : ValuesByMode) (modeId : string) : option VariableValue :=
  match find (fun e => String.eqb (fst e) modeId) values with
  | Some e => Some (snd e)
  | None => None
  end.

(** A variable with other values. *)
Definition withValues (values : ValuesByMode) (v : Figma.FigmaVariable.t)
  : Figma.FigmaVariable.t :=
  Figma.FigmaVariable.make (Figma.FigmaVariable.id v) (Figma.FigmaVariable.name v)
    (Figma.FigmaVariable.resolvedType v) (Figma.FigmaVariable.variableCollectionId v) values.

End Figma.

(** The messages of the repository's [throw new Error(...)] sites. *)
Inductive ModeMismatch : Type :=
| countMismatch (sourceCount targetCount : nat)
| nameMismatch (position : nat) (sourceName targetName : string).

Inductive Message : Type :=
(* code.js *)
| variableNotFound
| sourceCollectionNotFound
| targetCollectionNotFound
| incompatibleModes (detail : ModeMismatch)
(* code.js and variablesService.ts *)
| duplicateName (variableName collectionName : string)
(* variablesService.ts *)
| variableIdNotFound (variableId : string)
| collectionIdNotFound (collectionId : string).

(** A call against the store: how it ends and the store it leaves. *)
Definition Async (A : Type) : Type := Figma.Store -> Js.completion Message A * Figma.Store.

(* ===================================================================== *)
(** ** src/code.js: [buildTree] *)
(* ===================================================================== *)

Module CodeJs.

Definition SEPARATOR : string := "/".

(** A node object while [buildTree] runs. [nodeMap], [rootNodes] and the
    [children] arrays all hold references to the same objects; every object
    is a value of [nodeMap], so a reference is the key it is stored under. *)
Record NodeObject : Type := mkNodeObject {
  id : string;
  name : string;
  type : TreeNode.NodeType;
  level : nat;
  collapsed : bool;
  checked : bool;
  indeterminate : bool;
  parentPath : option string;
  variableId : option string;
  children : option (list string)
}.

(** [!part || part.trim() === '']. *)
Definition emptyPart (part : string) : bool :=
  negb (Js.truthy part) || String.eqb (Js.trim part) "".

(** [!variable.name || typeof variable.name !== 'string']. *)
Definition withoutName (v : VariableData.t) : bool :=
  negb (Js.truthyValue (VariableData.name v)) || negb (Js.isString (VariableData.name v)).

(** The callback of the loop over [parts] ([j] is the index of [part]); the
    state is [nodeMap] and [currentPath]. *)
Definition visitPart (variableId : string) (nparts : nat)
    (st : JsObject.t NodeObject * string) (j : nat) (part : string)
  : JsObject.t NodeObject * string :=
  let '(nodeMap, currentPath) := st in
  if emptyPart part then st
  else
    let parent := currentPath in
    let path := currentPath ++ (if Js.truthy currentPath then SEPARATOR else "") ++ part in
    let isLeaf := (j =? nparts - 1)%nat in
    match JsObject.get nodeMap path with
    | JsObject.missing =>
        let node :=
          mkNodeObject path part
            (if isLeaf then TreeNode.variable else TreeNode.group)
            j true false false
            (if Js.truthy parent then Some parent else None)
            (if isLeaf then Some variableId else None)
            (if isLeaf then None else Some []) in
        (JsObject.set nodeMap path node, path)
    | _ => (nodeMap, path)
    end.

Fixpoint visitParts (variableId : string) (nparts : nat) (parts : list string) (j : nat)
    (st : JsObject.t NodeObject * string) : JsObject.t NodeObject * string :=
  match parts with
  | [] => st
  | part :: rest =>
      visitParts variableId nparts rest (S j) (visitPart variableId nparts st j part)
  end.

(** The body of the first loop, for one variable. *)
Definition visitVariable (nodeMap : JsObject.t NodeObject) (v : VariableData.t)
  : Js.completion Empty_set (JsObject.t NodeObject) :=
  if withoutName v then Js.normal nodeMap
  else
    match Js.splitValue (VariableData.name v) with
    | Js.throw e => Js.throw e
    | Js.normal parts =>
        Js.normal (fst (visitParts (VariableData.id v) (length parts) parts 0 (nodeMap, "")))
    end.

Fixpoint firstPass (nodeMap : JsObject.t NodeObject) (variables : list VariableData.t)
  : Js.completion Empty_set (JsObject.t NodeObject) :=
  match variables with
  | [] => Js.normal nodeMap
  | v :: rest =>
      match visitVariable nodeMap v with
      | Js.throw e => Js.throw e
      | Js.normal nodeMap' => firstPass nodeMap' rest
      end
  end.

(** The second loop's state: the node objects, [rootNodes], and whether
    [Object.prototype] has been given a [children] array. *)
Record Linking : Type := mkLinking {
  objects : JsObject.t NodeObject;
  rootNodes : list string;
  prototypeHasChildren : bool
}.

Definition withChildren (o : NodeObject) (cs : option (list string)) : NodeObject :=
  mkNodeObject (id o) (name o) (type o) (level o) (collapsed o) (checked o)
    (indeterminate o) (parentPath o) (variableId o) cs.

(** [if (!parent.children) parent.children = []; parent.children.push(node)]
    for a parent that is a node object stored under [p]. A parent without a
    [children] of its own reads the inherited array once there is one, and
    the push then goes to that array. *)
Definition pushChild (st : Linking) (p : string) (parent : NodeObject) (path : string)
  : Linking :=
  match children parent with
  | Some cs =>
      mkLinking (JsObject.set (objects st) p (withChildren parent (Some (cs ++ [path])%list)))
        (rootNodes st) (prototypeHasChildren st)
  | None =>
      if prototypeHasChildren st then st
      else
        mkLinking (JsObject.set (objects st) p (withChildren parent (Some [path])))
          (rootNodes st) (prototypeHasChildren st)
  end.

(** The body of the second loop for the own key [path]. *)
Definition linkNode (st : Linking) (path : string) : Linking :=
  match JsObject.getOwn (objects st) path with
  | None => st
  | Some node =>
      match parentPath node with
      | Some p =>
          if Js.truthy p then
            match JsObject.get (objects st) p with
            | JsObject.own parent => pushChild st p parent path
            | JsObject.inherited =>
                (* the parent is a built-in object: the node ends in an
                   array of that object or of [Object.prototype] *)
                mkLinking (objects st) (rootNodes st)
                  (prototypeHasChildren st || String.eqb p "__proto__")
            | JsObject.missing =>
                mkLinking (objects st) (rootNodes st ++ [path])%list (prototypeHasChildren st)
            end
          else mkLinking (objects st) (rootNodes st ++ [path])%list (prototypeHasChildren st)
      | None => mkLinking (objects st) (rootNodes st ++ [path])%list (prototypeHasChildren st)
      end
  end.

(** The second loop, run where [Object.prototype] has no [children] yet.
    A node whose parent path is [__proto__] makes the loop give it one; that
    array stays after the call, for every later read of a [children] that an
    object does not own. *)
Definition secondPass (nodeMap : JsObject.t NodeObject) : Linking :=
  fold_left linkNode (JsObject.forInKeys nodeMap) (mkLinking nodeMap [] false).

Definition mapM {A B} (f : A -> option B) : list A -> option (list B) :=
  fix go (l : list A) : option (list B) :=
    match l with
    | [] => Some []
    | x :: r =>
        match f x, go r with
        | Some y, Some ys => Some (y :: ys)
        | _, _ => None
        end
    end.

(** The tree a reference stands for, read through the objects' own
    properties; [None] when [fuel] nested levels are not enough. *)
Fixpoint readNode (fuel : nat) (objs : JsObject.t NodeObject) (ref : string)
  : option TreeNode.t :=
  match fuel with
  | 0 => None
  | S fuel' =>
      match JsObject.getOwn objs ref with
      | None => None
      | Some o =>
          let node cs :=
            TreeNode.make (id o) (name o) (type o) cs (variableId o) (collapsed o)
              (level o) (checked o) (indeterminate o) (Some (parentPath o)) in
          match children o with
          | None => Some (node None)
          | Some refs =>
              match mapM (readNode fuel' objs) refs with
              | Some cs => Some (node (Some cs))
              | None => None
              end
          end
      end
  end.

(** Every key is longer than the key of its parent, so no chain of
    [children] is longer than the longest key. *)
Definition depthBound (objs : JsObject.t NodeObject) : nat :=
  S (list_max (map (fun e => String.length (fst e)) objs)).

(** What holds of every node object under its key: the key is longer than
    the parent's, and the name is a part that was not skipped. *)
Definition objectOk (k : string) (o : NodeObject) : Prop :=
  (forall p, parentPath o = Some p -> String.length p < String.length k)
  /\ emptyPart (name o) = false.

(** After the first pass every object is as [objectOk] says and holds no
    reference yet. *)
Definition unlinked (nodeMap : JsObject.t NodeObject) : Prop :=
  forall k o, JsObject.getOwn nodeMap k = Some o ->
    objectOk k o /\ (children o = None \/ children o = Some []).

(** The references held by the objects and by [rootNodes] lead to objects,
    and a child's key is longer than its parent's. *)
Definition linked (st : Linking) : Prop :=
  (forall k o, JsObject.getOwn (objects st) k = Some o -> objectOk k o)
  /\ (forall k o refs,
        JsObject.getOwn (objects st) k = Some o -> children o = Some refs ->
        forall r, In r refs ->
          (exists o', JsObject.getOwn (objects st) r = Some o')
          /\ String.length k < String.length r)
  /\ (forall r, In r (rootNodes st) -> exists o, JsObject.getOwn (objects st) r = Some o).

(** [buildTree(variables)], called where [Object.prototype] has no
    [children]: the forest behind [rootNodes], or [None] if the bound on the
    depth did not suffice to read it. Whether the call leaves
    [Object.prototype] with a [children] is [leavesPrototypeChildren]
    below; the handlers keep track of it and model no tree function after
    that. *)
Definition buildTree (variables : list VariableData.t)
  : Js.completion Empty_set (option Forest) :=
  match firstPass [] variables with
  | Js.throw e => Js.throw e
  | Js.normal nodeMap =>
      let st := secondPass nodeMap in
      Js.normal (mapM (readNode (depthBound (objects st)) (objects st)) (rootNodes st))
  end.

(** *** What the properties of a built forest speak of *)

(** The name of a variable as a string (empty when it is none). *)
Definition stringName (v : VariableData.t) : string :=
  match VariableData.name v with Js.str s => s | _ => EmptyString end.

(** The values [currentPath] takes over [parts] when no part is skipped. *)
Fixpoint pathsFrom (currentPath : string) (parts : list string) : list string :=
  match parts with
  | [] => []
  | part :: rest =>
      let path :=
        currentPath ++ (if Js.truthy currentPath then SEPARATOR else EmptyString) ++ part in
      path :: pathsFrom path rest
  end.

(** The paths of a name: [a], [a/b], [a/b/c] for the name [a/b/c]. *)
Definition paths (name : string) : list string := pathsFrom EmptyString (Js.split name).

(** The paths of the groups of a name: all its paths but the last. *)
Definition groupPaths (name : string) : list string := removelast (paths name).

(** A name the guards of [buildTree] let through untouched, and none of
    whose paths reads as a property of [Object.prototype]. *)
Definition wellFormed (v : VariableData.t) : bool :=
  Js.isString (VariableData.name v)
  && forallb (fun part => negb (emptyPart part)) (Js.split (stringName v))
  && forallb (fun path => negb (JsObject.isPrototypeKey path)) (paths (stringName v)).

(** The node object is the leaf that was made for the variable. *)
Definition leafFor (v : VariableData.t) (o : NodeObject) : Prop :=
  type o = TreeNode.variable /\ variableId o = Some (VariableData.id v) /\ children o = None.

(** [nodeMap] after the first pass over [done], a part of [variables]. *)
Definition built (variables done : list VariableData.t) (nodeMap : JsObject.t NodeObject)
  : Prop :=
  List.NoDup (map fst nodeMap)
  /\ (forall v, In v done ->
        exists o, JsObject.getOwn nodeMap (stringName v) = Some o /\ leafFor v o)
  /\ (forall k o, JsObject.getOwn nodeMap k = Some o ->
        id o = k
        /\ (forall p, parentPath o = Some p ->
              Js.truthy p = true /\ String.length p < String.length k
              /\ exists po, JsObject.getOwn nodeMap p = Some po /\ children po = Some [])
        /\ ((exists v, In v done /\ k = stringName v /\ leafFor v o)
            \/ (type o = TreeNode.group /\ children o = Some []
                /\ exists w, In w variables /\ In k (groupPaths (stringName w))))).

(** Whether the node stored under [k] names [p] as its parent. *)
Definition isChild (nodeMap : JsObject.t NodeObject) (p k : string) : bool :=
  match JsObject.getOwn nodeMap k with
  | Some o => match parentPath o with Some q => String.eqb q p | None => false end
  | None => false
  end.

(** Whether the node stored under [k] names no parent. *)
Definition isRoot (nodeMap : JsObject.t NodeObject) (k : string) : bool :=
  match JsObject.getOwn nodeMap k with
  | Some o => match parentPath o with Some _ => false | None => true end
  | None => false
  end.

(** The object of [nodeMap] under [k] once the keys [seen] are linked: a
    [children] array holds the nodes of [seen] that name [k] as parent. *)
Definition relink (nodeMap : JsObject.t NodeObject) (seen : list string) (k : string)
    (o : NodeObject) : NodeObject :=
  withChildren o
    match children o with
    | Some _ => Some (List.filter (isChild nodeMap k) seen)
    | None => None
    end.

(** The state of the second loop after the keys [seen]. *)
Definition linkedUpTo (nodeMap : JsObject.t NodeObject) (seen : list string) (st : Linking)
  : Prop :=
  rootNodes st = List.filter (isRoot nodeMap) seen
  /\ forall k,
       JsObject.getOwn (objects st) k
       = option_map (relink nodeMap seen k) (JsObject.getOwn nodeMap k).

(** [below nodeMap k a]: [a] is [k] or one of the nodes that the chain of
    parents of [k] names. *)
Inductive below (nodeMap : JsObject.t NodeObject) : string -> string -> Prop :=
| below_self k : below nodeMap k k
| below_parent k o p a :
    JsObject.getOwn nodeMap k = Some o -> parentPath o = Some p ->
    below nodeMap p a -> below nodeMap k a.

(** Two nodes that name the same parent, or none. *)
Definition siblings (nodeMap : JsObject.t NodeObject) (k k' : string) : Prop :=
  exists o o', JsObject.getOwn nodeMap k = Some o /\ JsObject.getOwn nodeMap k' = Some o'
               /\ parentPath o = parentPath o'.

(** The ids of a node and of the nodes below it. *)
Definition idsOf (node : TreeNode.t) : list string :=
  map TreeNode.id (TreeBuilder.subtree node).

(** What a node read under the key [k] says of the nodes below it: they
    are the objects below [k], each once, with the type and the variable of
    their object. *)
Definition readOk (nodeMap : JsObject.t NodeObject) (k : string) (node : TreeNode.t)
  : Prop :=
  TreeNode.id node = k
  /\ List.NoDup (idsOf node)
  /\ (forall m, In m (TreeBuilder.subtree node) ->
        below nodeMap (TreeNode.id m) k
        /\ exists o, JsObject.getOwn nodeMap (TreeNode.id m) = Some o
                     /\ TreeNode.type m = type o
                     /\ TreeNode.variableId m = variableId o
                     /\ (children o = None -> TreeNode.children m = None))
  /\ (forall x, below nodeMap x k -> In x (idsOf node)).

(** *** The migration functions of src/code.js *)

Definition toVariableData (v : Figma.FigmaVariable.t) : VariableData.t :=
  VariableData.make (Figma.FigmaVariable.id v) (Js.str (Figma.FigmaVariable.name v))
    (Figma.FigmaVariable.resolvedType v) (Figma.FigmaVariable.variableCollectionId v)
    (Figma.FigmaVariable.valuesByMode v).

(** [getVariablesByCollection]: an unknown collection gives [[]]; a member id
    that does not resolve and a variable without a name are left out. It only
    reads the store. *)
Definition getVariablesByCollection (collectionId : string) (s : Figma.Store)
  : list VariableData.t :=
  match Figma.getVariableCollectionByIdAsync s collectionId with
  | None => []
  | Some collection =>
      let variables :=
        map (Figma.getVariableByIdAsync s) (Figma.VariableCollection.variableIds collection) in
      let validVariables :=
        flat_map (fun v => match v with
                           | Some v => if Js.truthy (Figma.FigmaVariable.name v) then [v] else []
                           | None => []
                           end) variables in
      map toVariableData validVariables
  end.

Inductive Validation : Type :=
| incompatible (error : ModeMismatch)
| compatible (modeMapping : gmap string string).

(** The loop that compares the names position by position, from index [i]. *)
Fixpoint compareNames (i : nat) (sourceModes targetModes : list Figma.Mode.t)
  : option ModeMismatch :=
  match sourceModes, targetModes with
  | a :: sourceModes', b :: targetModes' =>
      if String.eqb (Figma.Mode.name a) (Figma.Mode.name b)
      then compareNames (S i) sourceModes' targetModes'
      else Some (nameMismatch (i + 1) (Figma.Mode.name a) (Figma.Mode.name b))
  | _, _ => None
  end.

(** The loop [modeMapping[sourceModes[i].modeId] = targetModes[i].modeId]. *)
Fixpoint fillMapping (modeMapping : gmap string string)
    (sourceModes targetModes : list Figma.Mode.t) : gmap string string :=
  match sourceModes, targetModes with
  | a :: sourceModes', b :: targetModes' =>
      fillMapping (<[Figma.Mode.modeId a := Figma.Mode.modeId b]> modeMapping)
        sourceModes' targetModes'
  | _, _ => modeMapping
  end.

Definition validateModeCompatibility
    (sourceCollection targetCollection : Figma.VariableCollection.t) : Validation :=
  let sourceModes := Figma.VariableCollection.modes sourceCollection in
  let targetModes := Figma.VariableCollection.modes targetCollection in
  if negb (length sourceModes =? length targetModes)%nat
  then incompatible (countMismatch (length sourceModes) (length targetModes))
  else
    match compareNames 0 sourceModes targetModes with
    | Some error => incompatible error
    | None => compatible (fillMapping ∅ sourceModes targetModes)
    end.

(** The ids of the modes of a collection, in its order. *)
Definition modeIds (c : Figma.VariableCollection.t) : list string :=
  map Figma.Mode.modeId (Figma.VariableCollection.modes c).


(** Mode-compatible, as the data model defines it: the same number of modes,
    and the same name at every position. *)
Definition modeCompatible (source target : Figma.VariableCollection.t) : Prop :=
  length (Figma.VariableCollection.modes source) = length (Figma.VariableCollection.modes target)
  /\ forall i a b,
       Figma.VariableCollection.modes source !! i = Some a ->
       Figma.VariableCollection.modes target !! i = Some b ->
       Figma.Mode.name a = Figma.Mode.name b.

Record SwapResult : Type := mkSwapResult { success : bool; variableName : string }.

(** [modeMapping[sourceModeId]]. The mapping is a plain object: a key that
    was not assigned but names a property of [Object.prototype] reads as that
    property, and [__proto__] reads as the prototype even after a mode id was
    assigned to it (the assignment of a string to it is ignored). *)
Definition readMapping (modeMapping : gmap string string) (sourceModeId : string)
  : JsObject.slot string :=
  if String.eqb sourceModeId "__proto__" then JsObject.inherited
  else
    match modeMapping !! sourceModeId with
    | Some targetModeId => JsObject.own targetModeId
    | None =>
        if JsObject.isPrototypeKey sourceModeId then JsObject.inherited
        else JsObject.missing
    end.

(** The loop over [Object.keys(variable.valuesByMode)]: a value goes to the
    mode its source mode is mapped to; without a mapping it is dropped. What
    is read from the prototype is truthy, so [setValueForMode] is called with
    it. *)
Definition transferValues (modeMapping : gmap string string) (newId : string)
    (values : ValuesByMode) (s : Figma.Store) : Figma.Store :=
  fold_left
    (fun s e =>
       match readMapping modeMapping (fst e) with
       | JsObject.own targetModeId =>
           if Js.truthy targetModeId then Figma.setValueForMode newId targetModeId (snd e) s
           else s
       | JsObject.inherited => Figma.setValueForInherited newId (fst e) (snd e) s
       | JsObject.missing => s
       end)
    values s.

Definition sameName (variableName : string) (v : VariableData.t) : bool :=
  match VariableData.name v with
  | Js.str n => String.eqb n variableName
  | _ => false
  end.

Definition swapVariableCollection (variableId sourceCollectionId targetCollectionId : string)
  : Async SwapResult :=
  fun s =>
    match Figma.getVariableByIdAsync s variableId,
          Figma.getVariableCollectionByIdAsync s sourceCollectionId,
          Figma.getVariableCollectionByIdAsync s targetCollectionId with
    | None, _, _ => (Js.throw (Js.Error variableNotFound), s)
    | Some _, None, _ => (Js.throw (Js.Error sourceCollectionNotFound), s)
    | Some _, Some _, None => (Js.throw (Js.Error targetCollectionNotFound), s)
    | Some variable, Some sourceCollection, Some targetCollection =>
        match validateModeCompatibility sourceCollection targetCollection with
        | incompatible error => (Js.throw (Js.Error (incompatibleModes error)), s)
        | compatible modeMapping =>
            let existingVars := getVariablesByCollection targetCollectionId s in
            match find (sameName (Figma.FigmaVariable.name variable)) existingVars with
            | Some _ =>
                (Js.throw (Js.Error (duplicateName (Figma.FigmaVariable.name variable)
                                       (Figma.VariableCollection.name targetCollection))), s)
            | None =>
                let '(newVariable, s1) :=
                  Figma.createVariable (Figma.FigmaVariable.name variable) targetCollectionId
                    (Figma.FigmaVariable.resolvedType variable) s in
                let s2 :=
                  transferValues modeMapping (Figma.FigmaVariable.id newVariable)
                    (Figma.FigmaVariable.valuesByMode variable) s1 in
                let s3 := Figma.remove variableId s2 in
                (Js.normal (mkSwapResult true (Figma.FigmaVariable.name variable)), s3)
            end
        end
    end.

(** The write that one source value leads to: none when [modeMapping] reads
    as nothing truthy at its mode. *)
Definition transferOf (modeMapping : gmap string string) (newId : string)
    (e : string * VariableValue) : list Figma.Write :=
  match readMapping modeMapping (fst e) with
  | JsObject.own targetModeId =>
      if Js.truthy targetModeId then [Figma.valueSet newId targetModeId (snd e)] else []
  | JsObject.inherited => [Figma.valueSetInherited newId (fst e) (snd e)]
  | JsObject.missing => []
  end.

(** [results]: [success] holds [{id, name}], [failed] holds [{id, error}]
    with the message of the error that was caught. *)
Record BatchResults : Type := mkBatchResults {
  succeeded : list (string * string);
  failed : list (string * Js.exn Message)
}.

(** [processNext(index)], with [rest] the ids from [index] on. The object
    [results] is shared by all the callbacks, so it is part of the state. *)
Fixpoint processNext (sourceCollectionId targetCollectionId : string) (rest : list string)
    (st : BatchResults * Figma.Store)
  : Js.completion Message unit * (BatchResults * Figma.Store) :=
  match rest with
  | [] => (Js.normal tt, st)
  | varId :: rest' =>
      let '(results, s) := st in
      let '(swapped, s1) :=
        swapVariableCollection varId sourceCollectionId targetCollectionId s in
      (* .then(function(result) { ... }) *)
      let '(chained, st2) :=
        match swapped with
        | Js.normal result =>
            processNext sourceCollectionId targetCollectionId rest'
              (mkBatchResults (succeeded results ++ [(varId, variableName result)])%list
                 (failed results), s1)
        | Js.throw e => (Js.throw e, (results, s1))
        end in
      (* .catch(function(error) { ... }) *)
      match chained with
      | Js.normal u => (Js.normal u, st2)
      | Js.throw error =>
          processNext sourceCollectionId targetCollectionId rest'
            (mkBatchResults (succeeded (fst st2))
               (failed (fst st2) ++ [(varId, error)])%list, snd st2)
      end
  end.

Definition batchSwapVariables (variableIds : list string)
    (sourceCollectionId targetCollectionId : string) : Async BatchResults :=
  fun s =>
    let '(r, (results, s')) :=
      processNext sourceCollectionId targetCollectionId variableIds
        (mkBatchResults [] [], s) in
    match r with
    | Js.normal _ => (Js.normal results, s')
    | Js.throw e => (Js.throw e, s')
    end.

(** *** The tree functions of src/code.js *)

(** The inner function [matchNode] of [filterTree]; the loop over
    [node.children] pushes what it keeps. *)
Fixpoint matchNode (lowerQuery : string) (node : TreeNode.t) : option TreeNode.t :=
  match node with
  | TreeNode.make i n ty cs v col lv ch ind pp =>
      let nameMatches := Js.includes (Js.toLowerCase i) lowerQuery in
      match ty with
      | TreeNode.variable => if nameMatches then Some node else None
      | TreeNode.group =>
          let matchedChildren :=
            match cs with
            | Some l =>
                fold_left
                  (fun matchedChildren child =>
                     match matchNode lowerQuery child with
                     | Some matched => (matchedChildren ++ [matched])%list
                     | None => matchedChildren
                     end) l []
            | None => []
            end in
          if (0 <? length matchedChildren)%nat || nameMatches
          then Some (TreeNode.make i n ty (Some matchedChildren) v false lv ch ind pp)
          else None
      end
  end.

Definition filterTree (tree : Forest) (query : string) : Forest :=
  if negb (Js.truthy (Js.trim query)) then tree
  else
    fold_left
      (fun result node =>
         match matchNode (Js.toLowerCase query) node with
         | Some matched => (result ++ [matched])%list
         | None => result
         end) tree [].

(** What one round of the loop of [toggleNodeCollapsed] pushes. *)
Fixpoint toggleNode (nodeId : string) (node : TreeNode.t) : TreeNode.t :=
  match node with
  | TreeNode.make i n ty cs v col lv ch ind pp =>
      if String.eqb i nodeId then TreeNode.make i n ty cs v (negb col) lv ch ind pp
      else
        match cs with
        | Some l =>
            TreeNode.make i n ty
              (Some (fold_left (fun result child => (result ++ [toggleNode nodeId child])%list)
                       l []))
              v col lv ch ind pp
        | None => node
        end
  end.

Definition toggleNodeCollapsed (tree : Forest) (nodeId : string) : Forest :=
  fold_left (fun result node => (result ++ [toggleNode nodeId node])%list) tree [].

(** *** What the properties of the ids and of a move speak of *)

(** The [parentPath] that the id of a node stands for: its group path, or
    [null] when that is empty. *)
Definition parentOf (k : string) : option string :=
  let groupPath := VariableHelpers.getVariableGroupPath k in
  if Js.truthy groupPath then Some groupPath else None.

(** Every node object is named after its key: the key is its id, its name
    is the last part of the key, and its parent is the rest of the key,
    which is a key of [nodeMap] or an inherited one. *)
Definition pathNamed (nodeMap : JsObject.t NodeObject) : Prop :=
  forall k o, JsObject.getOwn nodeMap k = Some o ->
    id o = k
    /\ name o = VariableHelpers.getShortVariableName k
    /\ parentPath o = parentOf k
    /\ forall p, parentPath o = Some p ->
         (exists po, JsObject.getOwn nodeMap p = Some po)
         \/ JsObject.isPrototypeKey p = true.

(** Every reference held by a [children] array leads to a node that names
    the owner of the array as its parent, and every reference held by
    [rootNodes] to a node that names no parent. *)
Definition parented (st : Linking) : Prop :=
  (forall k o refs,
     JsObject.getOwn (objects st) k = Some o -> children o = Some refs ->
     forall r, In r refs ->
       exists o', JsObject.getOwn (objects st) r = Some o' /\ parentPath o' = Some k)
  /\ (forall r, In r (rootNodes st) ->
        exists o', JsObject.getOwn (objects st) r = Some o' /\ parentPath o' = None).

(** The values that the loop over [Object.keys(variable.valuesByMode)]
    leaves on a variable that held [held]. *)
Definition transferred (modeMapping : gmap string string) (values held : ValuesByMode)
  : ValuesByMode :=
  fold_left
    (fun held e =>
       match readMapping modeMapping (fst e) with
       | JsObject.own targetModeId =>
           if Js.truthy targetModeId then Figma.setValue held targetModeId (snd e) else held
       | JsObject.inherited => held
       | JsObject.missing => held
       end)
    values held.

(** *** What the properties of the segments of a name speak of *)

(** The parts that the guard of the inner loop lets through. *)
Definition kept (parts : list string) : list string :=
  List.filter (fun part => negb (emptyPart part)) parts.





(** Whether a call of [buildTree] leaves [Object.prototype] with a
    [children] array. *)
Definition leavesPrototypeChildren (variables : list VariableData.t) : bool :=
  match firstPass [] variables with
  | Js.normal nodeMap => prototypeHasChildren (secondPass nodeMap)
  | Js.throw _ => false
  end.





End CodeJs.

(* ===================================================================== *)
(** ** services/variablesService.ts *)
(* ===================================================================== *)

Module VariablesService.

(** [getVariablesByCollection]: only a member id that does not resolve is
    left out. *)
Definition getVariablesByCollection (collectionId : string) (s : Figma.Store)
  : list VariableData.t :=
  match Figma.getVariableCollectionByIdAsync s collectionId with
  | None => []
  | Some collection =>
      flat_map (fun varId => match Figma.getVariableByIdAsync s varId with
                             | Some variable => [CodeJs.toVariableData variable]
                             | None => []
                             end)
        (Figma.VariableCollection.variableIds collection)
  end.

Definition swapVariableCollection (variableId targetCollectionId : string) : Async unit :=
  fun s =>
    match Figma.getVariableByIdAsync s variableId with
    | None => (Js.throw (Js.Error (variableIdNotFound variableId)), s)
    | Some variable =>
        match Figma.getVariableCollectionByIdAsync s targetCollectionId with
        | None => (Js.throw (Js.Error (collectionIdNotFound targetCollectionId)), s)
        | Some targetCollection =>
            let existingVars := getVariablesByCollection targetCollectionId s in
            match find (CodeJs.sameName (Figma.FigmaVariable.name variable)) existingVars with
            | Some _ =>
                (Js.throw (Js.Error (duplicateName (Figma.FigmaVariable.name variable)
                                       (Figma.VariableCollection.name targetCollection))), s)
            | None =>
                let '(newVariable, s1) :=
                  Figma.createVariable (Figma.FigmaVariable.name variable) targetCollectionId
                    (Figma.FigmaVariable.resolvedType variable) s in
                let sourceModes := Figma.FigmaVariable.valuesByMode variable in
                let targetModes := Figma.VariableCollection.modes targetCollection in
                (* targetModes[0].modeId *)
                match targetModes with
                | [] => (Js.throw Js.TypeError, s1)
                | firstMode :: _ =>
                    let targetModeId := Figma.Mode.modeId firstMode in
                    let sourceValues := map snd sourceModes in
                    let s2 :=
                      match sourceValues with
                      | value :: _ =>
                          Figma.setValueForMode (Figma.FigmaVariable.id newVariable)
                            targetModeId value s1
                      | [] => s1
                      end in
                    (Js.normal tt, Figma.remove variableId s2)
                end
            end
        end
    end.

Record BatchResults : Type := mkBatchResults {
  succeeded : list string;
  failed : list (string * Js.exn Message)
}.

(** The [for (const varId of variableIds)] loop with its [try]/[catch]. *)
Fixpoint batchLoop (targetCollectionId : string) (variableIds : list string)
    (results : BatchResults) (s : Figma.Store) : BatchResults * Figma.Store :=
  match variableIds with
  | [] => (results, s)
  | varId :: rest =>
      match swapVariableCollection varId targetCollectionId s with
      | (Js.normal _, s1) =>
          batchLoop targetCollectionId rest
            (mkBatchResults (succeeded results ++ [varId])%list (failed results)) s1
      | (Js.throw error, s1) =>
          batchLoop targetCollectionId rest
            (mkBatchResults (succeeded results) (failed results ++ [(varId, error)])%list) s1
      end
  end.

Definition batchSwapVariables (variableIds : list string) (targetCollectionId : string)
  : Async BatchResults :=
  fun s =>
    let '(results, s') := batchLoop targetCollectionId variableIds (mkBatchResults [] []) s in
    (Js.normal results, s').

End VariablesService.


(* ===================================================================== *)
(** ** What the claims about a batch speak of *)
(* ===================================================================== *)

Module Batch.

(** One attempt per id, in the order of the list, each on the store the
    attempt before it left: the ids with how their attempts ended, and the
    last store. *)
Fixpoint attempts {A} (swap : string -> Async A) (variableIds : list string)
    (s : Figma.Store) : list (string * Js.completion Message A) * Figma.Store :=
  match variableIds with
  | [] => ([], s)
  | varId :: rest =>
      let '(r, s1) := swap varId s in
      let '(outcomes, s2) := attempts swap rest s1 in
      ((varId, r) :: outcomes, s2)
  end.

Definition returned {A} (o : string * Js.completion Message A) : list (string * A) :=
  match snd o with
  | Js.normal a => [(fst o, a)]
  | Js.throw _ => []
  end.

Definition thrown {A} (o : string * Js.completion Message A)
  : list (string * Js.exn Message) :=
  match snd o with
  | Js.normal _ => []
  | Js.throw e => [(fst o, e)]
  end.

(** The ids whose attempt returned, and the ids whose attempt threw. *)
Definition returnedIds {A} (outcomes : list (string * Js.completion Message A))
  : list string :=
  map fst (flat_map returned outcomes).

Definition thrownIds {A} (outcomes : list (string * Js.completion Message A))
  : list string :=
  map fst (flat_map thrown outcomes).

(** The [{id, name}] that code.js records for an attempt that returned. *)
Definition named (o : string * CodeJs.SwapResult) : string * string :=
  (fst o, CodeJs.variableName (snd o)).

(** [ok] and [bad] split [ids]: together they hold the elements of [ids],
    each as often as [ids] does, and each of the two keeps the order of
    [ids]. *)
Definition splits (ids ok bad : list string) : Prop :=
  Permutation (ok ++ bad) ids
  /\ sublist ok ids
  /\ sublist bad ids.

(** [ok] and [bad] partition [ids]: every id of [ids] is in exactly one of
    the two, and in neither twice. *)
Definition partitions (ids ok bad : list string) : Prop :=
  NoDup ok /\ NoDup bad
  /\ forall id, In id ids -> (In id ok /\ ~ In id bad) \/ (~ In id ok /\ In id bad).

End Batch.

(* ===================================================================== *)
(** ** src/code.js: the handlers *)
(* ===================================================================== *)

(** One message from the UI is handled to the end of the promise chain it
    starts before the next one arrives. What the host is told goes to the
    log [effects]: notices, messages to the UI, and the request to close. The
    texts of the notices are kept as constructors, like the messages of the
    errors. *)
Module Coordinator.

Record CollectionInfo : Type := mkCollectionInfo {
  id : string;
  name : string;
  variableCount : nat;
  modes : list Figma.Mode.t
}.

Inductive Notice : Type :=
(* the file has no variable collections *)
| noCollections
(* choose the variables to move *)
| nothingSelected
(* the errors of the moves that failed, one per line *)
| transferErrors (errors : list (Js.exn Message))
(* that many variables were moved *)
| transferred (count : nat)
(* the message of an error that reached [handleError] *)
| errorNotice (error : Js.exn Message).

Inductive PluginMessage : Type :=
| initData (collections : list CollectionInfo) (defaultCollectionId : string)
| treeData (tree : Forest) (variables : list VariableData.t)
| errorMessage (error : Js.exn Message).

Inductive Effect : Type :=
| notify (notice : Notice) (error : bool)
| postMessage (message : PluginMessage)
| closePlugin.

(** The global state of the plugin. *)
Record Plugin : Type := mkPlugin {
  currentTree : Forest;
  currentVariables : list VariableData.t;
  currentCollectionId : string
}.

(** The plugin, the store, what the host was told, and whether an earlier
    [buildTree] has given [Object.prototype] a [children] array. *)
Record World : Type := mkWorld {
  plugin : Plugin;
  store : Figma.Store;
  effects : list Effect;
  prototypeChildren : bool
}.

(** What handling a message leads to. Once [Object.prototype] has a
    [children] array, every object has a [children]: [toggleNodeCollapsed]
    goes into that array from every leaf, [buildTree] finds the key
    [children] taken and pushes to the array. The handlers that call a tree
    function are not modelled in that state: their outcome is
    [inheritedChildren], which says nothing of what the code does. *)
Inductive Outcome : Type :=
| handled (w : World)
| inheritedChildren.

Inductive UIMessage : Type :=
| init
| selectCollection (collectionId : string)
| search (query : string)
| toggleGroup (path : string)
| swapCollection (variableIds : list string) (targetCollectionId : string)
| unknown.

Definition tell (w : World) (told : list Effect) : World :=
  mkWorld (plugin w) (store w) (effects w ++ told) (prototypeChildren w).

(** [figma.variables.getLocalVariableCollectionsAsync()]: the collections of
    the file, in the order [localIds] in which the host lists them. *)
Definition getLocalVariableCollectionsAsync (localIds : list string) (s : Figma.Store)
  : list Figma.VariableCollection.t :=
  flat_map (fun collectionId =>
              match Figma.getVariableCollectionByIdAsync s collectionId with
              | Some collection => [collection]
              | None => []
              end) localIds.

Definition getCollections (localIds : list string) (s : Figma.Store) : list CollectionInfo :=
  map (fun collection =>
         mkCollectionInfo (Figma.VariableCollection.id collection)
           (Figma.VariableCollection.name collection)
           (length (Figma.VariableCollection.variableIds collection))
           (map (fun mode => Figma.Mode.make (Figma.Mode.modeId mode) (Figma.Mode.name mode))
              (Figma.VariableCollection.modes collection)))
    (getLocalVariableCollectionsAsync localIds s).

Definition handleError (error : Js.exn Message) (w : World) : World :=
  tell w [notify (errorNotice error) true; postMessage (errorMessage error)].

(** An error of [buildTree], which has no [throw] of its own. *)
Definition engineError (e : Js.exn Empty_set) : Js.exn Message :=
  match e with
  | Js.TypeError => Js.TypeError
  | Js.Error message => match message with end
  end.

(** [buildTree(currentVariables)], read back with the fuel that suffices. *)
Definition builtTree (variables : list VariableData.t) : Js.completion Empty_set Forest :=
  match CodeJs.buildTree variables with
  | Js.normal (Some tree) => Js.normal tree
  | Js.normal None => Js.normal []
  | Js.throw e => Js.throw e
  end.

Definition loadCollectionVariables (collectionId : string) (w : World) : Outcome :=
  if prototypeChildren w then inheritedChildren
  else
    let variables := CodeJs.getVariablesByCollection collectionId (store w) in
    let realm := CodeJs.leavesPrototypeChildren variables in
    match builtTree variables with
    | Js.normal tree =>
        handled
          (mkWorld (mkPlugin tree variables collectionId) (store w)
             (effects w ++ [postMessage (treeData tree variables)]) realm)
    | Js.throw e =>
        handled
          (handleError (engineError e)
             (mkWorld (mkPlugin (currentTree (plugin w)) variables collectionId) (store w)
                (effects w) realm))
    end.

Definition initialize (localIds : list string) (w : World) : Outcome :=
  let collections := getCollections localIds (store w) in
  match collections with
  | [] => handled (tell w [notify noCollections true; closePlugin])
  | defaultCollection :: _ =>
      loadCollectionVariables (id defaultCollection)
        (mkWorld
           (mkPlugin (currentTree (plugin w)) (currentVariables (plugin w))
              (id defaultCollection))
           (store w)
           (effects w ++ [postMessage (initData collections (id defaultCollection))])
           (prototypeChildren w))
  end.

(** [figma.ui.onmessage]. *)
Definition onmessage (localIds : list string) (msg : UIMessage) (w : World) : Outcome :=
  match msg with
  | init => initialize localIds w
  | selectCollection collectionId => loadCollectionVariables collectionId w
  | search query =>
      if prototypeChildren w then inheritedChildren
      else
        let filteredTree := CodeJs.filterTree (currentTree (plugin w)) query in
        handled (tell w [postMessage (treeData filteredTree (currentVariables (plugin w)))])
  | toggleGroup path =>
      if prototypeChildren w then inheritedChildren
      else
        let tree := CodeJs.toggleNodeCollapsed (currentTree (plugin w)) path in
        handled
          (mkWorld
             (mkPlugin tree (currentVariables (plugin w)) (currentCollectionId (plugin w)))
             (store w)
             (effects w ++ [postMessage (treeData tree (currentVariables (plugin w)))])
             (prototypeChildren w))
  | swapCollection variableIds targetCollectionId =>
      match variableIds with
      | [] => handled (tell w [notify nothingSelected true])
      | _ :: _ =>
          match CodeJs.batchSwapVariables variableIds (currentCollectionId (plugin w))
                  targetCollectionId (store w) with
          | (Js.normal results, s) =>
              let w1 :=
                mkWorld (plugin w) s
                  (effects w
                   ++ if (0 <? length (CodeJs.failed results))%nat
                      then [notify (transferErrors (map snd (CodeJs.failed results))) true]
                      else [])
                  (prototypeChildren w) in
              if (0 <? length (CodeJs.succeeded results))%nat
              then
                loadCollectionVariables (currentCollectionId (plugin w1))
                  (tell w1 [notify (transferred (length (CodeJs.succeeded results))) false])
              else handled w1
          | (Js.throw e, s) =>
              handled (handleError e (mkWorld (plugin w) s (effects w) (prototypeChildren w)))
          end
      end
  | unknown => handled w
  end.

(** *** What the properties of the handlers speak of *)





End Coordinator.

(* ===================================================================== *)
(** ** Sample data *)
(* ===================================================================== *)

Module Sample.

Definition variableNamed (id name : string) : VariableData.t :=
  VariableData.make id (Js.str name) COLOR "collection:1" [].

(** The three variables of the spec's scenario. *)
Definition scenario : list VariableData.t :=
  [ variableNamed "v1" "color/bg/default";
    variableNamed "v2" "color/bg/hover";
    variableNamed "v3" "color/fg" ].

Definition leaf (id name variableId : string) (level : nat) (checked indeterminate : bool)
  : TreeNode.t :=
  TreeNode.make id name TreeNode.variable None (Some variableId) true level checked
    indeterminate None.

Definition branch (id name : string) (level : nat) (children : Forest)
    (checked indeterminate : bool) : TreeNode.t :=
  TreeNode.make id name TreeNode.group (Some children) None true level checked
    indeterminate None.

(** [color] with the group [bg] (two leaves) and the leaf [fg]; [hover] is
    checked, so [bg] and [color] are indeterminate. *)
Definition colorForest : Forest :=
  [ branch "color" "color" 0
      [ branch "color/bg" "bg" 1
          [ leaf "color/bg/default" "default" "v1" 2 false false;
            leaf "color/bg/hover" "hover" "v2" 2 true false ]
          false true;
        leaf "color/fg" "fg" "v3" 1 false false ]
      false true ].

(** The same forest with nothing checked. *)
Definition uncheckedForest : Forest :=
  [ branch "color" "color" 0
      [ branch "color/bg" "bg" 1
          [ leaf "color/bg/default" "default" "v1" 2 false false;
            leaf "color/bg/hover" "hover" "v2" 2 false false ]
          false false;
        leaf "color/fg" "fg" "v3" 1 false false ]
      false false ].

(** [colorForest] as objects on a heap: [color] at 0, [bg] at 1, its leaves
    at 2 and 3, [fg] at 4. *)
Definition colorHeap : TreeHeap.Heap :=
  [ TreeHeap.mkObject
      (TreeNode.make "color" "color" TreeNode.group None None true 0 false true None)
      (Some [1; 4]);
    TreeHeap.mkObject
      (TreeNode.make "color/bg" "bg" TreeNode.group None None true 1 false true None)
      (Some [2; 3]);
    TreeHeap.mkObject (leaf "color/bg/default" "default" "v1" 2 false false) None;
    TreeHeap.mkObject (leaf "color/bg/hover" "hover" "v2" 2 true false) None;
    TreeHeap.mkObject (leaf "color/fg" "fg" "v3" 1 false false) None ].

(** A group whose only leaf is unchecked but marked indeterminate. *)
Definition markedLeafForest : Forest :=
  [ branch "g" "g" 0 [ leaf "g/x" "x" "v1" 1 false true ] false false ].

Definition light : Figma.Mode.t := Figma.Mode.make "1:0" "Light".
Definition dark : Figma.Mode.t := Figma.Mode.make "1:1" "Dark".
Definition light' : Figma.Mode.t := Figma.Mode.make "2:0" "Light".
Definition dark' : Figma.Mode.t := Figma.Mode.make "2:1" "Dark".
Definition single : Figma.Mode.t := Figma.Mode.make "3:0" "Default".

Definition red : VariableValue := RGBA 1 0 0 1.
Definition blue : VariableValue := RGBA 0 0 1 1.

(** Three collections: [themes] and [brand] have the modes Light and Dark,
    [plain] has the one mode Default. [themes] holds [bg] and [fg]; [brand]
    and [plain] each hold a variable that is named like [bg]. *)
Definition store : Figma.Store :=
  Figma.mkStore
    (list_to_map
       [ ("bg", Figma.FigmaVariable.make "bg" "color/bg" COLOR "themes"
                  [("1:0", red); ("1:1", blue)]);
         ("fg", Figma.FigmaVariable.make "fg" "color/fg" COLOR "themes"
                  [("1:0", blue); ("1:1", red)]);
         ("brand-bg", Figma.FigmaVariable.make "brand-bg" "color/bg" COLOR "brand" []);
         ("plain-bg", Figma.FigmaVariable.make "plain-bg" "color/bg" COLOR "plain" []) ])
    (list_to_map
       [ ("themes", Figma.VariableCollection.make "themes" "Themes" [light; dark]
                      ["bg"; "fg"]);
         ("brand", Figma.VariableCollection.make "brand" "Brand" [light'; dark']
                     ["brand-bg"]);
         ("plain", Figma.VariableCollection.make "plain" "Plain" [single] ["plain-bg"]) ])
    [].

(** The sample store with one more collection, [bare], that has no mode. *)
Definition bareStore : Figma.Store :=
  Figma.mkStore (Figma.variables Sample.store)
    (<["bare" := Figma.VariableCollection.make "bare" "Bare" [] []]>
       (Figma.collections Sample.store))
    [].

(** The plugin before any message, on the sample store. *)
Definition startWorld : Coordinator.World :=
  Coordinator.mkWorld (Coordinator.mkPlugin [] [] "") store [] false.

(** The plugin after [themes] of the sample store was selected. *)
Definition themesWorld : Coordinator.World :=
  match Coordinator.onmessage ["themes"; "brand"; "plain"]
          (Coordinator.selectCollection "themes") startWorld with
  | Coordinator.handled w => w
  | Coordinator.inheritedChildren => startWorld
  end.

(** The sample store with a value of [fg] under the key [constructor]. *)
Definition inheritedKeyStore : Figma.Store :=
  Figma.mkStore
    (<["fg" := Figma.FigmaVariable.make "fg" "color/fg" COLOR "themes"
                 [("constructor", red); ("1:0", blue)]]> (Figma.variables store))
    (Figma.collections store)
    [].

End Sample.

(* ===================================================================== *)
(** * Properties *)
(* ===================================================================== *)


Lemma map_fixed {A} (f : A -> A) (l : list A) :
  Forall (fun x => f x = x) l -> map f l = l.
Proof.
  induction 1 as [|x r Hx _ IH]; simpl; [reflexivity|]. now rewrite Hx, IH.
Qed.

Lemma Forall_flat_map_elim {A B} (P : A -> Prop) (Q : B -> Prop) (g : A -> list B)
    (l : list A) :
  Forall P l -> (forall x, In x l -> P x -> Forall Q (g x)) -> Forall Q (flat_map g l).
Proof.
  induction 1 as [|x r Hx _ IH]; intros Hg; simpl; [constructor|].
  apply Forall_app. split.
  - apply Hg; [now left|exact Hx].
  - apply IH. intros y Hy. apply Hg. now right.
Qed.

(** ** toggleNodeCollapsed *)

Module ToggleFacts.
Import TreeNode TreeBuilder.

Lemma toggleNode_twice nodeId node : toggleNode nodeId (toggleNode nodeId node) = node.
Proof.
  induction node as [i n ty v col lv ch ind pp|i n ty l v col lv ch ind pp IH]
    using TreeNode_ind; simpl.
  - destruct (String.eqb i nodeId) eqn:E; simpl; rewrite E; [|reflexivity].
    now rewrite negb_involutive.
  - destruct (String.eqb i nodeId) eqn:E; simpl; rewrite E.
    + now rewrite negb_involutive.
    + rewrite map_map. f_equal. f_equal. now apply map_fixed.
Qed.

Lemma toggleNode_absent nodeId node :
  ~ In nodeId (map TreeNode.id (subtree node)) -> toggleNode nodeId node = node.
Proof.
  induction node as [i n ty v col lv ch ind pp|i n ty l v col lv ch ind pp IH]
    using TreeNode_ind; simpl; intros Hno.
  - destruct (String.eqb_spec i nodeId) as [->|_]; [|reflexivity].
    exfalso. apply Hno. now left.
  - destruct (String.eqb_spec i nodeId) as [->|_].
    + exfalso. apply Hno. now left.
    + f_equal. f_equal. apply map_fixed.
      rewrite List.Forall_forall in IH |- *. intros x Hx. apply IH; [exact Hx|].
      intros Hin. apply Hno. right.
      rewrite in_map_iff in Hin |- *. destruct Hin as (y & Hy & Hin).
      exists y. split; [exact Hy|]. apply in_flat_map. exists x. split; assumption.
Qed.

End ToggleFacts.

(** C8. Toggling the same id twice gives back the forest, whatever the forest
    and the id; and toggling an id that no node of the forest has leaves the
    forest as it is. *)
Theorem toggleNodeCollapsed_involution (forest : Forest) (nodeId : string) :
  TreeBuilder.toggleNodeCollapsed (TreeBuilder.toggleNodeCollapsed forest nodeId) nodeId
  = forest
  /\ (~ In nodeId (map TreeNode.id (TreeBuilder.nodesOf forest)) ->
      TreeBuilder.toggleNodeCollapsed forest nodeId = forest).
Proof.
  unfold TreeBuilder.toggleNodeCollapsed. split.
  - rewrite map_map. apply map_fixed, List.Forall_forall. intros x _.
    apply ToggleFacts.toggleNode_twice.
  - intros Hno. apply map_fixed, List.Forall_forall. intros x Hx.
    apply ToggleFacts.toggleNode_absent. intros Hin. apply Hno.
    unfold TreeBuilder.nodesOf.
    rewrite in_map_iff in Hin |- *. destruct Hin as (y & Hy & Hin).
    exists y. split; [exact Hy|]. apply in_flat_map. exists x. split; assumption.
Qed.

(** ** filterTree *)

Module FilterFacts.
Import TreeNode TreeBuilder.

Lemma trimStart_blank s : blank s = true -> Js.trimStart s = EmptyString.
Proof.
  induction s as [|c r IH]; simpl; [reflexivity|].
  intros H. apply andb_prop in H as [Hc Hr]. rewrite Hc. now apply IH.
Qed.

Lemma trimStart_head s :
  Js.trimStart s = EmptyString
  \/ exists c r, Js.trimStart s = String c r /\ Js.isWhiteSpace c = false.
Proof.
  induction s as [|c r IH]; simpl; [now left|].
  destruct (Js.isWhiteSpace c) eqn:E; [exact IH|].
  right. now exists c, r.
Qed.

Lemma trimEnd_head c r : Js.isWhiteSpace c = false -> Js.trimEnd (String c r) <> EmptyString.
Proof.
  intros E. simpl. rewrite E. destruct (Js.trimEnd r); discriminate.
Qed.

Lemma trimStart_empty_blank s : Js.trimStart s = EmptyString -> blank s = true.
Proof.
  induction s as [|c r IH]; simpl; [reflexivity|].
  destruct (Js.isWhiteSpace c); [exact IH|discriminate].
Qed.

(** [!query.trim()] holds exactly for the strings of white space only. *)
Lemma trim_falsy_iff_blank s : Js.truthy (Js.trim s) = false <-> blank s = true.
Proof.
  unfold Js.trim. split.
  - intros H. apply trimStart_empty_blank.
    destruct (trimStart_head s) as [E|(c & r & E & Hc)]; [exact E|].
    rewrite E in H. pose proof (trimEnd_head c r Hc) as Hne.
    destruct (Js.trimEnd (String c r)); [congruence|discriminate].
  - intros H. now rewrite (trimStart_blank s H).
Qed.

Lemma mapFilter_In {A B} (f : A -> option B) (l : list A) (y : B) :
  In y (mapFilter f l) -> exists x, In x l /\ f x = Some y.
Proof.
  induction l as [|x r IH]; simpl; [tauto|].
  destruct (f x) as [z|] eqn:E.
  - intros [<-|H].
    + exists x. split; [now left|exact E].
    + destruct (IH H) as (x' & Hx' & E'). exists x'. split; [now right|exact E'].
  - intros H. destruct (IH H) as (x' & Hx' & E'). exists x'. split; [now right|exact E'].
Qed.

Lemma mapFilter_fixed {A} (f : A -> option A) (l : list A) :
  Forall (fun x => f x = Some x) l -> mapFilter f l = l.
Proof.
  induction 1 as [|x r Hx _ IH]; simpl; [reflexivity|]. now rewrite Hx, IH.
Qed.

(** A node that [matchNode] returns is returned unchanged when matched again. *)
Lemma matchNode_kept lowerQuery node :
  forall kept, matchNode lowerQuery node = Some kept -> matchNode lowerQuery kept = Some kept.
Proof.
  induction node as [i n ty v col lv ch ind pp|i n ty l v col lv ch ind pp IH]
    using TreeNode_ind; intros kept; simpl.
  - destruct ty.
    + simpl. destruct (Js.includes (Js.toLowerCase i) lowerQuery) eqn:E; [|discriminate].
      intros [= <-]. simpl. now rewrite E.
    + destruct (Js.includes (Js.toLowerCase i) lowerQuery) eqn:E; [|discriminate].
      intros [= <-]. simpl. now rewrite E.
  - destruct ty.
    + set (kids := mapFilter (matchNode lowerQuery) l).
      assert (Hkids : mapFilter (matchNode lowerQuery) kids = kids).
      { apply mapFilter_fixed, List.Forall_forall. intros y Hy.
        apply mapFilter_In in Hy as (x & Hx & E).
        rewrite List.Forall_forall in IH. exact (IH x Hx y E). }
      destruct ((0 <? length kids)%nat || Js.includes (Js.toLowerCase i) lowerQuery) eqn:E;
        [|discriminate].
      intros [= <-]. simpl. fold kids. rewrite Hkids, E. reflexivity.
    + destruct (Js.includes (Js.toLowerCase i) lowerQuery) eqn:E; [|discriminate].
      intros [= <-]. simpl. now rewrite E.
Qed.

Lemma mapFilter_matchNode_idempotent lowerQuery (forest : Forest) :
  mapFilter (matchNode lowerQuery) (mapFilter (matchNode lowerQuery) forest)
  = mapFilter (matchNode lowerQuery) forest.
Proof.
  apply mapFilter_fixed, List.Forall_forall. intros y Hy.
  apply mapFilter_In in Hy as (x & _ & E). exact (matchNode_kept lowerQuery x y E).
Qed.

End FilterFacts.

Module HeapFacts.
Import TreeHeap.
Local Open Scope list_scope.

Lemma all_Forall2 (h : Heap) (ts : Forest) (ls : list nat) :
  (fix all (ts : Forest) (ls : list nat) : Prop :=
     match ts, ls with
     | [], [] => True
     | t' :: ts', l' :: ls' => reads h t' l' /\ all ts' ls'
     | _, _ => False
     end) ts ls
  <-> Forall2 (reads h) ts ls.
Proof.
  revert ls. induction ts as [|t ts IH]; intros [|l ls].
  - split; [constructor|trivial].
  - split; [intros []|intros H; inversion H].
  - split; [intros []|intros H; inversion H].
  - split.
    + intros [H1 H2]. constructor; [exact H1|]. apply IH. exact H2.
    + intros H. inversion H; subst. split; [assumption|]. apply IH. assumption.
Qed.

Lemma reads_unfold (h : Heap) i n ty cs v col lv ch ind pp l :
  reads h (TreeNode.make i n ty cs v col lv ch ind pp) l
  <-> exists o,
        h !! l = Some o
        /\ own o = TreeNode.make i n ty None v col lv ch ind pp
        /\ match cs, refs o with
           | None, None => True
           | Some ts, Some ls => Forall2 (reads h) ts ls
           | _, _ => False
           end.
Proof.
  simpl. split; intros (o & Hl & Ho & Hc); exists o; (split; [exact Hl|]);
    (split; [exact Ho|]); destruct cs as [ts|], (refs o) as [ls|]; try exact Hc;
    now apply all_Forall2.
Qed.

(** What a reference reads stays what it is when the heap grows. *)
Lemma reads_extend (new : Heap) t :
  forall (h : Heap) l, reads h t l -> reads (h ++ new) t l.
Proof.
  induction t as [i n ty v col lv ch ind pp|i n ty ts v col lv ch ind pp IH]
    using TreeNode_ind; intros h l; rewrite !reads_unfold;
    intros (o & Hl & Ho & Hc); exists o;
    (split; [now apply lookup_app_l_Some|]); (split; [exact Ho|]).
  - exact Hc.
  - destruct (refs o) as [ls|]; [|exact Hc].
    revert ls Hc. induction IH as [|t ts Ht _ IHts]; intros ls Hc;
      inversion Hc; subst; constructor; auto.
Qed.

Lemma reads_all_extend (new : Heap) (h : Heap) ts ls :
  Forall2 (reads h) ts ls -> Forall2 (reads (h ++ new)) ts ls.
Proof.
  induction 1; constructor; [now apply reads_extend|assumption].
Qed.

Lemma mapFilter_sound fuel lowerQuery (ts : Forest) :
  Forall (sound fuel lowerQuery) ts ->
  forall (h : Heap) ls,
    Forall2 (reads h) ts ls ->
    exists h' rs,
      mapFilter (matchNode fuel lowerQuery) h ls = Some (h', rs)
      /\ (exists new, h' = (h ++ new)%list)
      /\ Forall2 (reads h') (TreeBuilder.mapFilter (TreeBuilder.matchNode lowerQuery) ts) rs.
Proof.
  induction 1 as [|t ts Ht _ IH]; intros h ls Hreads; inversion Hreads as [|? l ? ls' Hl Hls];
    subst; simpl.
  - exists h, []. split; [reflexivity|]. split; [exists []; now rewrite app_nil_r|constructor].
  - destruct (Ht h l Hl) as (h1 & r & -> & (new1 & ->) & Hr).
    destruct (IH (h ++ new1)%list ls' (reads_all_extend new1 h ts ls' Hls))
      as (h2 & rs & -> & (new2 & ->) & Hrs).
    eexists. eexists. split; [reflexivity|].
    split; [exists (new1 ++ new2)%list; now rewrite app_assoc|].
    unfold agree in Hr.
    destruct (TreeBuilder.matchNode lowerQuery t) as [t'|], r as [l'|]; try contradiction.
    + constructor; [now apply reads_extend|exact Hrs].
    + exact Hrs.
Qed.

Lemma height_child t ts c fuel :
  TreeNode.children t = Some ts -> In c ts -> height t <= S fuel -> height c <= fuel.
Proof.
  intros Hc Hin Hh. destruct t as [i n ty cs v col lv ch ind pp]. simpl in *. subst cs.
  assert (Hmax : Forall (fun k => k <= list_max (map height ts)) (map height ts)).
  { apply list_max_le. lia. }
  rewrite List.Forall_forall in Hmax. specialize (Hmax (height c) (in_map height ts c Hin)).
  lia.
Qed.

(** [matchNode] on the heap returns, only adds objects to the heap, and
    returns a reference to what [matchNode] on contents returns. *)
Lemma matchNode_sound lowerQuery t :
  forall fuel, height t <= fuel -> sound fuel lowerQuery t.
Proof.
  induction t as [i n ty v col lv ch ind pp|i n ty ts v col lv ch ind pp IH]
    using TreeNode_ind; intros [|fuel] Hfuel; try (simpl in Hfuel; lia);
    intros h l Hreads; pose proof Hreads as Hreads0;
    apply reads_unfold in Hreads as (o & Hl & Ho & Hc); simpl; rewrite Hl, Ho; simpl.
  - destruct (refs o) as [ls|] eqn:Er; [contradiction|].
    destruct ty; simpl.
    + destruct (Js.includes (Js.toLowerCase i) lowerQuery).
      * eexists. eexists. split; [reflexivity|]. split; [eexists; reflexivity|].
        cbv [agree]. apply reads_unfold. eexists. split; [apply list_lookup_middle; reflexivity|].
        split; [reflexivity|]. simpl. constructor.
      * eexists. eexists. split; [reflexivity|]. split; [exists []; now rewrite app_nil_r|].
        exact I.
    + destruct (Js.includes (Js.toLowerCase i) lowerQuery).
      * eexists. eexists. split; [reflexivity|]. split; [exists [o]; reflexivity|].
        cbv [agree]. apply reads_unfold. exists o.
        split; [apply list_lookup_middle; reflexivity|]. split; [exact Ho|]. now rewrite Er.
      * eexists. eexists. split; [reflexivity|]. split; [exists []; now rewrite app_nil_r|].
        exact I.
  - destruct (refs o) as [ls|] eqn:Er; [|contradiction].
    destruct ty; simpl.
    + assert (Hkids : Forall (sound fuel lowerQuery) ts).
      { rewrite List.Forall_forall in IH |- *. intros c Hc'. apply IH; [exact Hc'|].
        apply (fun E => height_child _ ts c fuel E Hc' Hfuel). reflexivity. }
      destruct (mapFilter_sound fuel lowerQuery ts Hkids h ls Hc)
        as (h1 & rs & -> & (new & ->) & Hrs).
      pose proof (Forall2_length _ _ _ Hrs) as Hlen.
      fold (TreeBuilder.mapFilter (TreeBuilder.matchNode lowerQuery) ts) in Hlen |- *.
      rewrite <- Hlen.
      destruct ((0 <? _)%nat || _).
      * eexists. eexists. split; [reflexivity|].
        split; [eexists; symmetry; apply app_assoc|].
        cbv [agree]. apply reads_unfold. eexists.
        split; [apply list_lookup_middle; reflexivity|]. split; [reflexivity|]. simpl.
        now apply reads_all_extend.
      * eexists. eexists. split; [reflexivity|]. split; [now exists new|]. exact I.
    + destruct (Js.includes (Js.toLowerCase i) lowerQuery).
      * eexists. eexists. split; [reflexivity|]. split; [exists [o]; reflexivity|].
        cbv [agree]. apply reads_unfold. exists o.
        split; [apply list_lookup_middle; reflexivity|]. split; [exact Ho|]. rewrite Er.
        now apply reads_all_extend.
      * eexists. eexists. split; [reflexivity|]. split; [exists []; now rewrite app_nil_r|].
        exact I.
Qed.

Lemma filterTree_sound (forest : Forest) (query : string) fuel (h : Heap) roots :
  Forall (fun t => height t <= fuel) forest ->
  Forall2 (reads h) forest roots ->
  exists new roots',
    filterTree fuel h roots query = Some (h ++ new, roots')
    /\ Forall2 (reads (h ++ new)) (TreeBuilder.filterTree forest query) roots'
    /\ (TreeBuilder.blank query = true -> new = [] /\ roots' = roots).
Proof.
  intros Hfuel Hreads. unfold filterTree, TreeBuilder.filterTree.
  destruct (Js.truthy (Js.trim query)) eqn:E; simpl.
  - assert (Hsound : Forall (sound fuel (Js.toLowerCase query)) forest).
    { rewrite List.Forall_forall in Hfuel |- *. intros t Ht.
      apply matchNode_sound. now apply Hfuel. }
    destruct (mapFilter_sound fuel _ forest Hsound h roots Hreads)
      as (h' & rs & -> & (new & ->) & Hrs).
    exists new, rs. split; [reflexivity|]. split; [exact Hrs|].
    intros Hb. apply FilterFacts.trim_falsy_iff_blank in Hb. congruence.
  - exists [], roots. rewrite app_nil_r. split; [reflexivity|]. split; [exact Hreads|].
    intros _. now split.
Qed.

End HeapFacts.

(** C7. A query of white space only (the empty query included) gives back the
    forest it was given, and filtering the result again with the same query
    changes nothing. On the heap, where the forest is given by references to
    node objects, the call returns (with enough fuel for the depth of the
    forest), it only adds objects to the heap, so no object of the input
    is written to, and it returns references to the forest that [filterTree]
    on contents returns; for a query of white space only it adds nothing and
    returns the very references it was given. *)
Theorem filterTree_blank_and_idempotent (forest : Forest) (query : string) :
  (TreeBuilder.blank query = true -> TreeBuilder.filterTree forest query = forest)
  /\ TreeBuilder.filterTree (TreeBuilder.filterTree forest query) query
     = TreeBuilder.filterTree forest query
  /\ (forall fuel (h : TreeHeap.Heap) roots,
        Forall (fun t => TreeHeap.height t <= fuel) forest ->
        Forall2 (TreeHeap.reads h) forest roots ->
        exists new roots',
          TreeHeap.filterTree fuel h roots query = Some ((h ++ new)%list, roots')
          /\ Forall2 (TreeHeap.reads (h ++ new)%list)
               (TreeBuilder.filterTree forest query) roots'
          /\ (TreeBuilder.blank query = true -> new = [] /\ roots' = roots)).
Proof.
  split; [|split].
  - unfold TreeBuilder.filterTree.
    intros Hb. apply FilterFacts.trim_falsy_iff_blank in Hb. now rewrite Hb.
  - unfold TreeBuilder.filterTree.
    destruct (Js.truthy (Js.trim query)); simpl; [|reflexivity].
    apply FilterFacts.mapFilter_matchNode_idempotent.
  - intros fuel h roots. apply HeapFacts.filterTree_sound.
Qed.

(** ** updateNodeChecked *)

Module CheckedFacts.
Import TreeNode TreeBuilder.

Lemma forallb_flat_map {A B} (p : B -> bool) (g : A -> list B) (l : list A) :
  forallb p (flat_map g l) = forallb (fun x => forallb p (g x)) l.
Proof.
  induction l as [|x r IH]; simpl; [reflexivity|]. now rewrite forallb_app, IH.
Qed.

Lemma existsb_flat_map {A B} (p : B -> bool) (g : A -> list B) (l : list A) :
  existsb p (flat_map g l) = existsb (fun x => existsb p (g x)) l.
Proof.
  induction l as [|x r IH]; simpl; [reflexivity|]. now rewrite existsb_app, IH.
Qed.

Lemma forallb_ext_in {A} (p q : A -> bool) (l : list A) :
  (forall x, In x l -> p x = q x) -> forallb p l = forallb q l.
Proof.
  induction l as [|x r IH]; simpl; intros H; [reflexivity|].
  rewrite (H x) by now left. f_equal. apply IH. intros y Hy. apply H. now right.
Qed.

Lemma existsb_ext_in {A} (p q : A -> bool) (l : list A) :
  (forall x, In x l -> p x = q x) -> existsb p l = existsb q l.
Proof.
  induction l as [|x r IH]; simpl; intros H; [reflexivity|].
  rewrite (H x) by now left. f_equal. apply IH. intros y Hy. apply H. now right.
Qed.

Lemma count_le {A} (p : A -> bool) (l : list A) : length (List.filter p l) <= length l.
Proof. induction l as [|x r IH]; simpl; [lia|]. destruct (p x); simpl; lia. Qed.

(** [checkedCount === length] says that every child is checked. *)
Lemma count_all {A} (p : A -> bool) (l : list A) :
  (length (List.filter p l) =? length l)%nat = forallb p l.
Proof.
  induction l as [|x r IH]; simpl; [reflexivity|].
  pose proof (count_le p r) as Hle.
  destruct (p x); simpl.
  - exact IH.
  - apply Nat.eqb_neq. lia.
Qed.

Lemma count_some {A} (p : A -> bool) (l : list A) :
  (0 <? length (List.filter p l))%nat = existsb p l.
Proof.
  induction l as [|x r IH]; simpl; [reflexivity|]. destruct (p x); simpl; [reflexivity|exact IH].
Qed.

Lemma count_not_all {A} (p : A -> bool) (l : list A) :
  (length (List.filter p l) <? length l)%nat = negb (forallb p l).
Proof.
  rewrite <- count_all. pose proof (count_le p l) as Hle.
  destruct (Nat.eqb_spec (length (List.filter p l)) (length l)) as [E|E]; simpl.
  - apply Nat.ltb_ge. lia.
  - apply Nat.ltb_lt. lia.
Qed.

(** What a parent recomputes from its children agrees with what the leaves
    below say, as soon as every child reports its own leaves faithfully and
    has a leaf. *)
Lemma recompute_from_children (l : Forest) :
  (forall c, In c l ->
     TreeNode.checked c = allChecked (leavesOf c)
     /\ TreeNode.indeterminate c
        = someChecked (leavesOf c) && negb (allChecked (leavesOf c))
     /\ leavesOf c <> []) ->
  (checkedCount l =? length l)%nat = allChecked (flat_map leavesOf l)
  /\ (((0 <? checkedCount l) && (checkedCount l <? length l)) || (0 <? indeterminateCount l))%nat
     = someChecked (flat_map leavesOf l) && negb (allChecked (flat_map leavesOf l)).
Proof.
  intros H. unfold checkedCount, indeterminateCount, allChecked, someChecked in *.
  rewrite count_all, count_some, count_not_all, count_some.
  rewrite forallb_flat_map, existsb_flat_map.
  assert (Hall : forallb (fun x => forallb TreeNode.checked (leavesOf x)) l
                 = forallb TreeNode.checked l).
  { apply forallb_ext_in. intros c Hc. now destruct (H c Hc) as (-> & _). }
  assert (Hsome : existsb (fun x => existsb TreeNode.checked (leavesOf x)) l
                  = existsb (fun c => TreeNode.checked c || TreeNode.indeterminate c) l).
  { apply existsb_ext_in. intros c Hc. destruct (H c Hc) as (-> & -> & Hne).
    destruct (leavesOf c) as [|x r]; [congruence|]. simpl.
    destruct (TreeNode.checked x), (existsb TreeNode.checked r),
      (forallb TreeNode.checked r); reflexivity. }
  rewrite Hall, Hsome. split; [reflexivity|].
  assert (Hind : forall c, In c l -> TreeNode.indeterminate c = true ->
                           TreeNode.checked c = false).
  { intros c Hc Hi. destruct (H c Hc) as (Hch & Hin & _). rewrite Hi in Hin.
    rewrite Hch. symmetry in Hin. apply andb_prop in Hin as [_ Hn].
    now apply negb_true_iff in Hn. }
  assert (Hor : existsb (fun c => TreeNode.checked c || TreeNode.indeterminate c) l
                = existsb TreeNode.checked l || existsb TreeNode.indeterminate l).
  { clear. induction l as [|c r IH]; simpl; [reflexivity|]. rewrite IH.
    destruct (TreeNode.checked c), (TreeNode.indeterminate c),
      (existsb TreeNode.checked r); reflexivity. }
  assert (Hno : existsb TreeNode.indeterminate l = true -> forallb TreeNode.checked l = false).
  { intros Hex. apply existsb_exists in Hex as (c & Hc & Hi).
    destruct (forallb TreeNode.checked l) eqn:Ea; [|reflexivity].
    rewrite forallb_forall in Ea.
    pose proof (Ea c Hc) as E1. pose proof (Hind c Hc Hi) as E2. congruence. }
  rewrite Hor.
  destruct (existsb TreeNode.checked l), (existsb TreeNode.indeterminate l),
    (forallb TreeNode.checked l); simpl; try reflexivity.
  specialize (Hno eq_refl). discriminate.
  specialize (Hno eq_refl). discriminate.
Qed.

Lemma subtree_self node : In node (subtree node).
Proof. destruct node; now left. Qed.

Lemma subtree_child node l c :
  TreeNode.children node = Some l -> In c l -> forall m, In m (subtree c) -> In m (subtree node).
Proof.
  intros Hl Hc m Hm. destruct node as [i n ty cs v col lv ch ind pp]. simpl in *. subst cs.
  right. apply in_flat_map. exists c. now split.
Qed.

Lemma subtree_trans node :
  forall m d, In m (subtree node) -> In d (subtree m) -> In d (subtree node).
Proof.
  induction node as [i n ty v col lv ch ind pp|i n ty l v col lv ch ind pp IH]
    using TreeNode_ind; intros m d Hm Hd; simpl in Hm.
  - destruct Hm as [<-|[]]. exact Hd.
  - destruct Hm as [<-|Hm]; [exact Hd|].
    apply in_flat_map in Hm as (c & Hc & Hm). simpl. right.
    apply in_flat_map. exists c. split; [exact Hc|].
    rewrite List.Forall_forall in IH. exact (IH c Hc m d Hm Hd).
Qed.

Lemma leavesOf_subtree node : forall d, In d (leavesOf node) -> In d (subtree node).
Proof.
  induction node as [i n ty v col lv ch ind pp|i n ty l v col lv ch ind pp IH]
    using TreeNode_ind; intros d Hd; simpl in Hd |- *.
  - rewrite app_nil_r in Hd. destruct (TreeNode.isVariable _); [|destruct Hd].
    destruct Hd as [<-|[]]. now left.
  - apply in_app_or in Hd as [Hd|Hd].
    + destruct (TreeNode.isVariable _); [|destruct Hd]. destruct Hd as [<-|[]]. now left.
    + right. apply in_flat_map in Hd as (c & Hc & Hd). apply in_flat_map. exists c.
      split; [exact Hc|]. rewrite List.Forall_forall in IH. exact (IH c Hc d Hd).
Qed.

Lemma good_child node l c :
  TreeNode.children node = Some l -> In c l -> good node -> good c.
Proof.
  intros Hl Hc Hg m Hm. apply Hg. exact (subtree_child node l c Hl Hc m Hm).
Qed.

(** A well-shaped node has a leaf in its subtree. *)
Lemma leaves_nonempty node :
  (forall m, In m (subtree node) -> shapeAt m = true) -> leavesOf node <> [].
Proof.
  induction node as [i n ty v col lv ch ind pp|i n ty l v col lv ch ind pp IH]
    using TreeNode_ind; intros Hs.
  - pose proof (Hs _ (subtree_self _)) as H. unfold shapeAt in H. simpl in H.
    destruct ty; [discriminate|]. discriminate.
  - pose proof (Hs _ (subtree_self _)) as H. unfold shapeAt in H. simpl in H.
    destruct ty; [|discriminate]. destruct l as [|c r]; [discriminate|].
    simpl. inversion IH as [|? ? Hc _]; subst.
    intros E. apply app_eq_nil in E as [E _]. revert E. apply Hc.
    intros m Hm. apply Hs. simpl. right. apply in_or_app. now left.
Qed.

(** A good node reports its own leaves faithfully. *)
Lemma good_summary node :
  good node ->
  TreeNode.checked node = allChecked (leavesOf node)
  /\ TreeNode.indeterminate node
     = someChecked (leavesOf node) && negb (allChecked (leavesOf node))
  /\ leavesOf node <> [].
Proof.
  intros Hg. split; [|split].
  3: { apply leaves_nonempty. intros m Hm. now apply Hg. }
  all: destruct (Hg _ (subtree_self node)) as (Hs & Hd & Ht);
    destruct node as [i n ty cs v col lv ch ind pp];
    unfold shapeAt, detAt, triStateAt, descendantLeaves, TreeNode.isVariable in *;
    simpl in *; destruct ty, cs as [[|c r]|]; try discriminate; simpl in *.
  - apply andb_prop in Ht as [Ht _]. now apply Bool.eqb_prop in Ht.
  - unfold allChecked. simpl. now rewrite andb_true_r.
  - apply andb_prop in Ht as [_ Ht]. now apply Bool.eqb_prop in Ht.
  - apply negb_true_iff in Hd. subst ind. unfold someChecked, allChecked. simpl.
    destruct ch; reflexivity.
Qed.

(** *** The set-all of [updateAllChildren] *)

Lemma updateAll_uniform value node :
  forall m, In m (subtree (updateAllChildrenNode value node)) -> uniformAt value m.
Proof.
  induction node as [i n ty v col lv ch ind pp|i n ty l v col lv ch ind pp IH]
    using TreeNode_ind; intros m Hm; simpl in Hm.
  - destruct Hm as [<-|[]]. now split.
  - destruct Hm as [<-|Hm]; [now split|].
    apply in_flat_map in Hm as (c' & Hc' & Hm). apply in_map_iff in Hc' as (c & <- & Hc).
    rewrite List.Forall_forall in IH. exact (IH c Hc m Hm).
Qed.

Lemma updateAll_shape value node :
  (forall m, In m (subtree node) -> shapeAt m = true) ->
  forall m, In m (subtree (updateAllChildrenNode value node)) -> shapeAt m = true.
Proof.
  induction node as [i n ty v col lv ch ind pp|i n ty l v col lv ch ind pp IH]
    using TreeNode_ind; intros Hs m Hm; simpl in Hm.
  - destruct Hm as [<-|[]]. exact (Hs _ (subtree_self _)).
  - destruct Hm as [<-|Hm].
    + pose proof (Hs _ (subtree_self _)) as H. unfold shapeAt in *. simpl in *.
      destruct ty, l; try discriminate; reflexivity.
    + apply in_flat_map in Hm as (c' & Hc' & Hm). apply in_map_iff in Hc' as (c & <- & Hc).
      rewrite List.Forall_forall in IH. apply (IH c Hc); [|exact Hm].
      intros d Hd. apply Hs. simpl. right. apply in_flat_map. now exists c.
Qed.

(** A well-shaped subtree whose nodes all carry the same [checked] and no
    [indeterminate] satisfies the invariant. *)
Lemma uniform_good value node :
  (forall m, In m (subtree node) -> shapeAt m = true) ->
  (forall m, In m (subtree node) -> uniformAt value m) ->
  good node.
Proof.
  intros Hs Hu m Hm. split; [now apply Hs|]. destruct (Hu m Hm) as [Hch Hind].
  split.
  - unfold detAt. rewrite Hind. now rewrite andb_false_r.
  - unfold triStateAt. destruct (TreeNode.type m) eqn:Ety; [|reflexivity].
    assert (Hleaves : forall d, In d (descendantLeaves m) -> TreeNode.checked d = value).
    { intros d Hd. apply Hu. apply (subtree_trans node m d Hm).
      unfold descendantLeaves in Hd. destruct (TreeNode.children m) as [l|] eqn:El;
        [|destruct Hd].
      apply in_flat_map in Hd as (c & Hc & Hd).
      apply (subtree_child m l c El Hc). now apply leavesOf_subtree. }
    assert (Hne : descendantLeaves m <> []).
    { pose proof (Hs m Hm) as Hsm. unfold shapeAt in Hsm. rewrite Ety in Hsm.
      unfold descendantLeaves. destruct (TreeNode.children m) as [[|c r]|] eqn:El;
        try discriminate.
      simpl. intros E. apply app_eq_nil in E as [E _]. revert E. apply leaves_nonempty.
      intros d Hd. apply Hs. apply (subtree_trans node m d Hm).
      apply (subtree_child m (c :: r) c El); [now left|exact Hd]. }
    rewrite Hch, Hind. unfold allChecked, someChecked.
    destruct (descendantLeaves m) as [|x r]; [congruence|]. clear Hne.
    assert (Hall : forallb TreeNode.checked (x :: r) = value).
    { destruct value.
      - apply forallb_forall. intros d Hd. now apply Hleaves.
      - simpl. rewrite (Hleaves x) by now left. reflexivity. }
    assert (Hsome : existsb TreeNode.checked (x :: r) = value).
    { destruct value.
      - simpl. rewrite (Hleaves x) by now left. reflexivity.
      - destruct (existsb TreeNode.checked (x :: r)) eqn:E; [|reflexivity].
        apply existsb_exists in E as (d & Hd & Ed). rewrite (Hleaves d Hd) in Ed.
        discriminate. }
    rewrite Hall, Hsome. now destruct value.
Qed.

Lemma updateNodeChecked_target nodeId value node :
  String.eqb (TreeNode.id node) nodeId = true ->
  updateNodeCheckedNode nodeId value node = updateAllChildrenNode value node.
Proof.
  destruct node as [i n ty cs v col lv ch ind pp]. simpl. intros ->. reflexivity.
Qed.

(** The invariant, the shape and the leaves' marks survive one update. *)
Lemma updateNodeChecked_good nodeId value node :
  good node -> good (updateNodeCheckedNode nodeId value node).
Proof.
  induction node as [i n ty v col lv ch ind pp|i n ty l v col lv ch ind pp IH]
    using TreeNode_ind; intros Hg.
  - destruct (String.eqb i nodeId) eqn:E.
    + rewrite updateNodeChecked_target by exact E.
      apply (uniform_good value); [|apply updateAll_uniform].
      apply updateAll_shape. intros m Hm. now apply Hg.
    + simpl. rewrite E. exact Hg.
  - destruct (String.eqb i nodeId) eqn:E.
    + rewrite updateNodeChecked_target by exact E.
      apply (uniform_good value); [|apply updateAll_uniform].
      apply updateAll_shape. intros m Hm. now apply Hg.
    + simpl. rewrite E.
      set (kids := map (updateNodeCheckedNode nodeId value) l).
      assert (Hkids : forall c, In c kids -> good c).
      { intros c' Hc'. apply in_map_iff in Hc' as (c & <- & Hc).
        rewrite List.Forall_forall in IH. apply (IH c Hc).
        eapply good_child; [|exact Hc|exact Hg]. reflexivity. }
      destruct (Hg _ (subtree_self _)) as (Hs & Hd & _).
      unfold shapeAt, detAt, TreeNode.isVariable in Hs, Hd. simpl in Hs, Hd.
      destruct ty; [|discriminate].
      intros m Hm. simpl in Hm. destruct Hm as [<-|Hm].
      * split; [|split].
        -- unfold shapeAt. simpl. subst kids. destruct l; [discriminate|reflexivity].
        -- reflexivity.
        -- unfold triStateAt, descendantLeaves. simpl.
           destruct (recompute_from_children kids) as [Hc Hi].
           { intros c Hc. exact (good_summary c (Hkids c Hc)). }
           rewrite Hc, Hi. now rewrite !Bool.eqb_reflx.
      * apply in_flat_map in Hm as (c & Hc & Hm). exact (Hkids c Hc m Hm).
Qed.

(** Below a node that has the target id, every node of the result holds the
    value that was given. *)
Lemma updateNodeChecked_sets nodeId value node :
  forall m, In m (subtree (updateNodeCheckedNode nodeId value node)) ->
    TreeNode.id m = nodeId ->
    forall d, In d (subtree m) -> uniformAt value d.
Proof.
  induction node as [i n ty v col lv ch ind pp|i n ty l v col lv ch ind pp IH]
    using TreeNode_ind; intros m Hm Hid d Hd.
  - destruct (String.eqb i nodeId) eqn:E.
    + rewrite updateNodeChecked_target in Hm by exact E.
      eapply updateAll_uniform. eapply subtree_trans; [exact Hm|exact Hd].
    + simpl in Hm. rewrite E in Hm. simpl in Hm. destruct Hm as [<-|[]].
      simpl in Hid. subst i. now rewrite String.eqb_refl in E.
  - destruct (String.eqb i nodeId) eqn:E.
    + rewrite updateNodeChecked_target in Hm by exact E.
      eapply updateAll_uniform. eapply subtree_trans; [exact Hm|exact Hd].
    + simpl in Hm. rewrite E in Hm. simpl in Hm. destruct Hm as [<-|Hm].
      * simpl in Hid. subst i. now rewrite String.eqb_refl in E.
      * apply in_flat_map in Hm as (c' & Hc' & Hm).
        apply in_map_iff in Hc' as (c & <- & Hc).
        rewrite List.Forall_forall in IH. exact (IH c Hc m Hm Hid d Hd).
Qed.

Lemma good_forest (forest : Forest) :
  (wellShaped forest = true /\ leavesDeterminate forest = true /\ triState forest = true)
  <-> (forall node, In node forest -> good node).
Proof.
  unfold wellShaped, leavesDeterminate, triState, nodesOf, good.
  rewrite !forallb_forall. split.
  - intros (Hs & Hd & Ht) node Hn m Hm.
    assert (Hin : In m (flat_map subtree forest)) by (apply in_flat_map; now exists node).
    auto.
  - intros H. repeat split; intros m Hm; apply in_flat_map in Hm as (node & Hn & Hm);
      now destruct (H node Hn m Hm) as (? & ? & ?).
Qed.

End CheckedFacts.

(** C5 (as amended). On a forest in which every group has at least one child,
    every variable is without children and not marked indeterminate, and the
    tri-state invariant holds, [updateNodeChecked] gives a forest with the
    same three properties; and in its result every node that has the target
    id holds the given value with [indeterminate] false, together with all
    the nodes below it. *)
Theorem updateNodeChecked_preserves_triState (forest : Forest) (nodeId : string)
    (value : bool) :
  TreeBuilder.wellShaped forest = true ->
  TreeBuilder.leavesDeterminate forest = true ->
  TreeBuilder.triState forest = true ->
  let result := TreeBuilder.updateNodeChecked forest nodeId value in
  TreeBuilder.triState result = true
  /\ TreeBuilder.wellShaped result = true
  /\ TreeBuilder.leavesDeterminate result = true
  /\ (forall m, In m (TreeBuilder.nodesOf result) -> TreeNode.id m = nodeId ->
       forall d, In d (TreeBuilder.subtree m) ->
         TreeNode.checked d = value /\ TreeNode.indeterminate d = false).
Proof.
  intros Hs Hd Ht result.
  assert (Hgood : forall node, In node result -> TreeBuilder.good node).
  { intros node' Hn. apply in_map_iff in Hn as (node & <- & Hn).
    apply CheckedFacts.updateNodeChecked_good.
    now apply (proj1 (CheckedFacts.good_forest forest)). }
  apply CheckedFacts.good_forest in Hgood as (Hs' & Hd' & Ht').
  split; [exact Ht'|]. split; [exact Hs'|]. split; [exact Hd'|].
  intros m Hm Hid d Hdm. unfold TreeBuilder.nodesOf in Hm.
  apply in_flat_map in Hm as (node' & Hn & Hm).
  apply in_map_iff in Hn as (node & <- & Hn).
  exact (CheckedFacts.updateNodeChecked_sets nodeId value node m Hm Hid d Hdm).
Qed.

(** C5: the hypotheses of the theorem hold for the sample forest, and so
    does its conclusion after checking the group [color/bg]. *)
Lemma updateNodeChecked_preserves_triState_witness :
  TreeBuilder.triState (TreeBuilder.updateNodeChecked Sample.colorForest "color/bg" true) = true.
Proof.
  exact (proj1 (updateNodeChecked_preserves_triState Sample.colorForest "color/bg" true
                  eq_refl eq_refl eq_refl)).
Defined.

(** C5 as it was stated fails on two kinds of forest that satisfy the
    invariant. First, a group without children: [buildTree] of
    treeBuilder.ts makes one for the name [a/b]; after an update of some
    other id it is checked (all of its no leaves are), the invariant holds,
    and unchecking the group itself breaks it. Second, a leaf that is marked
    indeterminate: its parent becomes indeterminate with no leaf checked. *)
Lemma updateNodeChecked_breaks_triState :
  (exists built settled,
      TreeBuilder.buildTree [Sample.variableNamed "v1" "a/b"] = Js.normal built
      /\ settled = TreeBuilder.updateNodeChecked built "zzz" true
      /\ TreeBuilder.triState settled = true
      /\ TreeBuilder.triState (TreeBuilder.updateNodeChecked settled "a" false) = false)
  /\ (TreeBuilder.triState Sample.markedLeafForest = true
      /\ TreeBuilder.triState
           (TreeBuilder.updateNodeChecked Sample.markedLeafForest "zzz" true) = false).
Proof.
  split.
  - eexists. eexists. split; [reflexivity|]. split; [reflexivity|]. split; reflexivity.
  - split; reflexivity.
Qed.

(** ** getCheckedVariableIds, and what filterTree keeps *)

Module SelectionFacts.
Import TreeNode TreeBuilder.

Lemma flat_map_ext_in {A B} (f g : A -> list B) (l : list A) :
  (forall x, In x l -> f x = g x) -> flat_map f l = flat_map g l.
Proof.
  induction l as [|x r IH]; intros H; simpl; [reflexivity|].
  rewrite (H x) by now left. f_equal. apply IH. intros y Hy. apply H. now right.
Qed.

Lemma flat_map_nil {A B} (f : A -> list B) (l : list A) :
  (forall x, In x l -> f x = []) -> flat_map f l = [].
Proof.
  induction l as [|x r IH]; intros H; simpl; [reflexivity|].
  rewrite (H x) by now left. apply IH. intros y Hy. apply H. now right.
Qed.

Lemma flat_map_map {A B C} (f : A -> B) (g : B -> list C) (l : list A) :
  flat_map g (map f l) = flat_map (fun x => g (f x)) l.
Proof. induction l as [|x r IH]; simpl; [reflexivity|]. now rewrite IH. Qed.

(** After the set-all with [true] every variable of the subtree is collected. *)
Lemma traverse_updateAll node :
  traverseNode (updateAllChildrenNode true node) = variableIdsOf node.
Proof.
  induction node as [i n ty v col lv ch ind pp|i n ty l v col lv ch ind pp IH]
    using TreeNode_ind; simpl.
  - reflexivity.
  - f_equal. rewrite flat_map_map.
    apply flat_map_ext_in. intros c Hc. rewrite List.Forall_forall in IH. now apply IH.
Qed.

Lemma traverse_unchecked node :
  (forall m, In m (subtree node) -> TreeNode.checked m = false) ->
  wellShapedNode node ->
  traverseNode node = [].
Proof.
  induction node as [i n ty v col lv ch ind pp|i n ty l v col lv ch ind pp IH]
    using TreeNode_ind; intros Hun Hs.
  - pose proof (Hun _ (CheckedFacts.subtree_self _)) as Hch. simpl in Hch. subst ch.
    simpl. destruct ty, v; reflexivity.
  - pose proof (Hun _ (CheckedFacts.subtree_self _)) as Hch. simpl in Hch. subst ch.
    simpl. replace (flat_map traverseNode l) with (@nil string).
    + destruct ty, v; reflexivity.
    + symmetry. apply flat_map_nil. intros c Hc. rewrite List.Forall_forall in IH.
      apply IH; [exact Hc| |].
      * intros m Hm. apply Hun. simpl. right. apply in_flat_map. now exists c.
      * intros m Hm. apply Hs. simpl. right. apply in_flat_map. now exists c.
Qed.

Lemma traverse_update nodeId node :
  (forall m, In m (subtree node) -> TreeNode.checked m = false) ->
  wellShapedNode node ->
  traverseNode (updateNodeCheckedNode nodeId true node) = idsUnder nodeId node.
Proof.
  induction node as [i n ty v col lv ch ind pp|i n ty l v col lv ch ind pp IH]
    using TreeNode_ind; intros Hun Hs.
  - destruct (String.eqb i nodeId) eqn:E.
    + rewrite CheckedFacts.updateNodeChecked_target by exact E.
      rewrite traverse_updateAll. simpl. now rewrite E.
    + simpl. rewrite E.
      pose proof (Hun _ (CheckedFacts.subtree_self _)) as Hch. simpl in Hch. subst ch.
      destruct ty, v; reflexivity.
  - destruct (String.eqb i nodeId) eqn:E.
    + rewrite CheckedFacts.updateNodeChecked_target by exact E.
      rewrite traverse_updateAll. simpl. now rewrite E.
    + pose proof (Hs _ (CheckedFacts.subtree_self _)) as Hshape.
      unfold shapeAt in Hshape. simpl in Hshape. destruct ty; [|discriminate].
      simpl. rewrite E. simpl.
      rewrite flat_map_map.
      apply flat_map_ext_in. intros c Hc. rewrite List.Forall_forall in IH.
      apply IH; [exact Hc| |].
      * intros m Hm. apply Hun. simpl. right. apply in_flat_map. now exists c.
      * intros m Hm. apply Hs. simpl. right. apply in_flat_map. now exists c.
Qed.

(** *** What [filterTree] keeps *)

Lemma mapFilter_flat_map {A B C} (f : A -> option B) (g : B -> list C) (l : list A) :
  flat_map g (mapFilter f l)
  = flat_map (fun x => match f x with Some y => g y | None => [] end) l.
Proof.
  induction l as [|x r IH]; simpl; [reflexivity|].
  destruct (f x); simpl; now rewrite IH.
Qed.

Lemma filter_flat_map {A B} (p : B -> bool) (g : A -> list B) (l : list A) :
  List.filter p (flat_map g l) = flat_map (fun x => List.filter p (g x)) l.
Proof.
  induction l as [|x r IH]; simpl; [reflexivity|]. now rewrite List.filter_app, IH.
Qed.

(** The leaves below a kept node are the leaves of the node that match. *)
Lemma matchNode_leaves query node :
  wellShapedNode node ->
  match matchNode (Js.toLowerCase query) node with
  | Some kept => leavesOf kept
  | None => []
  end = List.filter (matches query) (leavesOf node).
Proof.
  induction node as [i n ty v col lv ch ind pp|i n ty l v col lv ch ind pp IH]
    using TreeNode_ind; intros Hs;
    pose proof (Hs _ (CheckedFacts.subtree_self _)) as Hshape;
    unfold shapeAt in Hshape; simpl in Hshape; destruct ty; try discriminate.
  - simpl. unfold matches. simpl.
    destruct (Js.includes (Js.toLowerCase i) (Js.toLowerCase query)); reflexivity.
  - assert (Hkids : flat_map leavesOf (mapFilter (matchNode (Js.toLowerCase query)) l)
                    = List.filter (matches query) (flat_map leavesOf l)).
    { rewrite mapFilter_flat_map, filter_flat_map. apply flat_map_ext_in.
      intros c Hc. rewrite List.Forall_forall in IH. apply IH; [exact Hc|].
      intros m Hm. apply Hs. simpl. right. apply in_flat_map. now exists c. }
    simpl. rewrite <- Hkids.
    destruct ((0 <? length (mapFilter (matchNode (Js.toLowerCase query)) l))%nat
              || Js.includes (Js.toLowerCase i) (Js.toLowerCase query)) eqn:E.
    + reflexivity.
    + apply orb_false_iff in E as [E _]. apply Nat.ltb_ge in E.
      destruct (mapFilter (matchNode (Js.toLowerCase query)) l); [reflexivity|].
      simpl in E. lia.
Qed.

(** Every group among the nodes that [matchNode] returns is expanded. *)
Lemma matchNode_expanded lowerQuery node :
  wellShapedNode node ->
  forall kept, matchNode lowerQuery node = Some kept ->
    forall m, In m (subtree kept) -> TreeNode.type m = group -> TreeNode.collapsed m = false.
Proof.
  induction node as [i n ty v col lv ch ind pp|i n ty l v col lv ch ind pp IH]
    using TreeNode_ind; intros Hs kept;
    pose proof (Hs _ (CheckedFacts.subtree_self _)) as Hshape;
    unfold shapeAt in Hshape; simpl in Hshape; destruct ty; try discriminate; simpl.
  - destruct (Js.includes (Js.toLowerCase i) lowerQuery); [|discriminate].
    intros [= <-] m [<-|[]] Hty. discriminate Hty.
  - destruct ((0 <? _)%nat || _); [|discriminate].
    intros [= <-] m [<-|Hm] Hty; [reflexivity|].
    apply in_flat_map in Hm as (c' & Hc' & Hm).
    apply FilterFacts.mapFilter_In in Hc' as (c & Hc & Ec).
    rewrite List.Forall_forall in IH. apply (IH c Hc) with (kept := c') (m := m); auto.
    intros d Hd. apply Hs. simpl. right. apply in_flat_map. now exists c.
Qed.

End SelectionFacts.

(** On a well-shaped forest with nothing checked, checking the id of a group
    and collecting the checked variables gives exactly the variable ids
    under that group, in the order of the traversal. *)
Theorem getCheckedVariableIds_after_check (forest : Forest) (nodeId : string) :
  TreeBuilder.wellShaped forest = true ->
  (forall m, In m (TreeBuilder.nodesOf forest) -> TreeNode.checked m = false) ->
  TreeBuilder.getCheckedVariableIds (TreeBuilder.updateNodeChecked forest nodeId true)
  = flat_map (TreeBuilder.idsUnder nodeId) forest.
Proof.
  intros Hs Hun. unfold TreeBuilder.getCheckedVariableIds, TreeBuilder.updateNodeChecked.
  rewrite SelectionFacts.flat_map_map.
  apply SelectionFacts.flat_map_ext_in. intros node Hn. apply SelectionFacts.traverse_update.
  - intros m Hm. apply Hun. apply in_flat_map. now exists node.
  - intros m Hm. unfold TreeBuilder.wellShaped in Hs. rewrite forallb_forall in Hs.
    apply Hs. apply in_flat_map. now exists node.
Qed.

(** The sample forest with nothing checked: checking [color/bg] selects the
    two variables of that group. *)
Lemma getCheckedVariableIds_after_check_witness :
  TreeBuilder.getCheckedVariableIds
    (TreeBuilder.updateNodeChecked Sample.uncheckedForest "color/bg" true)
  = flat_map (TreeBuilder.idsUnder "color/bg") Sample.uncheckedForest.
Proof.
  apply (getCheckedVariableIds_after_check Sample.uncheckedForest "color/bg" eq_refl).
  simpl. intros m Hm. repeat (destruct Hm as [<-|Hm]; [reflexivity|]). destruct Hm.
Defined.

(** For a query that is not blank and a well-shaped forest, the leaves of
    the filtered forest are the leaves of the forest whose id contains the
    query (letter case apart), in their order, and every group of the
    filtered forest is expanded. *)
Theorem filterTree_keeps_matching_leaves (forest : Forest) (query : string) :
  TreeBuilder.wellShaped forest = true ->
  TreeBuilder.blank query = false ->
  flat_map TreeBuilder.leavesOf (TreeBuilder.filterTree forest query)
  = List.filter (TreeBuilder.matches query) (flat_map TreeBuilder.leavesOf forest)
  /\ forall m, In m (TreeBuilder.nodesOf (TreeBuilder.filterTree forest query)) ->
       TreeNode.type m = TreeNode.group -> TreeNode.collapsed m = false.
Proof.
  intros Hs Hq. unfold TreeBuilder.filterTree.
  assert (Ht : Js.truthy (Js.trim query) = true).
  { destruct (Js.truthy (Js.trim query)) eqn:E; [reflexivity|].
    apply FilterFacts.trim_falsy_iff_blank in E. congruence. }
  rewrite Ht. simpl.
  assert (Hshape : forall node, In node forest -> TreeBuilder.wellShapedNode node).
  { intros node Hn m Hm. unfold TreeBuilder.wellShaped in Hs. rewrite forallb_forall in Hs.
    apply Hs. apply in_flat_map. now exists node. }
  split.
  - rewrite SelectionFacts.mapFilter_flat_map, SelectionFacts.filter_flat_map.
    apply SelectionFacts.flat_map_ext_in. intros node Hn.
    apply SelectionFacts.matchNode_leaves. now apply Hshape.
  - intros m Hm Hty. unfold TreeBuilder.nodesOf in Hm.
    apply in_flat_map in Hm as (kept & Hk & Hm).
    apply FilterFacts.mapFilter_In in Hk as (node & Hn & Ek).
    exact (SelectionFacts.matchNode_expanded _ node (Hshape node Hn) kept Ek m Hm Hty).
Qed.

(** The sample forest filtered by [HOVER]: one leaf is left. *)
Lemma filterTree_keeps_matching_leaves_witness :
  flat_map TreeBuilder.leavesOf (TreeBuilder.filterTree Sample.colorForest "HOVER")
  = [ Sample.leaf "color/bg/hover" "hover" "v2" 2 true false ].
Proof.
  exact (proj1 (filterTree_keeps_matching_leaves Sample.colorForest "HOVER" eq_refl eq_refl)).
Defined.

(** ** buildTree *)

Module BuildFacts.
Import TreeNode TreeBuilder.

Lemma set_childless (m : JsMap.t TreeNode.t) k node :
  Forall childless (JsMap.values m) -> childless node ->
  Forall childless (JsMap.values (JsMap.set m k node)).
Proof.
  unfold JsMap.values. induction m as [|[k' v'] r IH]; simpl; intros Hm Hn.
  - now constructor.
  - inversion Hm as [|? ? Hv Hr]; subst.
    destruct (String.eqb k' k); simpl; constructor; auto.
Qed.

Lemma newNode_childless variableId path part isLeaf index :
  childless (newNode variableId path part isLeaf index).
Proof. destruct isLeaf; [now left|now right]. Qed.

Lemma visitPart_childless variableId nparts w index part :
  Forall childless (JsMap.values (root w)) ->
  Forall childless (JsMap.values (root (visitPart variableId nparts w index part))).
Proof.
  intros Hw. unfold visitPart.
  set (path := (currentPath w ++ _ ++ part)%string).
  set (isLeaf := (index =? nparts - 1)%nat).
  set (w1 := if negb (JsMap.has (levelMap w) path) then _ else w).
  assert (H1 : Forall childless (JsMap.values (root w1))).
  { subst w1. destruct (negb (JsMap.has (levelMap w) path)); [|exact Hw].
    unfold levelSet. destruct (currentLevel w); simpl; [|exact Hw].
    apply set_childless; [exact Hw|apply newNode_childless]. }
  destruct (JsMap.get (levelMap w1) path) as [currentNode|]; [|exact H1].
  destruct (negb isLeaf), (TreeNode.children currentNode); exact H1.
Qed.

Lemma forEachPart_childless variableId nparts parts :
  forall index w,
    Forall childless (JsMap.values (root w)) ->
    Forall childless (JsMap.values (root (forEachPart variableId nparts parts index w))).
Proof.
  induction parts as [|part rest IH]; intros index w Hw; simpl; [exact Hw|].
  apply IH. now apply visitPart_childless.
Qed.

Lemma visitVariables_childless variables :
  forall root root',
    Forall childless (JsMap.values root) ->
    visitVariables root variables = Js.normal root' ->
    Forall childless (JsMap.values root').
Proof.
  induction variables as [|v rest IH]; intros root0 root' H0; simpl.
  - intros [= <-]. exact H0.
  - unfold visitVariable. destruct (Js.splitValue (VariableData.name v)) as [parts|e];
      [|discriminate].
    apply IH. now apply forEachPart_childless.
Qed.

Lemma flattenNode_childless node : childless node -> childless (flattenNode node).
Proof.
  destruct node as [i n ty cs v col lv ch ind pp]. unfold childless. simpl.
  intros [-> | ->]; destruct ty; simpl; auto.
Qed.

End BuildFacts.

(** C1. [buildTree] of treeBuilder.ts puts the nodes of the deeper levels
    into maps that nothing keeps: for the scenario's three names it returns
    the single group [color] with no children, so no leaf at all, and on any
    input no node of its result has a child. [buildTree] of code.js links
    the same three names as the spec's scenario says. *)
Theorem buildTree_scenario :
  TreeBuilder.buildTree Sample.scenario
  = Js.normal [ Sample.branch "color" "color" 0 [] false false ]
  /\ (forall variables forest,
        TreeBuilder.buildTree variables = Js.normal forest ->
        forall node, In node forest -> TreeBuilder.childless node)
  /\ CodeJs.buildTree Sample.scenario
     = Js.normal (Some
         [ TreeNode.make "color" "color" TreeNode.group
             (Some
                [ TreeNode.make "color/bg" "bg" TreeNode.group
                    (Some
                       [ TreeNode.make "color/bg/default" "default" TreeNode.variable None
                           (Some "v1") true 2 false false (Some (Some "color/bg"));
                         TreeNode.make "color/bg/hover" "hover" TreeNode.variable None
                           (Some "v2") true 2 false false (Some (Some "color/bg")) ])
                    None true 1 false false (Some (Some "color"));
                  TreeNode.make "color/fg" "fg" TreeNode.variable None (Some "v3") true 1
                    false false (Some (Some "color")) ])
             None true 0 false false (Some None) ]).
Proof.
  split; [reflexivity|]. split; [|reflexivity].
  intros variables forest. unfold TreeBuilder.buildTree.
  destruct (TreeBuilder.visitVariables [] variables) as [root|e] eqn:E; [|discriminate].
  intros [= <-] node Hn. apply in_map_iff in Hn as (x & <- & Hx).
  apply BuildFacts.flattenNode_childless.
  pose proof (BuildFacts.visitVariables_childless variables [] root (List.Forall_nil _) E) as H.
  rewrite List.Forall_forall in H. now apply H.
Qed.

Module CodeJsBuildFacts.
Import CodeJs.

Lemma length_append (a b : string) :
  String.length (a ++ b) = String.length a + String.length b.
Proof. induction a as [|c r IH]; simpl; [reflexivity|]. now rewrite IH. Qed.

Lemma getOwn_set {V} (o : JsObject.t V) (k k' : string) (v : V) :
  JsObject.getOwn (JsObject.set o k v) k'
  = if String.eqb k k' then Some v else JsObject.getOwn o k'.
Proof.
  unfold JsObject.getOwn. induction o as [|[k0 v0] r IH]; simpl.
  - destruct (String.eqb k k'); reflexivity.
  - destruct (String.eqb_spec k0 k) as [->|Hne]; simpl.
    + destruct (String.eqb k k'); reflexivity.
    + destruct (String.eqb_spec k0 k') as [->|Hne'].
      * destruct (String.eqb_spec k k') as [->|_]; [congruence|reflexivity].
      * exact IH.
Qed.

Lemma getOwn_key {V} (o : JsObject.t V) (k : string) (v : V) :
  JsObject.getOwn o k = Some v -> In k (map fst o).
Proof.
  unfold JsObject.getOwn. induction o as [|[k0 v0] r IH]; simpl; [discriminate|].
  destruct (String.eqb_spec k0 k) as [->|_]; [now left|]. intros H. right. now apply IH.
Qed.

Lemma get_own {V} (o : JsObject.t V) (k : string) (v : V) :
  JsObject.get o k = JsObject.own v <-> JsObject.getOwn o k = Some v.
Proof.
  unfold JsObject.get. destruct (JsObject.getOwn o k) as [v'|].
  - split; intros [= ->]; reflexivity.
  - split; [|discriminate]. destruct (JsObject.isPrototypeKey k); discriminate.
Qed.

Lemma get_missing {V} (o : JsObject.t V) (k : string) :
  JsObject.get o k = JsObject.missing -> JsObject.getOwn o k = None.
Proof.
  unfold JsObject.get. destruct (JsObject.getOwn o k); [discriminate|reflexivity].
Qed.

(** *** The first pass *)

Lemma visitPart_unlinked variableId nparts st j part :
  unlinked (fst st) -> unlinked (fst (visitPart variableId nparts st j part)).
Proof.
  destruct st as [nodeMap currentPath]. unfold visitPart. simpl. intros Hf.
  destruct (emptyPart part) eqn:Epart; [exact Hf|].
  set (path := (currentPath ++ _ ++ part)%string).
  destruct (JsObject.get nodeMap path) eqn:Eget; try exact Hf.
  simpl. intros k o. rewrite getOwn_set.
  destruct (String.eqb_spec path k) as [<-|_]; [|apply Hf].
  intros [= <-]. split; [split|].
  - simpl. intros p. destruct (Js.truthy currentPath) eqn:Et; [|discriminate].
    intros [= <-]. subst path. rewrite !length_append. simpl. lia.
  - exact Epart.
  - simpl. destruct (j =? nparts - 1)%nat; [now left|now right].
Qed.

Lemma visitParts_unlinked variableId nparts parts :
  forall j st, unlinked (fst st) -> unlinked (fst (visitParts variableId nparts parts j st)).
Proof.
  induction parts as [|part rest IH]; intros j st Hf; simpl; [exact Hf|].
  apply IH. now apply visitPart_unlinked.
Qed.

(** The guard on [variable.name] keeps [split] from throwing. *)
Lemma firstPass_returns variables :
  forall nodeMap, unlinked nodeMap ->
    exists nodeMap', firstPass nodeMap variables = Js.normal nodeMap' /\ unlinked nodeMap'.
Proof.
  induction variables as [|v rest IH]; intros nodeMap Hf; simpl.
  - now exists nodeMap.
  - unfold visitVariable, withoutName.
    destruct (VariableData.name v) as [| |b|z|s|] eqn:En; simpl;
      try (now apply IH); try (destruct b; now apply IH);
      try (destruct (negb (z =? 0)%Z); now apply IH).
    destruct (Js.truthy s); simpl; [|now apply IH].
    apply IH. now apply (visitParts_unlinked _ _ _ 0 (nodeMap, EmptyString)).
Qed.


(** *** The second pass *)

Lemma objectOk_withChildren k o cs : objectOk k o -> objectOk k (withChildren o cs).
Proof. intros H. exact H. Qed.

Lemma linked_start nodeMap : unlinked nodeMap -> linked (mkLinking nodeMap [] false).
Proof.
  intros Hf. split; [|split]; simpl.
  - intros k o H. now apply Hf.
  - intros k o refs H Hc r Hr. destruct (Hf k o H) as [_ [E|E]]; rewrite E in Hc.
    + discriminate.
    + injection Hc as <-. destruct Hr.
  - intros r [].
Qed.

Lemma linked_push st p parent path node refs :
  linked st ->
  JsObject.getOwn (objects st) p = Some parent ->
  JsObject.getOwn (objects st) path = Some node ->
  parentPath node = Some p ->
  (forall r, In r refs -> r = path \/ exists cs, children parent = Some cs /\ In r cs) ->
  linked (mkLinking (JsObject.set (objects st) p (withChildren parent (Some refs)))
            (rootNodes st) (prototypeHasChildren st)).
Proof.
  intros (Hok & Hrefs & Hroots) Hp Hpath Hpp Hnew.
  assert (Hown : forall r, (exists o', JsObject.getOwn (objects st) r = Some o') ->
            exists o', JsObject.getOwn (JsObject.set (objects st) p
                                          (withChildren parent (Some refs))) r = Some o').
  { intros r [o' Ho']. rewrite getOwn_set. destruct (String.eqb p r); eauto. }
  split; [|split]; simpl.
  - intros k o. rewrite getOwn_set. destruct (String.eqb_spec p k) as [<-|_].
    + intros [= <-]. apply objectOk_withChildren. now apply Hok.
    + apply Hok.
  - intros k o refs'. rewrite getOwn_set. destruct (String.eqb_spec p k) as [<-|_].
    + intros [= <-]. simpl. intros [= <-] r Hr.
      destruct (Hnew r Hr) as [->|(cs & Hcs & Hin)].
      * split; [apply Hown; eauto|]. destruct (Hok path node Hpath) as [Hlen _].
        now apply Hlen.
      * destruct (Hrefs p parent cs Hp Hcs r Hin) as [Ho Hlen]. split; [now apply Hown|exact Hlen].
    + intros Hk Hc r Hr. destruct (Hrefs k o refs' Hk Hc r Hr) as [Ho Hlen].
      split; [now apply Hown|exact Hlen].
  - intros r Hr. apply Hown. now apply Hroots.
Qed.

Lemma linked_root st path node :
  linked st -> JsObject.getOwn (objects st) path = Some node ->
  linked (mkLinking (objects st) (rootNodes st ++ [path]) (prototypeHasChildren st)).
Proof.
  intros (Hok & Hrefs & Hroots) Hpath. split; [|split]; simpl; auto.
  intros r Hr. apply in_app_or in Hr as [Hr|[<-|[]]]; [now apply Hroots|eauto].
Qed.

Lemma linkNode_linked st path : linked st -> linked (linkNode st path).
Proof.
  intros Hl. unfold linkNode.
  destruct (JsObject.getOwn (objects st) path) as [node|] eqn:Epath; [|exact Hl].
  destruct (parentPath node) as [p|] eqn:Epp; [|now apply (linked_root st path node)].
  destruct (Js.truthy p); [|now apply (linked_root st path node)].
  destruct (JsObject.get (objects st) p) as [parent| |] eqn:Eget.
  - apply get_own in Eget. unfold pushChild.
    destruct (children parent) as [cs|] eqn:Ecs.
    + apply (linked_push st p parent path node); auto.
      intros r Hr. apply in_app_or in Hr as [Hr|[<-|[]]]; [right; eauto|now left].
    + destruct (prototypeHasChildren st); [exact Hl|].
      apply (linked_push st p parent path node); auto.
      intros r [<-|[]]. now left.
  - destruct Hl as (Hok & Hrefs & Hroots). split; [|split]; simpl; auto.
  - now apply (linked_root st path node).
Qed.

Lemma secondPass_linked nodeMap : unlinked nodeMap -> linked (secondPass nodeMap).
Proof.
  intros Hf. unfold secondPass.
  generalize (JsObject.forInKeys nodeMap). intros keys.
  assert (H := linked_start nodeMap Hf). revert H.
  generalize (mkLinking nodeMap [] false). induction keys as [|k r IH]; intros st H; simpl.
  - exact H.
  - apply IH. now apply linkNode_linked.
Qed.

(** *** Reading the forest back *)

Lemma mapM_all {A B} (f : A -> option B) (l : list A) :
  (forall x, In x l -> exists y, f x = Some y) -> exists ys, mapM f l = Some ys.
Proof.
  induction l as [|x r IH]; intros H; simpl; [eauto|].
  destruct (H x (or_introl eq_refl)) as [y ->].
  destruct IH as [ys ->]; [intros z Hz; apply H; now right|]. eauto.
Qed.

Lemma mapM_In {A B} (f : A -> option B) (l : list A) :
  forall ys, mapM f l = Some ys -> forall y, In y ys -> exists x, In x l /\ f x = Some y.
Proof.
  induction l as [|x r IH]; intros ys; simpl.
  - intros [= <-] y [].
  - destruct (f x) as [y0|] eqn:Ex; [|discriminate].
    destruct (mapM f r) as [ys0|]; [|discriminate].
    intros [= <-] y [<-|Hy].
    + exists x. split; [now left|exact Ex].
    + destruct (IH ys0 eq_refl y Hy) as (x' & Hx' & E). exists x'. split; [now right|exact E].
Qed.

Lemma key_bounded (objs : JsObject.t NodeObject) k o :
  JsObject.getOwn objs k = Some o -> String.length k < depthBound objs.
Proof.
  intros H. apply getOwn_key in H. unfold depthBound.
  assert (Hmax : Forall (fun n => n <= list_max (map (fun e => String.length (fst e)) objs))
                   (map (fun e => String.length (fst e)) objs)).
  { apply list_max_le. lia. }
  rewrite List.Forall_forall in Hmax.
  apply in_map_iff in H as ([k0 o0] & <- & Hin).
  specialize (Hmax (String.length k0)). simpl.
  assert (In (String.length k0) (map (fun e => String.length (fst e)) objs)).
  { apply in_map_iff. now exists (k0, o0). }
  specialize (Hmax H). lia.
Qed.

(** The bound on the depth is enough to read every object. *)
Lemma readNode_returns st :
  linked st ->
  forall fuel k o,
    JsObject.getOwn (objects st) k = Some o ->
    depthBound (objects st) - String.length k <= fuel ->
    exists node, readNode fuel (objects st) k = Some node.
Proof.
  intros (Hok & Hrefs & _). induction fuel as [|fuel IH]; intros k o Hk Hfuel.
  - pose proof (key_bounded _ k o Hk). lia.
  - simpl. rewrite Hk. destruct (children o) as [refs|] eqn:Ec; [|eauto].
    destruct (mapM_all (readNode fuel (objects st)) refs) as [cs ->]; [|eauto].
    intros r Hr. destruct (Hrefs k o refs Hk Ec r Hr) as [[o' Ho'] Hlen].
    apply (IH r o' Ho'). pose proof (key_bounded _ r o' Ho'). lia.
Qed.


End CodeJsBuildFacts.

(** [buildTree] of code.js keeps the first node it made for a path: a
    variable whose whole name is the path of a group that is already there
    gets no leaf. *)
Example codeJs_buildTree_name_of_a_group :
  CodeJs.buildTree [Sample.variableNamed "v1" "a/b"; Sample.variableNamed "v2" "a"]
  = CodeJs.buildTree [Sample.variableNamed "v1" "a/b"].
Proof. reflexivity. Qed.

(** The same input in treeBuilder.ts: a name that is no string makes
    [variable.name.split] throw. *)
Example treeBuilder_buildTree_throws_without_name :
  TreeBuilder.buildTree [VariableData.make "v1" Js.undefined COLOR "collection:1" []]
  = Js.throw Js.TypeError.
Proof. reflexivity. Qed.

(** ** buildTree of code.js: one leaf for every variable *)

Module LeafFacts.
Import CodeJs.
Import CodeJsBuildFacts.

Local Arguments String.append !_ _ /.

Lemma split_cons (s : string) : exists h t, Js.split s = h :: t.
Proof.
  destruct s as [|c r]; simpl; [eauto|].
  destruct (Ascii.eqb c "/"); [eauto|]. destruct (Js.split r); eauto.
Qed.

Lemma append_nil_r (s : string) : (s ++ "")%string = s.
Proof. induction s as [|c r IH]; simpl; [reflexivity|]. now rewrite IH. Qed.

Lemma append_assoc (a b c : string) : ((a ++ b) ++ c)%string = (a ++ b ++ c)%string.
Proof. induction a as [|x r IH]; simpl; [reflexivity|]. now rewrite IH. Qed.

Lemma truthy_append_l (a b : string) : Js.truthy a = true -> Js.truthy (a ++ b) = true.
Proof. destruct a; [discriminate|reflexivity]. Qed.

Lemma truthy_append_r (a b : string) : Js.truthy b = true -> Js.truthy (a ++ b) = true.
Proof. destruct a; [auto|reflexivity]. Qed.

Lemma last_pathsFrom_cons cur part part' rest :
  List.last (pathsFrom cur (part :: part' :: rest)) EmptyString
  = List.last
      (pathsFrom (cur ++ (if Js.truthy cur then SEPARATOR else EmptyString) ++ part)
         (part' :: rest)) EmptyString.
Proof. reflexivity. Qed.

(** The last path of a name without an empty part is the name. *)
Lemma pathsFrom_last (s : string) :
  forall pre cur h t,
    Js.split s = h :: t ->
    Forall (fun part => Js.truthy part = true) ((pre ++ h)%string :: t) ->
    List.last (pathsFrom cur ((pre ++ h)%string :: t)) EmptyString
    = (cur ++ (if Js.truthy cur then SEPARATOR else EmptyString) ++ pre ++ s)%string.
Proof.
  induction s as [|c r IH]; intros pre cur h t Hs Hparts.
  - injection Hs as <- <-. reflexivity.
  - simpl in Hs. destruct (split_cons r) as (h' & t' & E). rewrite E in Hs.
    destruct (Ascii.eqb_spec c "/") as [->|Hc].
    + injection Hs as <- <-. rewrite append_nil_r in *.
      inversion Hparts as [|? ? Hpre Hrest]; subst.
      rewrite last_pathsFrom_cons.
      set (path := (cur ++ (if Js.truthy cur then SEPARATOR else "") ++ pre)%string).
      assert (Hpath : Js.truthy path = true).
      { subst path. apply truthy_append_r. now apply truthy_append_r. }
      pose proof (IH "" path h' t' E Hrest) as Hlast.
      change ("" ++ h')%string with h' in Hlast. rewrite Hlast, Hpath. subst path. simpl.
      now rewrite !append_assoc.
    + injection Hs as <- <-.
      assert (Epre : (pre ++ String c h')%string = ((pre ++ String c "") ++ h')%string).
      { rewrite append_assoc. reflexivity. }
      rewrite Epre in *. rewrite (IH (pre ++ String c "")%string cur h' t' E Hparts).
      now rewrite append_assoc.
Qed.

Lemma paths_last (name : string) :
  forallb (fun part => negb (emptyPart part)) (Js.split name) = true ->
  List.last (paths name) EmptyString = name.
Proof.
  intros H. unfold paths. destruct (split_cons name) as (h & t & E).
  rewrite E in *. apply (pathsFrom_last name "" "" h t E).
  change ("" ++ h)%string with h.
  rewrite forallb_forall in H. apply List.Forall_forall. intros part Hp.
  specialize (H part Hp). unfold emptyPart in H.
  destruct (Js.truthy part); [reflexivity|discriminate].
Qed.

(** *** The first pass on well-formed names *)

Lemma getOwn_not_key {V} (o : JsObject.t V) (k : string) :
  JsObject.getOwn o k = None -> ~ In k (map fst o).
Proof.
  unfold JsObject.getOwn. induction o as [|[k0 v0] r IH]; simpl; [tauto|].
  destruct (String.eqb_spec k0 k) as [->|Hne]; [discriminate|].
  intros H [E|Hin]; [congruence|]. now apply IH.
Qed.

Lemma set_new {V} (o : JsObject.t V) (k : string) (v : V) :
  JsObject.getOwn o k = None -> JsObject.set o k v = (o ++ [(k, v)])%list.
Proof.
  unfold JsObject.getOwn. induction o as [|[k0 v0] r IH]; simpl; [reflexivity|].
  destruct (String.eqb_spec k0 k) as [->|Hne]; [discriminate|].
  intros H. now rewrite IH.
Qed.

Lemma built_set variables done done' nodeMap path node :
  built variables done nodeMap ->
  JsObject.getOwn nodeMap path = None ->
  id node = path ->
  (forall p, parentPath node = Some p ->
     Js.truthy p = true /\ String.length p < String.length path
     /\ exists po, JsObject.getOwn nodeMap p = Some po /\ children po = Some []) ->
  ((exists v, In v done' /\ path = stringName v /\ leafFor v node)
   \/ (type node = TreeNode.group /\ children node = Some []
       /\ exists w, In w variables /\ In path (groupPaths (stringName w)))) ->
  (forall w, In w done -> In w done') ->
  (forall w, In w done' -> In w done \/ (path = stringName w /\ leafFor w node)) ->
  built variables done' (JsObject.set nodeMap path node).
Proof.
  intros (Hkeys & Hleaves & Hnodes) Hnew Hid Hparent Hkind Hincl Hdone'.
  split; [|split].
  - rewrite (set_new _ _ _ Hnew), map_app. simpl.
    apply List.NoDup_app; [exact Hkeys|repeat constructor; intros []|].
    intros a Ha [<-|[]]. now apply (getOwn_not_key _ _ Hnew).
  - intros v Hv. rewrite getOwn_set. destruct (Hdone' v Hv) as [Hold|[-> Hleaf]].
    + destruct (Hleaves v Hold) as (o & Ho & Hl).
      destruct (String.eqb_spec path (stringName v)) as [->|_]; [congruence|eauto].
    + rewrite String.eqb_refl. eauto.
  - intros k o. rewrite getOwn_set. destruct (String.eqb_spec path k) as [<-|Hne].
    + intros [= <-]. split; [exact Hid|]. split; [|exact Hkind].
      intros p Hp. destruct (Hparent p Hp) as (Ht & Hlen & po & Hpo & Hc).
      split; [exact Ht|]. split; [exact Hlen|]. exists po. split; [|exact Hc].
      rewrite getOwn_set. destruct (String.eqb_spec path p) as [->|_]; [congruence|exact Hpo].
    + intros Ho. destruct (Hnodes k o Ho) as (Hi & Hp & Hk). split; [exact Hi|]. split.
      * intros p Epp. destruct (Hp p Epp) as (Ht & Hlen & po & Hpo & Hc).
        split; [exact Ht|]. split; [exact Hlen|]. exists po. split; [|exact Hc].
        rewrite getOwn_set. destruct (String.eqb_spec path p) as [->|_]; [congruence|exact Hpo].
      * destruct Hk as [(v & Hv & E & Hl)|Hg]; [left; exists v; auto|now right].
Qed.

Lemma built_more variables done done' nodeMap :
  built variables done nodeMap ->
  (forall w, In w done <-> In w done') ->
  built variables done' nodeMap.
Proof.
  intros (Hkeys & Hleaves & Hnodes) Hsame. split; [exact Hkeys|]. split.
  - intros v Hv. apply Hleaves. now apply Hsame.
  - intros k o Ho. destruct (Hnodes k o Ho) as (Hi & Hp & Hk).
    split; [exact Hi|]. split; [exact Hp|].
    destruct Hk as [(v & Hv & E & Hl)|Hg]; [left; exists v; split; [now apply Hsame|auto]|now right].
Qed.

Lemma removelast_cons_In {A} (x y : A) (l : list A) :
  In x (removelast (x :: y :: l)).
Proof. now left. Qed.

Section FirstPass.

Variable variables : list VariableData.t.
Hypothesis Hfree :
  forall v w, In v variables -> In w variables ->
    ~ In (stringName v) (groupPaths (stringName w)).

Lemma visitParts_built (v : VariableData.t) (done : list VariableData.t) :
  In v variables ->
  (forall w, In w done -> In w variables) ->
  ~ In (stringName v) (map stringName done) ->
  forall parts j cur nodeMap,
    parts <> [] ->
    Forall (fun path => JsObject.isPrototypeKey path = false) (pathsFrom cur parts) ->
    (forall path, In path (removelast (pathsFrom cur parts)) ->
       In path (groupPaths (stringName v))) ->
    List.last (pathsFrom cur parts) EmptyString = stringName v ->
    Forall (fun part => emptyPart part = false) parts ->
    (Js.truthy cur = true ->
     exists po, JsObject.getOwn nodeMap cur = Some po /\ children po = Some []) ->
    built variables done nodeMap ->
    built variables (v :: done)
      (fst (visitParts (VariableData.id v) (j + length parts) parts j (nodeMap, cur))).
Proof.
  intros Hv Hdone Hnew. induction parts as [|part rest IH]; [congruence|].
  intros j cur nodeMap _ Hproto Hgroups Hlast Hparts Hcur Hb.
  inversion Hparts as [|? ? Hpart Hrest]; subst.
  set (path := (cur ++ (if Js.truthy cur then SEPARATOR else "") ++ part)%string) in *.
  change (pathsFrom cur (part :: rest)) with (path :: pathsFrom path rest) in *.
  inversion Hproto as [|? ? Hkey Hproto']; subst.
  assert (Hparent : forall p,
             (if Js.truthy cur then Some cur else None) = Some p ->
             Js.truthy p = true /\ String.length p < String.length path
             /\ exists po, JsObject.getOwn nodeMap p = Some po /\ children po = Some []).
  { intros p. destruct (Js.truthy cur) eqn:Et; [|discriminate]. intros [= <-].
    split; [exact Et|]. split; [|now apply Hcur].
    subst path. rewrite !length_append. simpl. lia. }
  assert (Hstep : visitParts (VariableData.id v) (j + length (part :: rest)) (part :: rest) j
                    (nodeMap, cur)
                  = visitParts (VariableData.id v) (S j + length rest) rest (S j)
                      (visitPart (VariableData.id v) (S j + length rest) (nodeMap, cur) j part)).
  { simpl. now rewrite Nat.add_succ_r. }
  rewrite Hstep. clear Hstep.
  unfold visitPart. rewrite Hpart. fold path.
  assert (Eleaf : (j =? S j + length rest - 1)%nat = match rest with [] => true | _ => false end).
  { destruct rest; simpl; [apply Nat.eqb_eq|apply Nat.eqb_neq]; lia. }
  rewrite Eleaf. clear Eleaf.
  destruct rest as [|part' rest'].
  - (* the leaf *)
    simpl in Hlast. simpl.
    destruct (JsObject.get nodeMap path) as [o| |] eqn:Eget.
    + exfalso. apply get_own in Eget. destruct Hb as (_ & _ & Hnodes).
      destruct (Hnodes path o Eget) as (_ & _ & [(w & Hw & E & _)|(_ & _ & w & Hw & Hin)]).
      * apply Hnew. rewrite <- Hlast, E. now apply in_map.
      * rewrite Hlast in Hin. exact (Hfree v w Hv Hw Hin).
    + exfalso. unfold JsObject.get in Eget.
      destruct (JsObject.getOwn nodeMap path); [discriminate|]. now rewrite Hkey in Eget.
    + simpl. apply get_missing in Eget.
      apply (built_set variables done (v :: done) nodeMap path); auto.
      * left. exists v. split; [now left|]. split; [now symmetry|]. repeat split.
      * intros w Hw. now right.
      * intros w [<-|Hw]; [right|now left]. split; [now symmetry|]. repeat split.
  - (* a group *)
    assert (Hin : In path (groupPaths (stringName v))).
    { apply Hgroups. simpl. now left. }
    assert (Hnext : exists nodeMap',
               (match JsObject.get nodeMap path with
                | JsObject.missing =>
                    (JsObject.set nodeMap path
                       (mkNodeObject path part TreeNode.group j true false false
                          (if Js.truthy cur then Some cur else None) None (Some [])), path)
                | _ => (nodeMap, path)
                end) = (nodeMap', path)
               /\ built variables done nodeMap'
               /\ exists po, JsObject.getOwn nodeMap' path = Some po /\ children po = Some []).
    { destruct (JsObject.get nodeMap path) as [o| |] eqn:Eget.
      - exists nodeMap. split; [reflexivity|]. split; [exact Hb|].
        apply get_own in Eget. exists o. split; [exact Eget|].
        destruct Hb as (_ & _ & Hnodes).
        destruct (Hnodes path o Eget) as (_ & _ & [(w & Hw & E & _)|(_ & Hc & _)]);
          [|exact Hc].
        exfalso. rewrite E in Hin. exact (Hfree w v (Hdone w Hw) Hv Hin).
      - exfalso. unfold JsObject.get in Eget.
        destruct (JsObject.getOwn nodeMap path); [discriminate|]. now rewrite Hkey in Eget.
      - apply get_missing in Eget. eexists. split; [reflexivity|]. split.
        + apply (built_set variables done done nodeMap path); auto.
          right. split; [reflexivity|]. split; [reflexivity|]. exists v. now split.
        + rewrite getOwn_set, String.eqb_refl. eexists. split; [reflexivity|reflexivity]. }
    destruct Hnext as (nodeMap' & -> & Hb' & Hpo).
    apply IH; auto.
    intros path' Hp'. apply Hgroups.
    change (removelast (path :: pathsFrom path (part' :: rest')))
      with (path :: removelast (pathsFrom path (part' :: rest'))).
    now right.
Qed.

End FirstPass.

Lemma wellFormed_name (v : VariableData.t) :
  wellFormed v = true ->
  VariableData.name v = Js.str (stringName v)
  /\ withoutName v = false
  /\ Forall (fun part => emptyPart part = false) (Js.split (stringName v))
  /\ Forall (fun path => JsObject.isPrototypeKey path = false) (paths (stringName v))
  /\ List.last (paths (stringName v)) EmptyString = stringName v.
Proof.
  unfold wellFormed, withoutName, stringName.
  destruct (VariableData.name v) as [| |b|z|s|]; try discriminate. simpl.
  intros H. apply andb_prop in H as [Hparts Hpaths].
  split; [reflexivity|]. split.
  - destruct s; [discriminate Hparts|reflexivity].
  - split; [|split].
    + rewrite forallb_forall in Hparts. apply List.Forall_forall. intros part Hp.
      specialize (Hparts part Hp). now destruct (emptyPart part).
    + rewrite forallb_forall in Hpaths. apply List.Forall_forall. intros path Hp.
      specialize (Hpaths path Hp). now destruct (JsObject.isPrototypeKey path).
    + now apply paths_last.
Qed.

(** The first pass makes one leaf for every variable, under its name. *)
Lemma firstPass_built (variables : list VariableData.t) :
  forallb wellFormed variables = true ->
  List.NoDup (map stringName variables) ->
  (forall v w, In v variables -> In w variables ->
     ~ In (stringName v) (groupPaths (stringName w))) ->
  forall rest before nodeMap,
    variables = (before ++ rest)%list ->
    built variables before nodeMap ->
    exists nodeMap',
      firstPass nodeMap rest = Js.normal nodeMap' /\ built variables variables nodeMap'.
Proof.
  intros Hwf Hnodup Hfree. induction rest as [|v rest IH]; intros before nodeMap E Hb.
  - rewrite app_nil_r in E. subst before. now exists nodeMap.
  - assert (Hv : In v variables) by (rewrite E; apply in_or_app; right; now left).
    rewrite forallb_forall in Hwf.
    destruct (wellFormed_name v (Hwf v Hv)) as (En & Hguard & Hparts & Hpaths & Hlast).
    simpl. unfold visitVariable. rewrite Hguard, En. simpl.
    destruct (split_cons (stringName v)) as (h & t & Es).
    apply (IH (before ++ [v])%list); [now rewrite <- app_assoc|].
    apply (built_more variables (v :: before)).
    + assert (Hdone : forall w, In w before -> In w variables).
      { intros w Hw. rewrite E. apply in_or_app. now left. }
      assert (Hnew : ~ In (stringName v) (map stringName before)).
      { rewrite E, map_app in Hnodup. simpl in Hnodup.
        apply List.NoDup_remove_2 in Hnodup. intros Hin. apply Hnodup.
        apply in_or_app. now left. }
      apply (visitParts_built variables Hfree v before Hv Hdone Hnew
               (Js.split (stringName v)) 0 EmptyString nodeMap).
      * rewrite Es. discriminate.
      * exact Hpaths.
      * intros path Hp. exact Hp.
      * exact Hlast.
      * exact Hparts.
      * discriminate.
      * exact Hb.
    + intros w. simpl. rewrite in_app_iff. simpl. tauto.
Qed.

(** *** The second pass on what the first pass built *)

Lemma key_getOwn {V} (o : JsObject.t V) (k : string) :
  In k (map fst o) -> exists v, JsObject.getOwn o k = Some v.
Proof.
  unfold JsObject.getOwn. induction o as [|[k0 v0] r IH]; simpl; [tauto|].
  destruct (String.eqb_spec k0 k) as [->|Hne]; [eauto|].
  intros [E|Hin]; [congruence|now apply IH].
Qed.

Lemma insertByIndex_Permutation (e : N * string) (l : list (N * string)) :
  Permutation (JsObject.insertByIndex e l) (e :: l).
Proof.
  induction l as [|e' r IH]; simpl; [reflexivity|].
  destruct (fst e <=? fst e')%N; [reflexivity|].
  rewrite IH. apply perm_swap.
Qed.

Lemma sortByIndex_Permutation (l : list (N * string)) :
  Permutation (JsObject.sortByIndex l) l.
Proof.
  induction l as [|e r IH]; simpl; [reflexivity|].
  rewrite insertByIndex_Permutation. now apply perm_skip.
Qed.

(** [for (k in o)] visits every own key once. *)
Lemma forInKeys_Permutation {V} (o : JsObject.t V) :
  Permutation (JsObject.forInKeys o) (map fst o).
Proof.
  unfold JsObject.forInKeys. generalize (map fst o). intros ks.
  rewrite (Permutation_map snd (sortByIndex_Permutation _)).
  induction ks as [|k r IH]; simpl; [reflexivity|].
  destruct (JsObject.arrayIndex k); simpl.
  - now apply perm_skip.
  - symmetry. apply Permutation_cons_app. now symmetry.
Qed.

Lemma withChildren_children (o : NodeObject) : withChildren o (children o) = o.
Proof. now destruct o. Qed.

Lemma withChildren_twice (o : NodeObject) cs cs' :
  withChildren (withChildren o cs) cs' = withChildren o cs'.
Proof. reflexivity. Qed.

Section SecondPass.

Variable nodeMap : JsObject.t NodeObject.
Hypothesis Hshape :
  forall k o, JsObject.getOwn nodeMap k = Some o ->
    (children o = None \/ children o = Some [])
    /\ forall p, parentPath o = Some p ->
         Js.truthy p = true
         /\ exists po, JsObject.getOwn nodeMap p = Some po /\ children po = Some [].

Lemma linkedUpTo_start : linkedUpTo nodeMap [] (mkLinking nodeMap [] false).
Proof.
  split; [reflexivity|]. intros k. simpl.
  destruct (JsObject.getOwn nodeMap k) as [o|] eqn:Ek; [|reflexivity].
  simpl. unfold relink. destruct (Hshape k o Ek) as [[E|E] _]; rewrite E; simpl;
    now rewrite <- E, withChildren_children.
Qed.

Lemma relink_snoc_other seen k k' o' :
  isChild nodeMap k' k = false ->
  relink nodeMap (seen ++ [k]) k' o' = relink nodeMap seen k' o'.
Proof.
  intros H. unfold relink. rewrite List.filter_app. simpl. rewrite H.
  now rewrite app_nil_r.
Qed.

Lemma linkNode_linkedUpTo seen st k o :
  JsObject.getOwn nodeMap k = Some o ->
  linkedUpTo nodeMap seen st ->
  linkedUpTo nodeMap (seen ++ [k]) (linkNode st k).
Proof.
  intros Ek (Hroots & Hobjs). unfold linkNode.
  rewrite (Hobjs k), Ek. simpl.
  destruct (parentPath o) as [p|] eqn:Epp.
  - destruct (Hshape k o Ek) as (_ & Hp). destruct (Hp p Epp) as (Ht & po & Hpo & Hc).
    rewrite Ht.
    assert (Eget : JsObject.get (objects st) p = JsObject.own (relink nodeMap seen p po)).
    { apply get_own. now rewrite (Hobjs p), Hpo. }
    rewrite Eget. unfold pushChild.
    assert (Ecs : children (relink nodeMap seen p po)
                  = Some (List.filter (isChild nodeMap p) seen)).
    { unfold relink. now rewrite Hc. }
    rewrite Ecs.
    assert (Hk : isRoot nodeMap k = false) by (unfold isRoot; now rewrite Ek, Epp).
    split; simpl.
    + rewrite List.filter_app. simpl. rewrite Hk. now rewrite app_nil_r.
    + intros k'. rewrite getOwn_set. destruct (String.eqb_spec p k') as [<-|Hne].
      * rewrite Hpo. simpl. unfold relink. rewrite Hc. simpl.
        rewrite List.filter_app. simpl.
        assert (Hchild : isChild nodeMap p k = true).
        { unfold isChild. rewrite Ek, Epp. apply String.eqb_refl. }
        now rewrite Hchild.
      * rewrite (Hobjs k'). destruct (JsObject.getOwn nodeMap k') as [o'|]; [|reflexivity].
        simpl. rewrite relink_snoc_other; [reflexivity|].
        unfold isChild. rewrite Ek, Epp. now apply String.eqb_neq.
  - assert (Hk : isRoot nodeMap k = true) by (unfold isRoot; now rewrite Ek, Epp).
    split; simpl.
    + rewrite List.filter_app. simpl. rewrite Hk. now rewrite Hroots.
    + intros k'. rewrite (Hobjs k').
      destruct (JsObject.getOwn nodeMap k') as [o'|]; [|reflexivity].
      simpl. rewrite relink_snoc_other; [reflexivity|].
      unfold isChild. now rewrite Ek, Epp.
Qed.

Lemma linkNodes_linkedUpTo keys :
  forall seen st,
    (forall k, In k keys -> exists o, JsObject.getOwn nodeMap k = Some o) ->
    linkedUpTo nodeMap seen st ->
    linkedUpTo nodeMap (seen ++ keys) (fold_left linkNode keys st).
Proof.
  induction keys as [|k r IH]; intros seen st Hkeys Hl; simpl.
  - now rewrite app_nil_r.
  - destruct (Hkeys k (or_introl eq_refl)) as [o Ho].
    change (k :: r) with ([k] ++ r)%list. rewrite app_assoc. apply IH.
    + intros k' Hk'. apply Hkeys. now right.
    + now apply (linkNode_linkedUpTo seen st k o).
Qed.

(** After the second pass every [children] array holds the nodes that name
    its owner as parent, and [rootNodes] the nodes that name none. *)
Lemma secondPass_linkedUpTo :
  linkedUpTo nodeMap (JsObject.forInKeys nodeMap) (secondPass nodeMap).
Proof.
  unfold secondPass.
  apply (linkNodes_linkedUpTo (JsObject.forInKeys nodeMap) [] _); [|apply linkedUpTo_start].
  intros k Hk. apply key_getOwn.
  exact (Permutation_in k (forInKeys_Permutation nodeMap) Hk).
Qed.

End SecondPass.

(** *** Reading back what the second pass linked *)

Lemma mapM_cons {A B} (f : A -> option B) (x : A) (l : list A) (ys : list B) :
  mapM f (x :: l) = Some ys ->
  exists y ys', ys = y :: ys' /\ f x = Some y /\ mapM f l = Some ys'.
Proof.
  simpl. destruct (f x) as [y|]; [|discriminate].
  destruct (mapM f l) as [ys'|]; [|discriminate]. intros [= <-]. eauto.
Qed.

Lemma mapM_find {A B} (f : A -> option B) (l : list A) :
  forall ys, mapM f l = Some ys ->
    forall x, In x l -> exists y, In y ys /\ f x = Some y.
Proof.
  induction l as [|x0 r IH]; intros ys E x Hx; [destruct Hx|].
  apply mapM_cons in E as (y & ys' & -> & Ey & Er).
  destruct Hx as [<-|Hx].
  - exists y. split; [now left|exact Ey].
  - destruct (IH ys' Er x Hx) as (y' & Hy' & E'). exists y'. split; [now right|exact E'].
Qed.

Lemma leavesOf_filter (node : TreeNode.t) :
  TreeBuilder.leavesOf node = List.filter TreeNode.isVariable (TreeBuilder.subtree node).
Proof.
  induction node as [i n ty v col lv ch ind pp|i n ty l v col lv ch ind pp IH]
    using TreeNode_ind; simpl.
  - destruct (TreeNode.isVariable _); reflexivity.
  - assert (E : flat_map TreeBuilder.leavesOf l
                = List.filter TreeNode.isVariable (flat_map TreeBuilder.subtree l)).
    { induction IH as [|c r Hc Hr IHr]; simpl; [reflexivity|].
      now rewrite List.filter_app, Hc, IHr. }
    rewrite E. destruct (TreeNode.isVariable _); reflexivity.
Qed.

Section ReadBack.

Variable nodeMap : JsObject.t NodeObject.
Variable order : list string.
Variable objs : JsObject.t NodeObject.

Hypothesis Hparent :
  forall k o p, JsObject.getOwn nodeMap k = Some o -> parentPath o = Some p ->
    String.length p < String.length k
    /\ exists po, JsObject.getOwn nodeMap p = Some po /\ children po = Some [].
Hypothesis Hid : forall k o, JsObject.getOwn nodeMap k = Some o -> id o = k.
Hypothesis Horder : List.NoDup order.
Hypothesis Hkeys : forall k, In k order <-> exists o, JsObject.getOwn nodeMap k = Some o.
Hypothesis Hobjs :
  forall k, JsObject.getOwn objs k
            = option_map (relink nodeMap order k) (JsObject.getOwn nodeMap k).

Lemma below_trans x c k : below nodeMap x c -> below nodeMap c k -> below nodeMap x k.
Proof.
  induction 1 as [x|x o p a Hx Hp _ IH]; intros Hc; [exact Hc|].
  exact (below_parent nodeMap x o p k Hx Hp (IH Hc)).
Qed.

Lemma below_length k a : below nodeMap k a -> String.length a <= String.length k.
Proof.
  induction 1 as [x|x o p a Hx Hp _ IH]; [lia|].
  destruct (Hparent x o p Hx Hp) as [Hlen _]. lia.
Qed.

Lemma below_linear k a b :
  below nodeMap k a -> below nodeMap k b -> below nodeMap a b \/ below nodeMap b a.
Proof.
  induction 1 as [x|x o p a Hx Hp Ha IH]; intros Hb; [now left|].
  inversion Hb as [|? o' p' ? Hx' Hp' Hb']; subst.
  - right. exact (below_parent nodeMap b o p a Hx Hp Ha).
  - assert (p' = p) by congruence. subst p'. now apply IH.
Qed.

Lemma below_first k a :
  below nodeMap k a ->
  k = a \/ exists c oc, JsObject.getOwn nodeMap c = Some oc /\ parentPath oc = Some a
                        /\ below nodeMap k c.
Proof.
  induction 1 as [x|x o p a Hx Hp Ha IH]; [now left|]. right.
  destruct IH as [<-|(c & oc & Hc & Hpc & Hbelow)].
  - exists x, o. split; [exact Hx|]. split; [exact Hp|]. apply below_self.
  - exists c, oc. split; [exact Hc|]. split; [exact Hpc|].
    exact (below_parent nodeMap x o p c Hx Hp Hbelow).
Qed.

(** A node is below one node only among those that name the same parent. *)
Lemma below_siblings x c c' :
  siblings nodeMap c c' -> below nodeMap x c -> below nodeMap x c' -> c = c'.
Proof.
  intros (o & o' & Ho & Ho' & Epp) Hc Hc'.
  assert (Hup : forall a b oa ob,
             JsObject.getOwn nodeMap a = Some oa -> JsObject.getOwn nodeMap b = Some ob ->
             parentPath oa = parentPath ob -> below nodeMap a b -> a = b).
  { intros a b oa ob Ha Hb E Hab. inversion Hab as [|? oa' p ? Ha' Hp Hpb]; subst;
      [reflexivity|].
    assert (oa' = oa) by congruence. subst oa'. rewrite Hp in E. symmetry in E.
    destruct (Hparent b ob p Hb E) as [Hlen _].
    pose proof (below_length p b Hpb). lia. }
  destruct (below_linear x c c' Hc Hc') as [H|H].
  - exact (Hup c c' o o' Ho Ho' Epp H).
  - symmetry. exact (Hup c' c o' o Ho' Ho (eq_sym Epp) H).
Qed.

Lemma forest_NoDup fuel refs :
  forall cs,
    mapM (readNode fuel objs) refs = Some cs ->
    List.NoDup refs ->
    (forall r r', In r refs -> In r' refs -> siblings nodeMap r r') ->
    (forall r c, In r refs -> readNode fuel objs r = Some c -> readOk nodeMap r c) ->
    List.NoDup (map TreeNode.id (flat_map TreeBuilder.subtree cs)).
Proof.
  induction refs as [|r refs IH]; intros cs E Hnd Hsib Hok.
  - injection E as <-. constructor.
  - apply mapM_cons in E as (c & cs' & -> & Er & Ers). simpl. rewrite map_app.
    apply List.NoDup_cons_iff in Hnd as [Hr Hnd].
    destruct (Hok r c (or_introl eq_refl) Er) as (_ & Hc & Hbelow & _).
    apply List.NoDup_app.
    + exact Hc.
    + apply (IH cs' Ers Hnd).
      * intros r1 r2 H1 H2. apply Hsib; now right.
      * intros r1 c1 H1. apply Hok. now right.
    + intros x Hx Hx'. apply in_map_iff in Hx as (m & <- & Hm).
      apply in_map_iff in Hx' as (m' & E' & Hm').
      apply in_flat_map in Hm' as (c' & Hc' & Hm').
      destruct (mapM_In _ _ cs' Ers c' Hc') as (r' & Hr' & Er').
      destruct (Hok r' c' (or_intror Hr') Er') as (_ & _ & Hbelow' & _).
      destruct (Hbelow m Hm) as [Hb _]. destruct (Hbelow' m' Hm') as [Hb' _].
      rewrite E' in Hb'.
      assert (r = r').
      { apply (below_siblings (TreeNode.id m)); [|exact Hb|exact Hb'].
        apply Hsib; [now left|now right]. }
      subst r'. contradiction.
Qed.

Lemma isChild_siblings p r r' :
  isChild nodeMap p r = true -> isChild nodeMap p r' = true -> siblings nodeMap r r'.
Proof.
  unfold isChild, siblings.
  destruct (JsObject.getOwn nodeMap r) as [o|]; [|discriminate].
  destruct (JsObject.getOwn nodeMap r') as [o'|]; [|discriminate].
  destruct (parentPath o) as [q|] eqn:E; [|discriminate].
  destruct (parentPath o') as [q'|] eqn:E'; [|discriminate].
  intros H H'. apply String.eqb_eq in H, H'. subst. exists o, o'. repeat split. congruence.
Qed.

Lemma isRoot_siblings r r' :
  isRoot nodeMap r = true -> isRoot nodeMap r' = true -> siblings nodeMap r r'.
Proof.
  unfold isRoot, siblings.
  destruct (JsObject.getOwn nodeMap r) as [o|]; [|discriminate].
  destruct (JsObject.getOwn nodeMap r') as [o'|]; [|discriminate].
  destruct (parentPath o) as [q|] eqn:E; [discriminate|].
  destruct (parentPath o') as [q'|] eqn:E'; [discriminate|].
  intros _ _. exists o, o'. repeat split. congruence.
Qed.

Lemma isChild_parent p r :
  isChild nodeMap p r = true ->
  exists o, JsObject.getOwn nodeMap r = Some o /\ parentPath o = Some p.
Proof.
  unfold isChild. destruct (JsObject.getOwn nodeMap r) as [o|]; [|discriminate].
  destruct (parentPath o) as [q|] eqn:E; [|discriminate].
  intros H. apply String.eqb_eq in H. subst. exists o. now split.
Qed.

(** Every node that is read is as [readOk] says. *)
Lemma readNode_ok fuel :
  forall k node, readNode fuel objs k = Some node -> readOk nodeMap k node.
Proof.
  induction fuel as [|fuel IH]; intros k node; simpl; [discriminate|].
  rewrite (Hobjs k). destruct (JsObject.getOwn nodeMap k) as [o|] eqn:Ek; [|discriminate].
  simpl. destruct (children o) as [cs0|] eqn:Ec.
  - set (kids := List.filter (isChild nodeMap k) order).
    destruct (mapM (readNode fuel objs) kids) as [cs|] eqn:Ecs; [|discriminate].
    intros [= <-].
    assert (Hkid : forall r c, In r kids -> readNode fuel objs r = Some c ->
               readOk nodeMap r c /\ below nodeMap r k
               /\ String.length k < String.length r).
    { intros r c Hr Er. split; [now apply IH|].
      apply List.filter_In in Hr as [_ Hr]. apply isChild_parent in Hr as (oc & Hoc & Hpc).
      split; [exact (below_parent nodeMap r oc k k Hoc Hpc (below_self nodeMap k))|].
      now destruct (Hparent r oc k Hoc Hpc). }
    split; [exact (Hid k o Ek)|]. split; [|split].
    + unfold idsOf. simpl. rewrite (Hid k o Ek). apply List.NoDup_cons.
      * intros Hin. apply in_map_iff in Hin as (m & Em & Hm).
        apply in_flat_map in Hm as (c & Hc & Hm).
        destruct (mapM_In _ _ cs Ecs c Hc) as (r & Hr & Er).
        destruct (Hkid r c Hr Er) as ((_ & _ & Hb & _) & _ & Hlen).
        destruct (Hb m Hm) as [Hbelow _]. rewrite Em in Hbelow.
        pose proof (below_length _ _ Hbelow). lia.
      * apply (forest_NoDup fuel kids cs Ecs).
        -- now apply List.NoDup_filter.
        -- intros r r' Hr Hr'. apply List.filter_In in Hr as [_ Hr], Hr' as [_ Hr'].
           exact (isChild_siblings k r r' Hr Hr').
        -- intros r c Hr Er. now apply IH.
    + intros m [<-|Hm].
      * simpl. rewrite (Hid k o Ek). split; [apply below_self|]. exists o.
        split; [exact Ek|]. split; [reflexivity|]. split; [reflexivity|]. congruence.
      * apply in_flat_map in Hm as (c & Hc & Hm).
        destruct (mapM_In _ _ cs Ecs c Hc) as (r & Hr & Er).
        destruct (Hkid r c Hr Er) as ((_ & _ & Hb & _) & Hrk & _).
        destruct (Hb m Hm) as [Hbelow Ho]. split; [|exact Ho].
        exact (below_trans _ _ _ Hbelow Hrk).
    + intros x Hx. unfold idsOf. simpl. rewrite (Hid k o Ek).
      destruct (below_first x k Hx) as [->|(c & oc & Hc & Hpc & Hxc)]; [now left|]. right.
      assert (Hin : In c kids).
      { apply List.filter_In. split; [apply Hkeys; eauto|].
        unfold isChild. rewrite Hc, Hpc. apply String.eqb_refl. }
      destruct (mapM_find _ _ cs Ecs c Hin) as (node_c & Hnode & Er).
      destruct (IH c node_c Er) as (_ & _ & _ & Hall).
      specialize (Hall x Hxc). unfold idsOf in Hall.
      apply in_map_iff in Hall as (m & Em & Hm). apply in_map_iff. exists m.
      split; [exact Em|]. apply in_flat_map. now exists node_c.
  - intros [= <-]. split; [exact (Hid k o Ek)|]. split; [|split].
    + unfold idsOf. simpl. repeat constructor. intros [].
    + intros m [<-|[]]. simpl. rewrite (Hid k o Ek). split; [apply below_self|].
      exists o. repeat split. exact Ek.
    + intros x Hx. unfold idsOf. simpl. rewrite (Hid k o Ek).
      destruct (below_first x k Hx) as [->|(c & oc & Hc & Hpc & _)]; [now left|].
      destruct (Hparent c oc k Hc Hpc) as (_ & po & Hpo & Hcs). congruence.
Qed.

(** Every node names a chain of parents that ends in a root. *)
Lemma root_above n :
  forall x o, String.length x <= n -> JsObject.getOwn nodeMap x = Some o ->
    exists r, below nodeMap x r /\ In r (List.filter (isRoot nodeMap) order).
Proof.
  induction n as [|n IH]; intros x o Hn Hx.
  - exists x. split; [apply below_self|]. apply List.filter_In.
    split; [apply Hkeys; eauto|]. unfold isRoot. rewrite Hx.
    destruct (parentPath o) as [p|] eqn:Ep; [|reflexivity].
    destruct (Hparent x o p Hx Ep) as [Hlen _]. lia.
  - destruct (parentPath o) as [p|] eqn:Ep.
    + destruct (Hparent x o p Hx Ep) as (Hlen & po & Hpo & _).
      destruct (IH p po ltac:(lia) Hpo) as (r & Hr & Hroot).
      exists r. split; [exact (below_parent nodeMap x o p r Hx Ep Hr)|exact Hroot].
    + exists x. split; [apply below_self|]. apply List.filter_In.
      split; [apply Hkeys; eauto|]. unfold isRoot. now rewrite Hx, Ep.
Qed.

(** The forest read from [rootNodes] holds every object once. *)
Lemma forest_ok fuel forest :
  mapM (readNode fuel objs) (List.filter (isRoot nodeMap) order) = Some forest ->
  List.NoDup (map TreeNode.id (TreeBuilder.nodesOf forest))
  /\ (forall m, In m (TreeBuilder.nodesOf forest) ->
        exists o, JsObject.getOwn nodeMap (TreeNode.id m) = Some o
                  /\ TreeNode.type m = type o
                  /\ TreeNode.variableId m = variableId o
                  /\ (children o = None -> TreeNode.children m = None))
  /\ (forall k o, JsObject.getOwn nodeMap k = Some o ->
        In k (map TreeNode.id (TreeBuilder.nodesOf forest))).
Proof.
  intros E. split; [|split].
  - apply (forest_NoDup fuel _ forest E).
    + now apply List.NoDup_filter.
    + intros r r' Hr Hr'. apply List.filter_In in Hr as [_ Hr], Hr' as [_ Hr'].
      exact (isRoot_siblings r r' Hr Hr').
    + intros r c _. apply readNode_ok.
  - intros m Hm. apply in_flat_map in Hm as (c & Hc & Hm).
    destruct (mapM_In _ _ forest E c Hc) as (r & _ & Er).
    destruct (readNode_ok fuel r c Er) as (_ & _ & Hb & _). now destruct (Hb m Hm).
  - intros k o Hk. destruct (root_above (String.length k) k o (le_n _) Hk) as (r & Hr & Hroot).
    destruct (mapM_find _ _ forest E r Hroot) as (c & Hc & Er).
    destruct (readNode_ok fuel r c Er) as (_ & _ & _ & Hall).
    specialize (Hall k Hr). unfold idsOf in Hall.
    apply in_map_iff in Hall as (m & Em & Hm). apply in_map_iff. exists m.
    split; [exact Em|]. apply in_flat_map. now exists c.
Qed.

End ReadBack.

Lemma leaves_filter (forest : Forest) :
  flat_map TreeBuilder.leavesOf forest
  = List.filter TreeNode.isVariable (TreeBuilder.nodesOf forest).
Proof.
  unfold TreeBuilder.nodesOf. induction forest as [|c r IH]; simpl; [reflexivity|].
  now rewrite List.filter_app, leavesOf_filter, IH.
Qed.

Lemma NoDup_map_filter {A B} (f : A -> B) (p : A -> bool) (l : list A) :
  List.NoDup (map f l) -> List.NoDup (map f (List.filter p l)).
Proof.
  induction l as [|x r IH]; simpl; intros H; [constructor|].
  apply List.NoDup_cons_iff in H as [Hx Hr]. destruct (p x); simpl; [|now apply IH].
  apply List.NoDup_cons; [|now apply IH]. intros Hin. apply Hx.
  apply in_map_iff in Hin as (y & E & Hy). apply List.filter_In in Hy as [Hy _].
  apply in_map_iff. now exists y.
Qed.

Lemma built_start variables : built variables [] [].
Proof.
  split; [constructor|]. split; [intros v []|]. intros k o [=].
Qed.

(** The forest of [buildTree] on well-formed names: every object of
    [nodeMap] once, each with its type and its variable. *)
Lemma buildTree_nodes (variables : list VariableData.t) :
  forallb wellFormed variables = true ->
  List.NoDup (map stringName variables) ->
  (forall v w, In v variables -> In w variables ->
     ~ In (stringName v) (groupPaths (stringName w))) ->
  exists nodeMap forest,
    buildTree variables = Js.normal (Some forest)
    /\ built variables variables nodeMap
    /\ List.NoDup (map TreeNode.id (TreeBuilder.nodesOf forest))
    /\ (forall m, In m (TreeBuilder.nodesOf forest) ->
          exists o, JsObject.getOwn nodeMap (TreeNode.id m) = Some o
                    /\ TreeNode.type m = type o
                    /\ TreeNode.variableId m = variableId o
                    /\ (children o = None -> TreeNode.children m = None))
    /\ (forall k o, JsObject.getOwn nodeMap k = Some o ->
          In k (map TreeNode.id (TreeBuilder.nodesOf forest))).
Proof.
  intros Hwf Hnodup Hfree.
  destruct (firstPass_built variables Hwf Hnodup Hfree variables [] [] eq_refl
              (built_start variables)) as (nodeMap & Efirst & Hb).
  assert (Hstart : unlinked []) by (intros k o [=]).
  destruct (firstPass_returns variables [] Hstart) as (nodeMap' & Efirst' & Hf).
  assert (nodeMap' = nodeMap) by congruence. subst nodeMap'. clear Efirst'.
  pose proof (secondPass_linked nodeMap Hf) as Hl.
  pose proof Hb as (Hkeys & Hleaves & Hnodes).
  assert (Hshape : forall k o, JsObject.getOwn nodeMap k = Some o ->
            (children o = None \/ children o = Some [])
            /\ forall p, parentPath o = Some p ->
                 Js.truthy p = true
                 /\ exists po, JsObject.getOwn nodeMap p = Some po /\ children po = Some []).
  { intros k o Hk. destruct (Hnodes k o Hk) as (_ & Hp & Hkind). split.
    - destruct Hkind as [(v & _ & _ & _ & _ & Hc)|(_ & Hc & _)]; [now left|now right].
    - intros p Ep. destruct (Hp p Ep) as (Ht & _ & Hpo). now split. }
  destruct (secondPass_linkedUpTo nodeMap Hshape) as (Hroots & Hobjs).
  set (st := secondPass nodeMap) in *.
  destruct (mapM_all (readNode (depthBound (objects st)) (objects st)) (rootNodes st))
    as [forest Eforest].
  { intros r Hr. destruct Hl as (Hok & Hrefs & Hrs). destruct (Hrs r Hr) as [o Ho].
    apply (readNode_returns _ (conj Hok (conj Hrefs Hrs)) _ r o Ho). lia. }
  exists nodeMap, forest. split.
  { unfold buildTree. rewrite Efirst. fold st. now rewrite Eforest. }
  split; [exact Hb|].
  rewrite Hroots in Eforest.
  apply (forest_ok nodeMap (JsObject.forInKeys nodeMap) (objects st)) with
    (fuel := depthBound (objects st)); auto.
  - intros k o p Hk Ep. destruct (Hnodes k o Hk) as (_ & Hp & _).
    destruct (Hp p Ep) as (_ & Hlen & Hpo). now split.
  - intros k o Hk. now destruct (Hnodes k o Hk).
  - apply (Permutation_NoDup (Permutation_sym (forInKeys_Permutation nodeMap)) Hkeys).
  - intros k. split.
    + intros Hk. apply key_getOwn.
      exact (Permutation_in k (forInKeys_Permutation nodeMap) Hk).
    + intros [o Ho]. apply getOwn_key in Ho.
      exact (Permutation_in k (Permutation_sym (forInKeys_Permutation nodeMap)) Ho).
Qed.

End LeafFacts.

(** In code.js, when every name is a string without an empty or blank
    segment, no path of a name reads as a property of [Object.prototype],
    the names differ from one another and none of them is the path of a
    group of another, [buildTree] returns a forest whose variable leaves
    are, up to their order, the variables: one leaf for each, under the id
    that is the variable's name and with its variable id; and the nodes of
    type variable have no [children]. *)
Theorem codeJs_buildTree_one_leaf_per_variable (variables : list VariableData.t) :
  forallb CodeJs.wellFormed variables = true ->
  List.NoDup (map CodeJs.stringName variables) ->
  (forall v w, In v variables -> In w variables ->
     ~ In (CodeJs.stringName v) (CodeJs.groupPaths (CodeJs.stringName w))) ->
  exists forest,
    CodeJs.buildTree variables = Js.normal (Some forest)
    /\ Permutation
         (map (fun leaf => (TreeNode.id leaf, TreeNode.variableId leaf))
            (flat_map TreeBuilder.leavesOf forest))
         (map (fun v => (CodeJs.stringName v, Some (VariableData.id v))) variables)
    /\ (forall m, In m (TreeBuilder.nodesOf forest) ->
          TreeNode.type m = TreeNode.variable -> TreeNode.children m = None).
Proof.
  intros Hwf Hnodup Hfree.
  destruct (LeafFacts.buildTree_nodes variables Hwf Hnodup Hfree)
    as (nodeMap & forest & Ebuild & (Hkeys & Hleaves & Hnodes) & Hids & Hobj & Hall).
  exists forest. split; [exact Ebuild|].
  assert (Hleaf : forall m, In m (TreeBuilder.nodesOf forest) ->
            TreeNode.type m = TreeNode.variable ->
            TreeNode.children m = None
            /\ exists v, In v variables /\ TreeNode.id m = CodeJs.stringName v
                         /\ TreeNode.variableId m = Some (VariableData.id v)).
  { intros m Hm Hty. destruct (Hobj m Hm) as (o & Ho & Et & Ev & Hc).
    destruct (Hnodes _ o Ho) as (_ & _ & [(v & Hv & E & _ & Hvid & Hcs)|(Hg & _)]).
    - split; [now apply Hc|]. exists v. split; [exact Hv|]. split; [exact E|]. congruence.
    - congruence. }
  split; [|intros m Hm Hty; now destruct (Hleaf m Hm Hty)].
  rewrite LeafFacts.leaves_filter.
  apply Permutation.NoDup_Permutation.
  - apply (List.NoDup_map_inv fst). rewrite map_map. simpl.
    now apply LeafFacts.NoDup_map_filter.
  - apply (List.NoDup_map_inv fst). rewrite map_map. simpl. exact Hnodup.
  - intros [k vid]. rewrite !in_map_iff. split.
    + intros (m & [= <- <-] & Hm). apply List.filter_In in Hm as [Hm Hvar].
      assert (Hty : TreeNode.type m = TreeNode.variable).
      { unfold TreeNode.isVariable in Hvar. now destruct (TreeNode.type m). }
      destruct (Hleaf m Hm Hty) as (_ & v & Hv & E & Evid). exists v.
      split; [|exact Hv]. now rewrite E, Evid.
    + intros (v & [= <- <-] & Hv).
      destruct (Hleaves v Hv) as (o & Ho & Hty & Hvid & _).
      pose proof (Hall _ o Ho) as Hin. apply in_map_iff in Hin as (m & Em & Hm).
      destruct (Hobj m Hm) as (o' & Ho' & Et & Ev & _).
      rewrite Em in Ho'. assert (o' = o) by congruence. subst o'.
      exists m. split; [now rewrite Em, Ev, Hvid|].
      apply List.filter_In. split; [exact Hm|].
      unfold TreeNode.isVariable. now rewrite Et, Hty.
Qed.

(** The three names of the scenario: one leaf for each. *)
Lemma codeJs_buildTree_one_leaf_per_variable_witness :
  exists forest,
    CodeJs.buildTree Sample.scenario = Js.normal (Some forest)
    /\ Permutation
         (map (fun leaf => (TreeNode.id leaf, TreeNode.variableId leaf))
            (flat_map TreeBuilder.leavesOf forest))
         [ ("color/bg/default", Some "v1"); ("color/bg/hover", Some "v2");
           ("color/fg", Some "v3") ]
    /\ (forall m, In m (TreeBuilder.nodesOf forest) ->
          TreeNode.type m = TreeNode.variable -> TreeNode.children m = None).
Proof.
  apply (codeJs_buildTree_one_leaf_per_variable Sample.scenario eq_refl).
  - repeat constructor; simpl; intuition discriminate.
  - intros v w [<-|[<-|[<-|[]]]] [<-|[<-|[<-|[]]]]; vm_compute; intuition discriminate.
Defined.

(** A name that reads as a property of [Object.prototype] gets no node:
    [nodeMap[currentPath]] is truthy before anything is stored. *)
Example codeJs_buildTree_inherited_name :
  CodeJs.buildTree [Sample.variableNamed "v1" "toString"] = Js.normal (Some []).
Proof. reflexivity. Qed.

(** ** validateModeCompatibility *)

Module ModeFacts.
Import CodeJs.

Lemma compareNames_some i source target e :
  compareNames i source target = Some e ->
  exists j a b, source !! j = Some a /\ target !! j = Some b
                /\ Figma.Mode.name a <> Figma.Mode.name b.
Proof.
  revert i target. induction source as [|a source IH]; intros i [|b target]; simpl;
    try discriminate.
  destruct (String.eqb_spec (Figma.Mode.name a) (Figma.Mode.name b)) as [_|Hne].
  - intros H. destruct (IH _ _ H) as (j & a' & b' & Ha & Hb & Hn).
    now exists (S j), a', b'.
  - intros _. now exists 0, a, b.
Qed.

Lemma compareNames_none i source target :
  compareNames i source target = None ->
  forall j a b, source !! j = Some a -> target !! j = Some b ->
                Figma.Mode.name a = Figma.Mode.name b.
Proof.
  revert i target. induction source as [|a source IH]; intros i [|b target]; simpl;
    intros H j a' b' Ha Hb; try (destruct j; discriminate).
  destruct (String.eqb_spec (Figma.Mode.name a) (Figma.Mode.name b)) as [E|_];
    [|discriminate].
  destruct j as [|j]; simpl in Ha, Hb.
  - injection Ha as <-. injection Hb as <-. exact E.
  - exact (IH _ _ H j a' b' Ha Hb).
Qed.

(** A key that is no source mode id keeps what the mapping had for it. *)
Lemma fillMapping_other source :
  forall target m k,
    k ∉ map Figma.Mode.modeId source -> fillMapping m source target !! k = m !! k.
Proof.
  induction source as [|a source IH]; intros [|b target] m k Hk; simpl; try reflexivity.
  rewrite IH.
  - apply lookup_insert_ne. intros E. apply Hk. simpl. rewrite E. left.
  - intros Hin. apply Hk. simpl. now right.
Qed.

Lemma fillMapping_position source :
  forall target m i a b,
    NoDup (map Figma.Mode.modeId source) ->
    source !! i = Some a -> target !! i = Some b ->
    fillMapping m source target !! Figma.Mode.modeId a = Some (Figma.Mode.modeId b).
Proof.
  induction source as [|a0 source IH]; intros [|b0 target] m i a b Hnd Ha Hb;
    try (destruct i; discriminate).
  simpl in Hnd. apply NoDup_cons in Hnd as [Hnotin Hnd].
  destruct i as [|i]; simpl in *.
  - injection Ha as <-. injection Hb as <-.
    rewrite fillMapping_other by exact Hnotin. apply lookup_insert_eq.
  - exact (IH target _ i a b Hnd Ha Hb).
Qed.

Lemma fillMapping_keys source :
  forall target m k,
    length source = length target ->
    (is_Some (fillMapping m source target !! k)
     <-> is_Some (m !! k) \/ k ∈ map Figma.Mode.modeId source).
Proof.
  induction source as [|a source IH]; intros [|b target] m k Hlen; simpl in *;
    try discriminate.
  - rewrite elem_of_nil. tauto.
  - rewrite IH by lia. rewrite elem_of_cons.
    destruct (decide (Figma.Mode.modeId a = k)) as [<-|Hne].
    + rewrite lookup_insert_eq. split; [intros _; right; now left|intros _; left; eauto].
    + rewrite lookup_insert_ne by exact Hne. split.
      * intros [H|H]; [now left|right; now right].
      * intros [H|[H|H]]; [now left|congruence|now right].
Qed.

Lemma modeId_position (l : list Figma.Mode.t) k :
  k ∈ map Figma.Mode.modeId l -> exists i a, l !! i = Some a /\ Figma.Mode.modeId a = k.
Proof.
  intros H. apply list_elem_of_lookup in H as [i Hi].
  change (map Figma.Mode.modeId l) with (Figma.Mode.modeId <$> l) in Hi.
  rewrite list_lookup_fmap in Hi. destruct (l !! i) as [a|] eqn:E; [|discriminate].
  injection Hi as <-. now exists i, a.
Qed.

Lemma compatible_sound source target modeMapping :
  validateModeCompatibility source target = compatible modeMapping ->
  modeCompatible source target.
Proof.
  unfold validateModeCompatibility, modeCompatible.
  destruct (Nat.eqb_spec (length (Figma.VariableCollection.modes source))
              (length (Figma.VariableCollection.modes target))) as [Hlen|Hlen]; simpl;
    [|discriminate].
  destruct (compareNames 0 _ _) as [e|] eqn:E; [discriminate|].
  intros _. split; [exact Hlen|exact (compareNames_none _ _ _ E)].
Qed.

Lemma compatible_complete source target :
  modeCompatible source target ->
  exists modeMapping, validateModeCompatibility source target = compatible modeMapping.
Proof.
  unfold validateModeCompatibility, modeCompatible. intros [Hlen Hnames].
  rewrite Hlen, Nat.eqb_refl. simpl.
  destruct (compareNames 0 _ _) as [e|] eqn:E; [|eauto].
  apply compareNames_some in E as (j & a & b & Ha & Hb & Hn).
  destruct Hn. exact (Hnames j a b Ha Hb).
Qed.

End ModeFacts.



(** ** The store *)

Module StoreFacts.

Lemma candidateId_inj n m : Figma.candidateId n = Figma.candidateId m -> n = m.
Proof.
  unfold Figma.candidateId. intros H.
  apply (inj (String.append "VariableID:new:")) in H. exact (inj pretty _ _ H).
Qed.

Lemma candidates_NoDup n : NoDup (map Figma.candidateId (seq 0 n)).
Proof.
  change (map Figma.candidateId (seq 0 n)) with (Figma.candidateId <$> seq 0 n).
  apply NoDup_fmap_2; [intros x y; apply candidateId_inj|apply NoDup_seq].
Qed.

(** The id of a new variable is the id of no variable of the store. *)
Lemma freshId_fresh (vars : gmap string Figma.FigmaVariable.t) :
  vars !! Figma.freshId vars = None.
Proof.
  unfold Figma.freshId.
  destruct (find _ _) as [k|] eqn:E.
  - apply find_some in E as [_ E]. now apply bool_decide_eq_true in E.
  - exfalso.
    set (candidates := map Figma.candidateId (seq 0 (S (size vars)))) in *.
    assert (Hsub : (list_to_set candidates : gset string) ⊆ dom vars).
    { intros k Hk. apply elem_of_list_to_set in Hk. apply list_elem_of_In in Hk.
      pose proof (find_none _ _ E k Hk) as Hb. apply bool_decide_eq_false in Hb.
      apply elem_of_dom. destruct (vars !! k); [eauto|congruence]. }
    apply subseteq_size in Hsub.
    rewrite size_list_to_set in Hsub by apply candidates_NoDup.
    rewrite size_dom in Hsub. unfold candidates in Hsub.
    rewrite length_map, length_seq in Hsub. lia.
Qed.

End StoreFacts.

(** ** swapVariableCollection *)

Module SwapFacts.

Lemma find_found {A} (f : A -> bool) (l : list A) (x : A) :
  In x l -> f x = true -> exists y, find f l = Some y.
Proof.
  intros Hx Hf. destruct (find f l) as [y|] eqn:E; [eauto|].
  pose proof (find_none f l E x Hx). congruence.
Qed.

Lemma sameName_toVariableData name member :
  Figma.FigmaVariable.name member = name ->
  CodeJs.sameName name (CodeJs.toVariableData member) = true.
Proof. intros <-. unfold CodeJs.sameName. simpl. apply String.eqb_refl. Qed.

(** The duplicate check of code.js finds a member of that name, unless the
    name is empty. *)
Lemma codeJs_duplicate_found s targetCollectionId targetCollection name :
  Figma.getVariableCollectionByIdAsync s targetCollectionId = Some targetCollection ->
  Figma.holdsName s targetCollection name ->
  Js.truthy name = true ->
  exists v, find (CodeJs.sameName name)
              (CodeJs.getVariablesByCollection targetCollectionId s) = Some v.
Proof.
  intros Hc (memberId & member & Hin & Hget & Hname) Ht.
  apply (find_found _ _ (CodeJs.toVariableData member));
    [|now apply sameName_toVariableData].
  unfold CodeJs.getVariablesByCollection. rewrite Hc.
  apply in_map. apply in_flat_map. exists (Some member). split.
  - apply in_map_iff. now exists memberId.
  - rewrite Hname, Ht. now left.
Qed.

(** The duplicate check of variablesService.ts finds a member of that name. *)
Lemma service_duplicate_found s targetCollectionId targetCollection name :
  Figma.getVariableCollectionByIdAsync s targetCollectionId = Some targetCollection ->
  Figma.holdsName s targetCollection name ->
  exists v, find (CodeJs.sameName name)
              (VariablesService.getVariablesByCollection targetCollectionId s) = Some v.
Proof.
  intros Hc (memberId & member & Hin & Hget & Hname).
  apply (find_found _ _ (CodeJs.toVariableData member));
    [|now apply sameName_toVariableData].
  unfold VariablesService.getVariablesByCollection. rewrite Hc.
  apply in_flat_map. exists memberId. split; [exact Hin|]. rewrite Hget. now left.
Qed.

(** What the duplicate check of variablesService.ts finds is a member of
    that name. *)
Lemma service_duplicate_sound s targetCollectionId targetCollection name v :
  Figma.getVariableCollectionByIdAsync s targetCollectionId = Some targetCollection ->
  find (CodeJs.sameName name)
    (VariablesService.getVariablesByCollection targetCollectionId s) = Some v ->
  Figma.holdsName s targetCollection name.
Proof.
  intros Hc Hfind. apply find_some in Hfind as [Hin Hsame].
  unfold VariablesService.getVariablesByCollection in Hin. rewrite Hc in Hin.
  apply in_flat_map in Hin as (memberId & Hmember & Hin).
  destruct (Figma.getVariableByIdAsync s memberId) as [member|] eqn:Hget; [|destruct Hin].
  destruct Hin as [<-|[]]. exists memberId, member.
  split; [exact Hmember|]. split; [exact Hget|].
  unfold CodeJs.sameName in Hsame. simpl in Hsame. now apply String.eqb_eq in Hsame.
Qed.

Lemma transferValues_writes modeMapping newId values :
  forall s,
    Figma.writes (CodeJs.transferValues modeMapping newId values s)
    = (Figma.writes s ++ flat_map (CodeJs.transferOf modeMapping newId) values)%list.
Proof.
  unfold CodeJs.transferValues.
  induction values as [|e values IH]; intros s; simpl.
  - now rewrite app_nil_r.
  - rewrite IH. unfold CodeJs.transferOf at 2.
    destruct (CodeJs.readMapping modeMapping (fst e)) as [targetModeId| |];
      [| |reflexivity].
    + destruct (Js.truthy targetModeId); [|reflexivity].
      simpl. now rewrite <- app_assoc.
    + simpl. now rewrite <- app_assoc.
Qed.

End SwapFacts.

(** C2 (as amended). In code.js, when the variable and both collections
    resolve and the collections are not mode-compatible,
    [swapVariableCollection] throws the incompatible-modes error and leaves
    the store as it was: nothing is created, nothing is removed, no write
    reaches the store. In variablesService.ts the call takes no source
    collection and compares no modes: it never throws that error, and when
    the target holds no variable of the name and has a mode, it returns,
    with the variable created in the target and the source removed. *)
Theorem swapVariableCollection_incompatible_modes
    (s : Figma.Store) (variableId sourceCollectionId targetCollectionId : string)
    (variable : Figma.FigmaVariable.t)
    (sourceCollection targetCollection : Figma.VariableCollection.t) :
  Figma.getVariableByIdAsync s variableId = Some variable ->
  Figma.getVariableCollectionByIdAsync s sourceCollectionId = Some sourceCollection ->
  Figma.getVariableCollectionByIdAsync s targetCollectionId = Some targetCollection ->
  ~ CodeJs.modeCompatible sourceCollection targetCollection ->
  (exists detail,
     CodeJs.swapVariableCollection variableId sourceCollectionId targetCollectionId s
     = (Js.throw (Js.Error (incompatibleModes detail)), s))
  /\ (forall detail,
        fst (VariablesService.swapVariableCollection variableId targetCollectionId s)
        <> Js.throw (Js.Error (incompatibleModes detail)))
  /\ (~ Figma.holdsName s targetCollection (Figma.FigmaVariable.name variable) ->
      Figma.VariableCollection.modes targetCollection <> [] ->
      exists s' values,
        VariablesService.swapVariableCollection variableId targetCollectionId s
        = (Js.normal tt, s')
        /\ Figma.getVariableByIdAsync s' variableId = None
        /\ Figma.getVariableByIdAsync s' (Figma.freshId (Figma.variables s))
           = Some (Figma.FigmaVariable.make (Figma.freshId (Figma.variables s))
                     (Figma.FigmaVariable.name variable)
                     (Figma.FigmaVariable.resolvedType variable) targetCollectionId
                     values)).
Proof.
  intros Hv Hs Ht Hno. split; [|split].
  - unfold CodeJs.swapVariableCollection. rewrite Hv, Hs, Ht.
    destruct (CodeJs.validateModeCompatibility sourceCollection targetCollection)
      as [detail|modeMapping] eqn:E; [eauto|].
    destruct Hno. exact (ModeFacts.compatible_sound _ _ _ E).
  - intros detail. unfold VariablesService.swapVariableCollection. rewrite Hv, Ht.
    destruct (find _ _); [discriminate|].
    unfold Figma.createVariable. simpl.
    destruct (Figma.VariableCollection.modes targetCollection); discriminate.
  - intros Hfree Hmodes. unfold VariablesService.swapVariableCollection. rewrite Hv, Ht.
    destruct (find _ _) as [v|] eqn:Efind.
    { destruct Hfree. exact (SwapFacts.service_duplicate_sound _ _ _ _ _ Ht Efind). }
    unfold Figma.createVariable. simpl.
    destruct (Figma.VariableCollection.modes targetCollection) as [|firstMode rest];
      [congruence|].
    assert (Hne : Figma.freshId (Figma.variables s) <> variableId).
    { intros E. pose proof (StoreFacts.freshId_fresh (Figma.variables s)) as Hf.
      rewrite E in Hf. unfold Figma.getVariableByIdAsync in Hv. congruence. }
    unfold Figma.getVariableByIdAsync, Figma.remove.
    destruct (map snd (Figma.FigmaVariable.valuesByMode variable)) as [|value values];
      eexists; eexists; (split; [reflexivity|]); simpl;
      (split; [apply lookup_delete_eq|]); rewrite lookup_delete_ne by congruence.
    + apply lookup_insert_eq.
    + rewrite lookup_alter_eq, lookup_insert_eq. reflexivity.
Qed.

(** C2: the call that moves [bg] from [themes] (Light, Dark) to [plain]
    (Default) in the sample store. *)
Lemma swapVariableCollection_incompatible_modes_witness :
  exists detail,
    CodeJs.swapVariableCollection "bg" "themes" "plain" Sample.store
    = (Js.throw (Js.Error (incompatibleModes detail)), Sample.store).
Proof.
  refine (proj1 (swapVariableCollection_incompatible_modes Sample.store "bg" "themes"
                   "plain"
                   (Figma.FigmaVariable.make "bg" "color/bg" COLOR "themes"
                      [("1:0", Sample.red); ("1:1", Sample.blue)])
                   (Figma.VariableCollection.make "themes" "Themes"
                      [Sample.light; Sample.dark] ["bg"; "fg"])
                   (Figma.VariableCollection.make "plain" "Plain" [Sample.single]
                      ["plain-bg"])
                   eq_refl eq_refl eq_refl _)).
  intros [Hlen _]. discriminate Hlen.
Defined.

(** C2 as it was stated: [fg] is in [themes] (Light, Dark), [plain] has the
    one mode Default, so the two are not mode-compatible; yet
    [swapVariableCollection] of variablesService.ts returns, the source is
    gone and the new variable is in [plain]. *)
Lemma service_swap_ignores_modes :
  let source :=
    Figma.VariableCollection.make "themes" "Themes" [Sample.light; Sample.dark]
      ["bg"; "fg"] in
  let target := Figma.VariableCollection.make "plain" "Plain" [Sample.single] ["plain-bg"] in
  let s' := snd (VariablesService.swapVariableCollection "fg" "plain" Sample.store) in
  Figma.getVariableByIdAsync Sample.store "fg"
  = Some (Figma.FigmaVariable.make "fg" "color/fg" COLOR "themes"
            [("1:0", Sample.blue); ("1:1", Sample.red)])
  /\ Figma.getVariableCollectionByIdAsync Sample.store "themes" = Some source
  /\ Figma.getVariableCollectionByIdAsync Sample.store "plain" = Some target
  /\ ~ CodeJs.modeCompatible source target
  /\ fst (VariablesService.swapVariableCollection "fg" "plain" Sample.store) = Js.normal tt
  /\ Figma.getVariableByIdAsync s' "fg" = None
  /\ Figma.getVariableByIdAsync s' "VariableID:new:0"
     = Some (Figma.FigmaVariable.make "VariableID:new:0" "color/fg" COLOR "plain"
               [("3:0", Sample.blue)])
  /\ Figma.writes s'
     = [ Figma.created "color/fg" "plain" COLOR "VariableID:new:0";
         Figma.valueSet "VariableID:new:0" "3:0" Sample.blue;
         Figma.removed "fg" ].
Proof.
  repeat split. intros [Hlen _]. discriminate Hlen.
Qed.

(** C3 (as amended). When the variable and the target collection resolve and
    the target holds a variable of the same name, variablesService.ts throws
    the duplicate-name error and leaves the store as it was. So does code.js
    once its earlier steps have passed: the source collection resolves, the
    two collections are mode-compatible, and the name is not empty. *)
Theorem swapVariableCollection_duplicate_name
    (s : Figma.Store) (variableId targetCollectionId : string)
    (variable : Figma.FigmaVariable.t) (targetCollection : Figma.VariableCollection.t) :
  Figma.getVariableByIdAsync s variableId = Some variable ->
  Figma.getVariableCollectionByIdAsync s targetCollectionId = Some targetCollection ->
  Figma.holdsName s targetCollection (Figma.FigmaVariable.name variable) ->
  let duplicate :=
    Js.Error (duplicateName (Figma.FigmaVariable.name variable)
                (Figma.VariableCollection.name targetCollection)) in
  VariablesService.swapVariableCollection variableId targetCollectionId s
  = (Js.throw duplicate, s)
  /\ (forall sourceCollectionId sourceCollection,
        Figma.getVariableCollectionByIdAsync s sourceCollectionId = Some sourceCollection ->
        CodeJs.modeCompatible sourceCollection targetCollection ->
        Js.truthy (Figma.FigmaVariable.name variable) = true ->
        CodeJs.swapVariableCollection variableId sourceCollectionId targetCollectionId s
        = (Js.throw duplicate, s)).
Proof.
  intros Hv Ht Hdup duplicate. split.
  - unfold VariablesService.swapVariableCollection. rewrite Hv, Ht.
    destruct (SwapFacts.service_duplicate_found s _ _ _ Ht Hdup) as [v ->]. reflexivity.
  - intros sourceCollectionId sourceCollection Hs Hcompat Hname.
    unfold CodeJs.swapVariableCollection. rewrite Hv, Hs, Ht.
    destruct (ModeFacts.compatible_complete _ _ Hcompat) as [modeMapping ->].
    destruct (SwapFacts.codeJs_duplicate_found s _ _ _ Ht Hdup Hname) as [v ->]. reflexivity.
Qed.

(** C3: moving [bg] from [themes] to [brand], which has the same modes and
    holds a variable of the same name. *)
Lemma swapVariableCollection_duplicate_name_witness :
  CodeJs.swapVariableCollection "bg" "themes" "brand" Sample.store
  = (Js.throw (Js.Error (duplicateName "color/bg" "Brand")), Sample.store).
Proof.
  refine (proj2 (swapVariableCollection_duplicate_name Sample.store "bg" "brand"
                   (Figma.FigmaVariable.make "bg" "color/bg" COLOR "themes"
                      [("1:0", Sample.red); ("1:1", Sample.blue)])
                   (Figma.VariableCollection.make "brand" "Brand"
                      [Sample.light'; Sample.dark'] ["brand-bg"])
                   eq_refl eq_refl _)
                "themes"
                (Figma.VariableCollection.make "themes" "Themes" [Sample.light; Sample.dark]
                   ["bg"; "fg"])
                eq_refl _ eq_refl).
  - exists "brand-bg", (Figma.FigmaVariable.make "brand-bg" "color/bg" COLOR "brand" []).
    split; [now left|]. split; reflexivity.
  - split; [reflexivity|]. intros [|[|i]] a b Ha Hb; try discriminate.
    + injection Ha as <-. injection Hb as <-. reflexivity.
    + injection Ha as <-. injection Hb as <-. reflexivity.
Defined.

(** C3 as it was stated: the target holds a variable of the same name, yet
    code.js throws the incompatible-modes error, because it compares the
    modes before it looks for a duplicate. *)
Lemma swapVariableCollection_duplicate_after_modes :
  Figma.holdsName Sample.store
    (Figma.VariableCollection.make "plain" "Plain" [Sample.single] ["plain-bg"]) "color/bg"
  /\ Figma.getVariableCollectionByIdAsync Sample.store "plain"
     = Some (Figma.VariableCollection.make "plain" "Plain" [Sample.single] ["plain-bg"])
  /\ CodeJs.swapVariableCollection "bg" "themes" "plain" Sample.store
     = (Js.throw (Js.Error (incompatibleModes (countMismatch 2 1))), Sample.store).
Proof.
  split; [|split; reflexivity].
  exists "plain-bg", (Figma.FigmaVariable.make "plain-bg" "color/bg" COLOR "plain" []).
  split; [now left|]. split; reflexivity.
Qed.

(** C10. A call of [swapVariableCollection] of variablesService.ts that
    returns has written to the store exactly this: the creation of the new
    variable, then at most one value, namely the first value of the source's
    [valuesByMode] set for the first mode of the target collection, then the
    removal of the source. In the store it leaves, the new variable holds
    that one value and no other (none when the source had none), and the
    source is gone. Nothing is asked of the number of source modes or of the
    modes of the two collections. *)
Theorem service_swap_transfers_first_value
    (s s' : Figma.Store) (variableId targetCollectionId : string)
    (variable : Figma.FigmaVariable.t) (targetCollection : Figma.VariableCollection.t) :
  Figma.getVariableByIdAsync s variableId = Some variable ->
  Figma.getVariableCollectionByIdAsync s targetCollectionId = Some targetCollection ->
  VariablesService.swapVariableCollection variableId targetCollectionId s
  = (Js.normal tt, s') ->
  exists newId firstMode,
    head (Figma.VariableCollection.modes targetCollection) = Some firstMode
    /\ Figma.writes s'
       = (Figma.writes s
          ++ [Figma.created (Figma.FigmaVariable.name variable) targetCollectionId
                (Figma.FigmaVariable.resolvedType variable) newId]
          ++ match Figma.FigmaVariable.valuesByMode variable with
             | (_, value) :: _ => [Figma.valueSet newId (Figma.Mode.modeId firstMode) value]
             | [] => []
             end
          ++ [Figma.removed variableId])%list
    /\ Figma.getVariableByIdAsync s' newId
       = Some (Figma.FigmaVariable.make newId (Figma.FigmaVariable.name variable)
                 (Figma.FigmaVariable.resolvedType variable) targetCollectionId
                 match Figma.FigmaVariable.valuesByMode variable with
                 | (_, value) :: _ => [(Figma.Mode.modeId firstMode, value)]
                 | [] => []
                 end)
    /\ Figma.getVariableByIdAsync s' variableId = None.
Proof.
  intros Hv Ht. unfold VariablesService.swapVariableCollection. rewrite Hv, Ht.
  destruct (find _ _); [discriminate|].
  unfold Figma.createVariable. simpl.
  destruct (Figma.VariableCollection.modes targetCollection) as [|firstMode rest];
    [discriminate|].
  intros [= <-]. set (newId := Figma.freshId (Figma.variables s)).
  assert (Hne : newId <> variableId).
  { intros E. pose proof (StoreFacts.freshId_fresh (Figma.variables s)) as Hf.
    fold newId in Hf. rewrite E in Hf. unfold Figma.getVariableByIdAsync in Hv. congruence. }
  exists newId, firstMode. split; [reflexivity|].
  unfold Figma.getVariableByIdAsync.
  destruct (Figma.FigmaVariable.valuesByMode variable) as [|[k value] values]; simpl.
  - split; [now rewrite <- app_assoc|]. split.
    + rewrite lookup_delete_ne by (intros E; now apply Hne). apply lookup_insert_eq.
    + apply lookup_delete_eq.
  - split; [now rewrite <- !app_assoc|]. split.
    + rewrite lookup_delete_ne by (intros E; now apply Hne).
      rewrite lookup_alter_eq, lookup_insert_eq. reflexivity.
    + apply lookup_delete_eq.
Qed.

(** C10: moving [fg], which has a value for Light and one for Dark, to
    [plain], which has the one mode Default: only the first value goes along. *)
Lemma service_swap_transfers_first_value_witness :
  exists newId firstMode,
    head [Sample.single] = Some firstMode
    /\ Figma.writes (snd (VariablesService.swapVariableCollection "fg" "plain" Sample.store))
       = ([] ++ [Figma.created "color/fg" "plain" COLOR newId]
          ++ [Figma.valueSet newId (Figma.Mode.modeId firstMode) Sample.blue]
          ++ [Figma.removed "fg"])%list
    /\ Figma.getVariableByIdAsync
         (snd (VariablesService.swapVariableCollection "fg" "plain" Sample.store)) newId
       = Some (Figma.FigmaVariable.make newId "color/fg" COLOR "plain"
                 [(Figma.Mode.modeId firstMode, Sample.blue)])
    /\ Figma.getVariableByIdAsync
         (snd (VariablesService.swapVariableCollection "fg" "plain" Sample.store)) "fg"
       = None.
Proof.
  exact (service_swap_transfers_first_value Sample.store
           (snd (VariablesService.swapVariableCollection "fg" "plain" Sample.store))
           "fg" "plain"
           (Figma.FigmaVariable.make "fg" "color/fg" COLOR "themes"
              [("1:0", Sample.blue); ("1:1", Sample.red)])
           (Figma.VariableCollection.make "plain" "Plain" [Sample.single] ["plain-bg"])
           eq_refl eq_refl eq_refl).
Defined.

(** A call of [swapVariableCollection] of code.js that returns has written
    to the store the creation of the new variable, then one value for every
    source value at whose mode the mode mapping reads as something truthy,
    in the order of [valuesByMode], then the removal of the source; it
    returns the name of the source. The value goes to the mode the source
    mode is mapped to; for a source mode that the mapping only inherits from
    [Object.prototype], [setValueForMode] is called with what is
    inherited. *)
Theorem codeJs_swap_transfers_mapped_values
    (s s' : Figma.Store) (variableId sourceCollectionId targetCollectionId : string)
    (variable : Figma.FigmaVariable.t)
    (sourceCollection targetCollection : Figma.VariableCollection.t)
    (result : CodeJs.SwapResult) :
  Figma.getVariableByIdAsync s variableId = Some variable ->
  Figma.getVariableCollectionByIdAsync s sourceCollectionId = Some sourceCollection ->
  Figma.getVariableCollectionByIdAsync s targetCollectionId = Some targetCollection ->
  CodeJs.swapVariableCollection variableId sourceCollectionId targetCollectionId s
  = (Js.normal result, s') ->
  exists modeMapping newId,
    CodeJs.validateModeCompatibility sourceCollection targetCollection
    = CodeJs.compatible modeMapping
    /\ result = CodeJs.mkSwapResult true (Figma.FigmaVariable.name variable)
    /\ Figma.writes s'
       = (Figma.writes s
          ++ [Figma.created (Figma.FigmaVariable.name variable) targetCollectionId
                (Figma.FigmaVariable.resolvedType variable) newId]
          ++ flat_map (CodeJs.transferOf modeMapping newId)
               (Figma.FigmaVariable.valuesByMode variable)
          ++ [Figma.removed variableId])%list.
Proof.
  intros Hv Hs Ht. unfold CodeJs.swapVariableCollection. rewrite Hv, Hs, Ht.
  destruct (CodeJs.validateModeCompatibility sourceCollection targetCollection)
    as [e|modeMapping]; [discriminate|].
  destruct (find _ _); [discriminate|].
  unfold Figma.createVariable. simpl. intros [= <- <-].
  exists modeMapping, (Figma.freshId (Figma.variables s)).
  split; [reflexivity|]. split; [reflexivity|]. simpl.
  rewrite SwapFacts.transferValues_writes. simpl. now rewrite <- !app_assoc.
Qed.

(** Moving [fg] from [themes] to [brand]: the value of Light goes to the
    Light of [brand], the value of Dark to its Dark. *)
Lemma codeJs_swap_transfers_mapped_values_witness :
  exists modeMapping newId,
    CodeJs.validateModeCompatibility
      (Figma.VariableCollection.make "themes" "Themes" [Sample.light; Sample.dark]
         ["bg"; "fg"])
      (Figma.VariableCollection.make "brand" "Brand" [Sample.light'; Sample.dark']
         ["brand-bg"])
    = CodeJs.compatible modeMapping
    /\ CodeJs.mkSwapResult true "color/fg" = CodeJs.mkSwapResult true "color/fg"
    /\ Figma.writes (snd (CodeJs.swapVariableCollection "fg" "themes" "brand" Sample.store))
       = ([] ++ [Figma.created "color/fg" "brand" COLOR newId]
          ++ flat_map (CodeJs.transferOf modeMapping newId)
               [("1:0", Sample.blue); ("1:1", Sample.red)]
          ++ [Figma.removed "fg"])%list.
Proof.
  exact (codeJs_swap_transfers_mapped_values Sample.store
           (snd (CodeJs.swapVariableCollection "fg" "themes" "brand" Sample.store))
           "fg" "themes" "brand"
           (Figma.FigmaVariable.make "fg" "color/fg" COLOR "themes"
              [("1:0", Sample.blue); ("1:1", Sample.red)])
           (Figma.VariableCollection.make "themes" "Themes" [Sample.light; Sample.dark]
              ["bg"; "fg"])
           (Figma.VariableCollection.make "brand" "Brand" [Sample.light'; Sample.dark']
              ["brand-bg"])
           (CodeJs.mkSwapResult true "color/fg")
           eq_refl eq_refl eq_refl eq_refl).
Defined.

(** A value under the key [constructor] reaches [setValueForMode] with the
    function that the mapping inherits under that key. *)
Example codeJs_swap_inherited_mode :
  Figma.writes
    (snd (CodeJs.swapVariableCollection "fg" "themes" "brand" Sample.inheritedKeyStore))
  = [ Figma.created "color/fg" "brand" COLOR "VariableID:new:0";
      Figma.valueSetInherited "VariableID:new:0" "constructor" Sample.red;
      Figma.valueSet "VariableID:new:0" "2:0" Sample.blue;
      Figma.removed "fg" ].
Proof. reflexivity. Qed.

(** An id that does not resolve ends the call with the error of its step and
    leaves the store as it was: in code.js the variable, then the source
    collection, then the target collection; in variablesService.ts the
    variable, then the target collection. *)
Theorem swapVariableCollection_not_found
    (s : Figma.Store) (variableId sourceCollectionId targetCollectionId : string) :
  (Figma.getVariableByIdAsync s variableId = None ->
   CodeJs.swapVariableCollection variableId sourceCollectionId targetCollectionId s
   = (Js.throw (Js.Error variableNotFound), s)
   /\ VariablesService.swapVariableCollection variableId targetCollectionId s
      = (Js.throw (Js.Error (variableIdNotFound variableId)), s))
  /\ (is_Some (Figma.getVariableByIdAsync s variableId) ->
      (Figma.getVariableCollectionByIdAsync s sourceCollectionId = None ->
       CodeJs.swapVariableCollection variableId sourceCollectionId targetCollectionId s
       = (Js.throw (Js.Error sourceCollectionNotFound), s))
      /\ (Figma.getVariableCollectionByIdAsync s targetCollectionId = None ->
          (is_Some (Figma.getVariableCollectionByIdAsync s sourceCollectionId) ->
           CodeJs.swapVariableCollection variableId sourceCollectionId targetCollectionId s
           = (Js.throw (Js.Error targetCollectionNotFound), s))
          /\ VariablesService.swapVariableCollection variableId targetCollectionId s
             = (Js.throw (Js.Error (collectionIdNotFound targetCollectionId)), s))).
Proof.
  unfold CodeJs.swapVariableCollection, VariablesService.swapVariableCollection.
  split.
  - intros ->. now split.
  - intros [variable ->]. split.
    + intros ->. reflexivity.
    + intros ->. split; [|reflexivity]. intros [sourceCollection ->]. reflexivity.
Qed.

(** The id [zz] resolves to nothing in the sample store. *)
Lemma swapVariableCollection_not_found_witness :
  CodeJs.swapVariableCollection "zz" "themes" "brand" Sample.store
  = (Js.throw (Js.Error variableNotFound), Sample.store).
Proof.
  exact (proj1 (proj1 (swapVariableCollection_not_found Sample.store "zz" "themes" "brand")
                  eq_refl)).
Defined.

(** ** batchSwapVariables *)

Module BatchFacts.
Import Batch.

Lemma attempts_ids {A} (swap : string -> Async A) variableIds :
  forall s, map fst (fst (attempts swap variableIds s)) = variableIds.
Proof.
  induction variableIds as [|varId rest IH]; intros s; simpl; [reflexivity|].
  destruct (swap varId s) as [r s1]. specialize (IH s1).
  destruct (attempts swap rest s1) as [outcomes s2]. simpl in *. now rewrite IH.
Qed.

(** What splits a list without a repeated element partitions it. *)
Lemma splits_partitions (ids ok bad : list string) :
  splits ids ok bad -> NoDup ids -> partitions ids ok bad.
Proof.
  intros (Hperm & Hok & Hbad) Hnd. repeat split.
  - now apply (sublist_NoDup ok ids).
  - now apply (sublist_NoDup bad ids).
  - intros id Hid.
    assert (Hboth : NoDup (ok ++ bad)) by (now rewrite Hperm).
    apply NoDup_app in Hboth as (_ & Hdisj & _).
    assert (Hin : In id (ok ++ bad)).
    { apply (Permutation_in id (Permutation_sym Hperm) Hid). }
    apply in_app_or in Hin as [Hin|Hin].
    + left. split; [exact Hin|]. intros Hb.
      apply (Hdisj id); now apply list_elem_of_In.
    + right. split; [|exact Hin]. intros Ho.
      apply (Hdisj id); now apply list_elem_of_In.
Qed.

(** However the attempts end, the ids that returned and the ids that threw
    split the ids that were attempted. *)
Lemma outcomes_split {A} (outcomes : list (string * Js.completion Message A)) :
  splits (map fst outcomes) (returnedIds outcomes) (thrownIds outcomes).
Proof.
  repeat split; unfold returnedIds, thrownIds.
  - induction outcomes as [|[id [a|e]] rest IH]; simpl; [reflexivity| |].
    + now apply perm_skip.
    + rewrite <- Permutation_middle. now apply perm_skip.
  - induction outcomes as [|[id [a|e]] rest IH]; simpl; [constructor| |].
    + now apply sublist_skip.
    + now apply sublist_cons.
  - induction outcomes as [|[id [a|e]] rest IH]; simpl; [constructor| |].
    + now apply sublist_cons.
    + now apply sublist_skip.
Qed.

(** [processNext] never rejects, and it does what one attempt after the
    other does. *)
Lemma processNext_attempts sourceCollectionId targetCollectionId rest :
  forall results s,
    let swap := fun varId =>
      CodeJs.swapVariableCollection varId sourceCollectionId targetCollectionId in
    CodeJs.processNext sourceCollectionId targetCollectionId rest (results, s)
    = (Js.normal tt,
       (CodeJs.mkBatchResults
          (CodeJs.succeeded results
           ++ map named (flat_map returned (fst (attempts swap rest s))))
          (CodeJs.failed results ++ flat_map thrown (fst (attempts swap rest s))),
        snd (attempts swap rest s))).
Proof.
  induction rest as [|varId rest IH]; intros results s swap; simpl.
  - rewrite !app_nil_r. now destruct results.
  - subst swap. simpl in *.
    destruct (CodeJs.swapVariableCollection varId sourceCollectionId targetCollectionId s)
      as [[result|e] s1]; rewrite IH; simpl;
      destruct (attempts _ rest s1) as [outcomes s2]; simpl;
      now rewrite <- !app_assoc.
Qed.

Lemma batchLoop_attempts targetCollectionId variableIds :
  forall results s,
    let swap := fun varId => VariablesService.swapVariableCollection varId targetCollectionId in
    VariablesService.batchLoop targetCollectionId variableIds results s
    = (VariablesService.mkBatchResults
         (VariablesService.succeeded results ++ returnedIds (fst (attempts swap variableIds s)))
         (VariablesService.failed results ++ flat_map thrown (fst (attempts swap variableIds s))),
       snd (attempts swap variableIds s)).
Proof.
  induction variableIds as [|varId rest IH]; intros results s swap; simpl.
  - unfold returnedIds. simpl. rewrite !app_nil_r. now destruct results.
  - subst swap. simpl in *.
    destruct (VariablesService.swapVariableCollection varId targetCollectionId s)
      as [[u|e] s1]; rewrite IH; simpl;
      destruct (attempts _ rest s1) as [outcomes s2]; unfold returnedIds; simpl;
      now rewrite <- !app_assoc.
Qed.

Lemma map_fst_named l : map fst (map named l) = map fst l.
Proof. rewrite map_map. reflexivity. Qed.

Lemma attempts_split {A} (swap : string -> Async A) variableIds s :
  splits variableIds (returnedIds (fst (attempts swap variableIds s)))
    (thrownIds (fst (attempts swap variableIds s))).
Proof.
  pose proof (outcomes_split (fst (attempts swap variableIds s))) as H.
  now rewrite attempts_ids in H.
Qed.

End BatchFacts.

(** C4 (as amended). [batchSwapVariables] never throws, in code.js and in
    variablesService.ts alike. What it returns and the store it leaves are
    those of one attempt per position of the list, made in the order of the
    list, each on the store left by the attempt before it: a failed attempt
    stops nothing. [success] holds the ids whose attempt returned, [failed]
    the ids whose attempt threw, and the two split the input. When no id is
    repeated in the input, they partition it: every id is in exactly one of
    the two, and in neither twice. *)
Theorem batchSwapVariables_splits_input
    (variableIds : list string) (sourceCollectionId targetCollectionId : string)
    (s : Figma.Store) :
  (let swap := fun varId =>
     CodeJs.swapVariableCollection varId sourceCollectionId targetCollectionId in
   let outcomes := fst (Batch.attempts swap variableIds s) in
   map fst outcomes = variableIds
   /\ exists results,
       CodeJs.batchSwapVariables variableIds sourceCollectionId targetCollectionId s
       = (Js.normal results, snd (Batch.attempts swap variableIds s))
       /\ CodeJs.succeeded results = map Batch.named (flat_map Batch.returned outcomes)
       /\ CodeJs.failed results = flat_map Batch.thrown outcomes
       /\ Batch.splits variableIds (map fst (CodeJs.succeeded results))
            (map fst (CodeJs.failed results))
       /\ (NoDup variableIds ->
           Batch.partitions variableIds (map fst (CodeJs.succeeded results))
             (map fst (CodeJs.failed results))))
  /\ (let swap := fun varId =>
        VariablesService.swapVariableCollection varId targetCollectionId in
      let outcomes := fst (Batch.attempts swap variableIds s) in
      map fst outcomes = variableIds
      /\ exists results,
          VariablesService.batchSwapVariables variableIds targetCollectionId s
          = (Js.normal results, snd (Batch.attempts swap variableIds s))
          /\ VariablesService.succeeded results = Batch.returnedIds outcomes
          /\ VariablesService.failed results = flat_map Batch.thrown outcomes
          /\ Batch.splits variableIds (VariablesService.succeeded results)
               (map fst (VariablesService.failed results))
          /\ (NoDup variableIds ->
              Batch.partitions variableIds (VariablesService.succeeded results)
                (map fst (VariablesService.failed results)))).
Proof.
  split; intros swap outcomes.
  - split; [apply BatchFacts.attempts_ids|].
    unfold CodeJs.batchSwapVariables.
    rewrite BatchFacts.processNext_attempts. fold swap. simpl.
    eexists. split; [reflexivity|]. simpl.
    split; [reflexivity|]. split; [reflexivity|].
    rewrite BatchFacts.map_fst_named.
    split; [apply BatchFacts.attempts_split|].
    apply BatchFacts.splits_partitions, BatchFacts.attempts_split.
  - split; [apply BatchFacts.attempts_ids|].
    unfold VariablesService.batchSwapVariables.
    rewrite BatchFacts.batchLoop_attempts. fold swap. simpl.
    eexists. split; [reflexivity|]. simpl.
    split; [reflexivity|]. split; [reflexivity|].
    split; [apply BatchFacts.attempts_split|].
    apply BatchFacts.splits_partitions, BatchFacts.attempts_split.
Qed.

(** C4 as it was stated: with the id [fg] twice in the input, the first
    attempt moves the variable and the second finds it gone, so [fg] is in
    [success] and in [failed], in code.js and in variablesService.ts. *)
Lemma batchSwapVariables_repeated_id :
  (exists results s',
     CodeJs.batchSwapVariables ["fg"; "fg"] "themes" "brand" Sample.store
     = (Js.normal results, s')
     /\ map fst (CodeJs.succeeded results) = ["fg"]
     /\ map fst (CodeJs.failed results) = ["fg"]
     /\ ~ Batch.partitions ["fg"; "fg"] (map fst (CodeJs.succeeded results))
           (map fst (CodeJs.failed results)))
  /\ (exists results s',
        VariablesService.batchSwapVariables ["fg"; "fg"] "brand" Sample.store
        = (Js.normal results, s')
        /\ VariablesService.succeeded results = ["fg"]
        /\ map fst (VariablesService.failed results) = ["fg"]
        /\ ~ Batch.partitions ["fg"; "fg"] (VariablesService.succeeded results)
              (map fst (VariablesService.failed results))).
Proof.
  split; eexists; eexists; (split; [reflexivity|]);
    (split; [reflexivity|]); (split; [reflexivity|]);
    intros (_ & _ & H); destruct (H "fg") as [[_ Hno]|[Hno _]];
    try (now left); apply Hno; now left.
Qed.

(** ** utils/variableHelpers.ts *)

Module HelperFacts.
Import VariableHelpers.

Local Arguments String.append !_ _ /.

Lemma split_parts (s : string) : exists h t, Js.split s = h :: t.
Proof.
  destruct s as [|c r]; simpl; [eauto|].
  destruct (Ascii.eqb c "/"); [eauto|]. destruct (Js.split r); eauto.
Qed.

Lemma nth_last {A} (l : list A) (d : A) : nth (length l - 1) l d = List.last l d.
Proof.
  induction l as [|x r IH]; [reflexivity|]. destruct r as [|y r']; [reflexivity|].
  simpl in *. rewrite Nat.sub_0_r in IH. exact IH.
Qed.

Lemma startsWith_empty (s : string) : Js.startsWith s "" = true.
Proof. now destruct s. Qed.

(** No part of a split name holds a separator. *)
Lemma split_no_separator (s : string) :
  forall part, In part (Js.split s) -> Js.includes part "/" = false.
Proof.
  induction s as [|c r IH]; intros part; simpl.
  - intros [<-|[]]. reflexivity.
  - destruct (Ascii.eqb_spec c "/") as [->|Hc].
    + intros [<-|Hp]; [reflexivity|now apply IH].
    + destruct (split_parts r) as (h & t & E). rewrite E in *.
      intros [<-|Hp]; [|apply IH; now right].
      simpl. rewrite startsWith_empty.
      destruct (Ascii.eqb_spec c "/") as [|_]; [contradiction|]. simpl.
      apply IH. now left.
Qed.

Lemma split_without_separator (s : string) :
  Js.includes s "/" = false -> Js.split s = [s].
Proof.
  induction s as [|c r IH]; simpl; [reflexivity|].
  rewrite startsWith_empty.
  destruct (Ascii.eqb_spec c "/") as [->|Hc]; simpl; [discriminate|].
  intros H. now rewrite (IH H).
Qed.

Lemma split_with_separator (s : string) :
  Js.includes s "/" = true -> exists h h' t, Js.split s = h :: h' :: t.
Proof.
  induction s as [|c r IH]; simpl; [discriminate|].
  rewrite startsWith_empty.
  destruct (Ascii.eqb_spec c "/") as [->|Hc].
  - intros _. destruct (split_parts r) as (h & t & E). rewrite E. eauto.
  - simpl. intros H. destruct (IH H) as (h & h' & t & E). rewrite E. eauto.
Qed.

(** [s.split('/').join('/')] is [s]. *)
Lemma join_split (s : string) : String.concat "/" (Js.split s) = s.
Proof.
  induction s as [|c r IH]; [reflexivity|]. simpl.
  destruct (split_parts r) as (h & t & E). rewrite E in *.
  destruct (Ascii.eqb_spec c "/") as [->|Hc].
  - change (String.concat "/" ("" :: h :: t)) with ("/" ++ String.concat "/" (h :: t))%string.
    now rewrite IH.
  - destruct t as [|h' t'].
    + simpl in *. now rewrite IH.
    + change (String.concat "/" (String c h :: h' :: t'))
        with (String c (h ++ "/" ++ String.concat "/" (h' :: t')))%string.
      change (String.concat "/" (h :: h' :: t'))
        with (h ++ "/" ++ String.concat "/" (h' :: t'))%string in IH.
      now rewrite IH.
Qed.

Lemma string_app_assoc (a b c : string) : ((a ++ b) ++ c)%string = (a ++ b ++ c)%string.
Proof. induction a as [|x r IH]; simpl; [reflexivity|]. now rewrite IH. Qed.

(** A joined list is its front, a separator and its last element. *)
Lemma concat_removelast (x y : string) (l : list string) :
  String.concat "/" (x :: y :: l)
  = (String.concat "/" (removelast (x :: y :: l)) ++ "/" ++ List.last (x :: y :: l) "")%string.
Proof.
  revert x y. induction l as [|z l IH]; intros x y; [reflexivity|].
  change (String.concat "/" (x :: y :: z :: l))
    with (x ++ "/" ++ String.concat "/" (y :: z :: l))%string.
  rewrite (IH y z).
  change (removelast (x :: y :: z :: l)) with (x :: removelast (y :: z :: l)).
  change (List.last (x :: y :: z :: l) "") with (List.last (y :: z :: l) "").
  destruct (removelast (y :: z :: l)) as [|w r] eqn:E.
  - destruct l; discriminate E.
  - change (String.concat "/" (x :: w :: r)) with (x ++ "/" ++ String.concat "/" (w :: r))%string.
    now rewrite !string_app_assoc.
Qed.

(** A name that is not empty starts with a separator exactly when its
    first part is empty. *)
Lemma startsWith_separator (c : ascii) (r : string) :
  Js.startsWith (String c r) "/" = negb (Js.truthy (hd EmptyString (Js.split (String c r)))).
Proof.
  simpl. rewrite startsWith_empty, andb_true_r.
  destruct (Ascii.eqb c "/"); [reflexivity|].
  destruct (split_parts r) as (h & t & E). now rewrite E.
Qed.

(** A name that is not empty ends with a separator exactly when its last
    part is empty. *)
Lemma endsWith_separator (s : string) :
  s <> EmptyString ->
  Js.endsWith s "/" = negb (Js.truthy (List.last (Js.split s) EmptyString)).
Proof.
  induction s as [|c r IH]; intros Hs; [congruence|].
  destruct r as [|c' r'].
  - simpl. destruct (Ascii.eqb_spec c "/") as [->|Hc]; [reflexivity|].
    simpl. destruct (Ascii.eqb_spec c "/") as [E|_]; [contradiction|]. reflexivity.
  - assert (Hr : String c' r' <> EmptyString) by discriminate.
    specialize (IH Hr). remember (String c' r') as rest eqn:Erest.
    assert (E0 : String.eqb (String c rest) "/" = false).
    { apply String.eqb_neq. intros [= _ E]. congruence. }
    change (Js.endsWith (String c rest) "/")
      with (String.eqb (String c rest) "/" || Js.endsWith rest "/").
    rewrite E0, IH. clear E0 IH. simpl.
    pose proof (join_split rest) as Hjoin.
    destruct (split_parts rest) as (h & t & E). rewrite E in *.
    destruct (Ascii.eqb c "/"); [reflexivity|].
    destruct t as [|h' t']; [|reflexivity].
    simpl in Hjoin. subst h. now rewrite Erest.
Qed.

End HelperFacts.

(** A full name is its group path, a separator and its short name; a name
    without a separator is its own short name and has the empty group path.
    The short name never holds a separator. *)
Theorem variableName_decomposition (fullName : string) :
  Js.includes (VariableHelpers.getShortVariableName fullName) "/" = false
  /\ (Js.includes fullName "/" = false ->
      VariableHelpers.getVariableGroupPath fullName = EmptyString
      /\ VariableHelpers.getShortVariableName fullName = fullName)
  /\ (Js.includes fullName "/" = true ->
      fullName = (VariableHelpers.getVariableGroupPath fullName ++ "/"
                  ++ VariableHelpers.getShortVariableName fullName)%string).
Proof.
  unfold VariableHelpers.getShortVariableName, VariableHelpers.getVariableGroupPath.
  rewrite HelperFacts.nth_last. split; [|split].
  - apply (HelperFacts.split_no_separator fullName).
    destruct (HelperFacts.split_parts fullName) as (h & t & E). rewrite E.
    clear E. revert h. induction t as [|x t IH]; intros h; [now left|].
    right. apply IH.
  - intros H. rewrite (HelperFacts.split_without_separator fullName H). now split.
  - intros H. destruct (HelperFacts.split_with_separator fullName H) as (h & h' & t & E).
    rewrite E. change (length (h :: h' :: t) <=? 1)%nat with false.
    cbv iota. rewrite <- HelperFacts.concat_removelast, <- E.
    symmetry. apply HelperFacts.join_split.
Qed.

(** [isValidVariableName] accepts the names of 1 to 255 code units whose
    first and last segments are not empty; it asks nothing of the segments
    in between. *)
Theorem isValidVariableName_segments (name : string) :
  VariableHelpers.isValidVariableName name = true
  <-> (0 < String.length name <= 255
       /\ hd EmptyString (Js.split name) <> EmptyString
       /\ VariableHelpers.getShortVariableName name <> EmptyString).
Proof.
  unfold VariableHelpers.isValidVariableName, VariableHelpers.getShortVariableName.
  rewrite HelperFacts.nth_last.
  destruct name as [|c r].
  - simpl. split; [discriminate|]. intros [[H _] _]. lia.
  - rewrite HelperFacts.startsWith_separator, HelperFacts.endsWith_separator by discriminate.
    rewrite !negb_involutive.
    set (first := hd EmptyString (Js.split (String c r))).
    set (final := List.last (Js.split (String c r)) EmptyString).
    assert (Ht : forall x, Js.truthy x = true <-> x <> EmptyString).
    { intros [|a x]; simpl; split; congruence. }
    rewrite !andb_true_iff, Nat.ltb_lt, Nat.leb_le, !Ht. tauto.
Qed.

(** [a//b] passes [isValidVariableName]. *)
Example isValidVariableName_inner_segment :
  VariableHelpers.isValidVariableName "a//b" = true.
Proof. reflexivity. Qed.

(** ** The ids of a forest of code.js are paths *)

Module PathFacts.
Import CodeJs VariableHelpers.
Import CodeJsBuildFacts HelperFacts.

Local Arguments String.append !_ _ /.

Lemma split_app (a b : string) :
  Js.split (a ++ "/" ++ b) = (Js.split a ++ Js.split b)%list.
Proof.
  change ("/" ++ b)%string with (String "/" b).
  induction a as [|c r IH]; [reflexivity|]. simpl. rewrite IH.
  destruct (Ascii.eqb c "/"); [reflexivity|].
  destruct (split_parts r) as (h & t & E). now rewrite E.
Qed.

(** The last part and the group path of [cur/part]. *)
Lemma path_of_part (cur part : string) :
  Js.includes part "/" = false ->
  getShortVariableName (cur ++ "/" ++ part) = part
  /\ getVariableGroupPath (cur ++ "/" ++ part) = cur.
Proof.
  intros Hpart. unfold getShortVariableName, getVariableGroupPath.
  rewrite nth_last, split_app, (split_without_separator part Hpart).
  destruct (split_parts cur) as (h & t & E). rewrite E.
  split.
  - now rewrite last_last.
  - rewrite removelast_last, length_app.
    destruct (_ <=? 1)%nat eqn:El; [apply Nat.leb_le in El; simpl in El; lia|].
    rewrite <- E. apply join_split.
Qed.

Lemma path_of_single (part : string) :
  Js.includes part "/" = false ->
  getShortVariableName part = part /\ getVariableGroupPath part = EmptyString.
Proof.
  intros Hpart. unfold getShortVariableName, getVariableGroupPath.
  now rewrite (split_without_separator part Hpart).
Qed.

Lemma pathNamed_set nodeMap k o cs :
  pathNamed nodeMap -> JsObject.getOwn nodeMap k = Some o ->
  pathNamed (JsObject.set nodeMap k (withChildren o cs)).
Proof.
  intros Hn Hk k' o'. rewrite getOwn_set.
  assert (Hown : forall p, (exists po, JsObject.getOwn nodeMap p = Some po) ->
            exists po, JsObject.getOwn (JsObject.set nodeMap k (withChildren o cs)) p = Some po).
  { intros p [po Hpo]. rewrite getOwn_set. destruct (String.eqb k p); eauto. }
  destruct (String.eqb_spec k k') as [<-|_].
  - intros [= <-]. destruct (Hn k o Hk) as (Hi & Hname & Hp & Hclosed).
    repeat split; auto. intros p Ep. destruct (Hclosed p Ep) as [H|H]; [left; auto|now right].
  - intros Hk'. destruct (Hn k' o' Hk') as (Hi & Hname & Hp & Hclosed).
    repeat split; auto. intros p Ep. destruct (Hclosed p Ep) as [H|H]; [left; auto|now right].
Qed.

(** *** The first pass names every node after its path *)

Lemma visitPart_pathNamed variableId nparts nodeMap cur j part :
  Js.includes part "/" = false ->
  pathNamed nodeMap ->
  (Js.truthy cur = true ->
   (exists po, JsObject.getOwn nodeMap cur = Some po) \/ JsObject.isPrototypeKey cur = true) ->
  pathNamed (fst (visitPart variableId nparts (nodeMap, cur) j part))
  /\ (Js.truthy (snd (visitPart variableId nparts (nodeMap, cur) j part)) = true ->
      (exists po,
          JsObject.getOwn (fst (visitPart variableId nparts (nodeMap, cur) j part))
            (snd (visitPart variableId nparts (nodeMap, cur) j part)) = Some po)
      \/ JsObject.isPrototypeKey (snd (visitPart variableId nparts (nodeMap, cur) j part))
         = true).
Proof.
  intros Hpart Hn Hcur. unfold visitPart.
  destruct (emptyPart part) eqn:Epart; [now split|].
  remember (cur ++ (if Js.truthy cur then SEPARATOR else "") ++ part)%string as path
    eqn:Epath.
  destruct (JsObject.get nodeMap path) as [o| |] eqn:Eget; simpl.
  - split; [exact Hn|]. intros _. left. exists o. now apply get_own.
  - split; [exact Hn|]. intros _. right. unfold JsObject.get in Eget.
    destruct (JsObject.getOwn nodeMap path); [discriminate|].
    now destruct (JsObject.isPrototypeKey path).
  - apply get_missing in Eget. split.
    + intros k o. rewrite getOwn_set. destruct (String.eqb_spec path k) as [<-|Hne].
      * intros [= <-]. simpl. split; [reflexivity|]. unfold parentOf.
        destruct (Js.truthy cur) eqn:Et.
        -- destruct (path_of_part cur part Hpart) as [Hshort Hgroup].
           unfold SEPARATOR in Epath. subst path. rewrite Hshort, Hgroup, Et.
           repeat split. intros p [= <-].
           destruct (Hcur eq_refl) as [[po Hpo]|Hproto]; [left|now right].
           exists po. rewrite getOwn_set.
           destruct (String.eqb_spec (cur ++ "/" ++ part)%string cur) as [E|_];
             [|exact Hpo].
           rewrite E in Eget. congruence.
        -- destruct cur; [|discriminate Et].
           destruct (path_of_single part Hpart) as [Hshort Hgroup].
           simpl in Epath. subst path. rewrite Hshort, Hgroup. now repeat split.
      * intros Hk. destruct (Hn k o Hk) as (Hi & Hname & Hp & Hclosed).
        repeat split; auto. intros p Ep.
        destruct (Hclosed p Ep) as [[po Hpo]|H]; [left|now right].
        exists po. rewrite getOwn_set. destruct (String.eqb_spec path p) as [<-|_];
          [congruence|exact Hpo].
    + intros _. left. rewrite getOwn_set, String.eqb_refl. eauto.
Qed.

Lemma visitParts_pathNamed variableId nparts parts :
  forall j nodeMap cur,
    Forall (fun part => Js.includes part "/" = false) parts ->
    pathNamed nodeMap ->
    (Js.truthy cur = true ->
     (exists po, JsObject.getOwn nodeMap cur = Some po)
     \/ JsObject.isPrototypeKey cur = true) ->
    pathNamed (fst (visitParts variableId nparts parts j (nodeMap, cur))).
Proof.
  induction parts as [|part rest IH]; intros j nodeMap cur Hparts Hn Hcur; [exact Hn|].
  inversion Hparts as [|? ? Hpart Hrest]; subst.
  change (visitParts variableId nparts (part :: rest) j (nodeMap, cur))
    with (visitParts variableId nparts rest (S j)
            (visitPart variableId nparts (nodeMap, cur) j part)).
  destruct (visitPart_pathNamed variableId nparts nodeMap cur j part Hpart Hn Hcur)
    as [Hn' Hcur'].
  destruct (visitPart variableId nparts (nodeMap, cur) j part) as [nodeMap' cur'].
  exact (IH (S j) nodeMap' cur' Hrest Hn' Hcur').
Qed.

Lemma firstPass_pathNamed variables :
  forall nodeMap nodeMap',
    pathNamed nodeMap -> firstPass nodeMap variables = Js.normal nodeMap' ->
    pathNamed nodeMap'.
Proof.
  induction variables as [|v rest IH]; intros nodeMap nodeMap' Hn; simpl.
  - now intros [= <-].
  - unfold visitVariable. destruct (withoutName v); [now apply IH|].
    destruct (Js.splitValue (VariableData.name v)) as [parts|e] eqn:Es; [|discriminate].
    apply IH. apply visitParts_pathNamed; [|exact Hn|discriminate].
    destruct (VariableData.name v); try discriminate Es. injection Es as <-.
    apply List.Forall_forall. apply split_no_separator.
Qed.

(** *** The second pass links every node to the parent it names *)

Lemma parented_start nodeMap : unlinked nodeMap -> parented (mkLinking nodeMap [] false).
Proof.
  intros Hf. split; simpl.
  - intros k o refs Hk Hc r Hr. destruct (Hf k o Hk) as [_ [E|E]]; rewrite E in Hc.
    + discriminate.
    + injection Hc as <-. destruct Hr.
  - intros r [].
Qed.

Lemma parented_push st p parent path node refs :
  parented st ->
  JsObject.getOwn (objects st) p = Some parent ->
  JsObject.getOwn (objects st) path = Some node ->
  parentPath node = Some p ->
  (forall r, In r refs -> r = path \/ exists cs, children parent = Some cs /\ In r cs) ->
  parented (mkLinking (JsObject.set (objects st) p (withChildren parent (Some refs)))
              (rootNodes st) (prototypeHasChildren st)).
Proof.
  intros (Hrefs & Hroots) Hp Hpath Hpp Hnew.
  assert (Hown : forall r q,
            (exists o', JsObject.getOwn (objects st) r = Some o' /\ parentPath o' = q) ->
            exists o', JsObject.getOwn (JsObject.set (objects st) p
                                          (withChildren parent (Some refs))) r = Some o'
                       /\ parentPath o' = q).
  { intros r q (o' & Ho' & Hq). rewrite getOwn_set.
    destruct (String.eqb_spec p r) as [<-|_]; [|eauto].
    exists (withChildren parent (Some refs)). split; [reflexivity|]. simpl. congruence. }
  split; simpl.
  - intros k o refs'. rewrite getOwn_set. destruct (String.eqb_spec p k) as [<-|_].
    + intros [= <-]. simpl. intros [= <-] r Hr. apply Hown.
      destruct (Hnew r Hr) as [->|(cs & Hcs & Hin)]; [eauto|].
      exact (Hrefs p parent cs Hp Hcs r Hin).
    + intros Hk Hc r Hr. apply Hown. exact (Hrefs k o refs' Hk Hc r Hr).
  - intros r Hr. apply Hown. now apply Hroots.
Qed.

Lemma linkNode_parented st path :
  pathNamed (objects st) -> parented st ->
  pathNamed (objects (linkNode st path)) /\ parented (linkNode st path).
Proof.
  intros Hn Hl. unfold linkNode.
  destruct (JsObject.getOwn (objects st) path) as [node|] eqn:Epath; [|now split].
  destruct (Hn path node Epath) as (_ & _ & Hpp & Hclosed).
  assert (Hroot : parentPath node = None ->
            parented (mkLinking (objects st) (rootNodes st ++ [path])
                        (prototypeHasChildren st))).
  { intros E. destruct Hl as (Hrefs & Hroots). split; simpl; [exact Hrefs|].
    intros r Hr. apply in_app_or in Hr as [Hr|[<-|[]]]; [now apply Hroots|eauto]. }
  destruct (parentPath node) as [p|] eqn:Epp; [|split; [exact Hn|now apply Hroot]].
  assert (Ht : Js.truthy p = true).
  { unfold parentOf in Hpp. destruct (Js.truthy _) eqn:Et; congruence. }
  rewrite Ht.
  destruct (JsObject.get (objects st) p) as [parent| |] eqn:Eget.
  - apply get_own in Eget. unfold pushChild.
    destruct (children parent) as [cs|] eqn:Ecs.
    + split; [now apply pathNamed_set|].
      apply (parented_push st p parent path node); auto.
      intros r Hr. apply in_app_or in Hr as [Hr|[<-|[]]]; [right; eauto|now left].
    + destruct (prototypeHasChildren st); [now split|].
      split; [now apply pathNamed_set|].
      apply (parented_push st p parent path node); auto.
      intros r [<-|[]]. now left.
  - split; [exact Hn|]. destruct Hl as (Hrefs & Hroots). now split.
  - exfalso. unfold JsObject.get in Eget.
    destruct (Hclosed p eq_refl) as [[po Hpo]|Hproto].
    + now rewrite Hpo in Eget.
    + destruct (JsObject.getOwn (objects st) p); [discriminate|]. now rewrite Hproto in Eget.
Qed.

Lemma secondPass_parented nodeMap :
  unlinked nodeMap -> pathNamed nodeMap ->
  pathNamed (objects (secondPass nodeMap)) /\ parented (secondPass nodeMap).
Proof.
  intros Hf Hn. unfold secondPass.
  generalize (JsObject.forInKeys nodeMap). intros keys.
  assert (H : pathNamed (objects (mkLinking nodeMap [] false))
              /\ parented (mkLinking nodeMap [] false)).
  { split; [exact Hn|now apply parented_start]. }
  revert H. generalize (mkLinking nodeMap [] false).
  induction keys as [|k r IH]; intros st [H1 H2]; simpl; [now split|].
  apply IH. now apply linkNode_parented.
Qed.

(** *** Reading the forest back *)

Lemma readNode_paths st :
  pathNamed (objects st) -> parented st ->
  forall fuel k node,
    readNode fuel (objects st) k = Some node ->
    (exists o, JsObject.getOwn (objects st) k = Some o
               /\ TreeNode.id node = k
               /\ TreeNode.parentPath node = Some (parentPath o))
    /\ forall m, In m (TreeBuilder.subtree node) ->
         TreeNode.name m = getShortVariableName (TreeNode.id m)
         /\ TreeNode.parentPath m = Some (parentOf (TreeNode.id m))
         /\ forall cs c, TreeNode.children m = Some cs -> In c cs ->
              TreeNode.parentPath c = Some (Some (TreeNode.id m)).
Proof.
  intros Hn (Hrefs & _). induction fuel as [|fuel IH]; intros k node; simpl; [discriminate|].
  destruct (JsObject.getOwn (objects st) k) as [o|] eqn:Hk; [|discriminate].
  destruct (Hn k o Hk) as (Hid & Hname & Hpp & _).
  destruct (children o) as [refs|] eqn:Ec.
  - destruct (mapM (readNode fuel (objects st)) refs) as [cs|] eqn:Ecs; [|discriminate].
    intros [= <-]. split; [exists o; now repeat split|].
    intros m [<-|Hm].
    + simpl. rewrite Hid. split; [exact Hname|]. split; [now rewrite Hpp|].
      intros cs' c [= <-] Hc. destruct (mapM_In _ _ cs Ecs c Hc) as (r & Hr & Er).
      destruct (IH r c Er) as [(o' & Ho' & _ & Hpc) _].
      destruct (Hrefs k o refs Hk Ec r Hr) as (o'' & Ho'' & Hp'').
      rewrite Hpc. congruence.
    + apply in_flat_map in Hm as (c & Hc & Hm).
      destruct (mapM_In _ _ cs Ecs c Hc) as (r & Hr & Er).
      destruct (IH r c Er) as [_ Hall]. now apply Hall.
  - intros [= <-]. split; [exists o; now repeat split|].
    intros m [<-|[]]. simpl. rewrite Hid. split; [exact Hname|]. split; [now rewrite Hpp|].
    intros cs c [=].
Qed.

End PathFacts.

(** In every forest that [buildTree] of code.js returns, the ids are
    paths: a root names no parent; the name of a node is the short name of
    its id and its parent path is the group path of its id ([null] when that
    is empty); and the children of a node are nodes that name it as their
    parent. The branch that makes a root of a node whose parent was not
    found is never taken. *)
Theorem codeJs_buildTree_ids_are_paths (variables : list VariableData.t) (forest : Forest) :
  CodeJs.buildTree variables = Js.normal (Some forest) ->
  (forall root, In root forest -> TreeNode.parentPath root = Some None)
  /\ (forall m, In m (TreeBuilder.nodesOf forest) ->
        TreeNode.name m = VariableHelpers.getShortVariableName (TreeNode.id m)
        /\ TreeNode.parentPath m = Some (CodeJs.parentOf (TreeNode.id m))
        /\ forall cs c, TreeNode.children m = Some cs -> In c cs ->
             TreeNode.parentPath c = Some (Some (TreeNode.id m))).
Proof.
  unfold CodeJs.buildTree.
  assert (Hstart : CodeJs.unlinked []) by (intros k o [=]).
  assert (Hnamed : CodeJs.pathNamed []) by (intros k o [=]).
  destruct (CodeJsBuildFacts.firstPass_returns variables [] Hstart) as (nodeMap & E & Hf).
  rewrite E.
  pose proof (PathFacts.firstPass_pathNamed variables [] nodeMap Hnamed E) as Hn.
  destruct (PathFacts.secondPass_parented nodeMap Hf Hn) as [Hn' Hp].
  set (st := CodeJs.secondPass nodeMap) in *.
  intros E0.
  assert (Eforest : CodeJs.mapM (CodeJs.readNode (CodeJs.depthBound (CodeJs.objects st))
                                   (CodeJs.objects st)) (CodeJs.rootNodes st) = Some forest)
    by congruence.
  clear E0. split.
  - intros root Hroot.
    destruct (CodeJsBuildFacts.mapM_In _ _ forest Eforest root Hroot) as (r & Hr & Er).
    destruct (PathFacts.readNode_paths st Hn' Hp _ r root Er) as [(o & Ho & _ & Hpp) _].
    destruct Hp as (_ & Hroots). destruct (Hroots r Hr) as (o' & Ho' & Hnone).
    rewrite Hpp. congruence.
  - intros m Hm. apply in_flat_map in Hm as (root & Hroot & Hm).
    destruct (CodeJsBuildFacts.mapM_In _ _ forest Eforest root Hroot) as (r & Hr & Er).
    destruct (PathFacts.readNode_paths st Hn' Hp _ r root Er) as [_ Hall]. now apply Hall.
Qed.

(** ** buildTree of code.js on degenerate names *)

Module SegmentFacts.
Import CodeJs.
Import CodeJsBuildFacts.










(** *** The second pass *)




Section Placing.

Variable nodeMap : JsObject.t NodeObject.
Hypothesis Hproto :
  forall k o, JsObject.getOwn nodeMap k = Some o -> parentPath o <> Some "__proto__".




End Placing.

(** *** Reading the forest back *)


(** *** The paths of a name *)

Local Arguments String.append !_ _ /.








(** *** The forest *)




Section Forest.

Variable nodeMap : JsObject.t NodeObject.
Variable fuel : nat.
Variable forest : Forest.

Hypothesis Hunlinked : unlinked nodeMap.
Hypothesis Hnamed : pathNamed nodeMap.
Hypothesis Eforest :
  mapM (readNode fuel (objects (secondPass nodeMap))) (rootNodes (secondPass nodeMap))
  = Some forest.



Hypothesis Hproto :
  forall k o, JsObject.getOwn nodeMap k = Some o -> parentPath o <> Some "__proto__".




End Forest.

End SegmentFacts.

(** ** buildTree of treeBuilder.ts on degenerate names *)

Module RootFacts.
Import TreeNode TreeBuilder.

Local Arguments String.append !_ _ /.










End RootFacts.



(** ** The tree functions of code.js and of utils/treeBuilder.ts *)

Module TreeAgreement.

Lemma push_map {A B} (f : A -> B) (l : list A) :
  forall result, fold_left (fun result x => (result ++ [f x])%list) l result
                 = (result ++ map f l)%list.
Proof.
  induction l as [|x r IH]; intros result; simpl; [now rewrite app_nil_r|].
  rewrite IH, <- app_assoc. reflexivity.
Qed.

Lemma push_mapFilter {A B} (f : A -> option B) (l : list A) :
  forall result,
    fold_left (fun result x => match f x with
                               | Some y => (result ++ [y])%list
                               | None => result
                               end) l result
    = (result ++ TreeBuilder.mapFilter f l)%list.
Proof.
  induction l as [|x r IH]; intros result; simpl; [now rewrite app_nil_r|].
  rewrite IH. destruct (f x); [now rewrite <- app_assoc|reflexivity].
Qed.

Lemma mapFilter_ext_in {A B} (f g : A -> option B) (l : list A) :
  (forall x, In x l -> f x = g x) -> TreeBuilder.mapFilter f l = TreeBuilder.mapFilter g l.
Proof.
  induction l as [|x r IH]; intros H; simpl; [reflexivity|].
  rewrite (H x) by now left. rewrite IH; [reflexivity|]. intros y Hy. apply H. now right.
Qed.

Lemma matchNode_agrees lowerQuery node :
  CodeJs.matchNode lowerQuery node = TreeBuilder.matchNode lowerQuery node.
Proof.
  induction node as [i n ty v col lv ch ind pp|i n ty l v col lv ch ind pp IH]
    using TreeNode_ind; [reflexivity|].
  simpl. destruct ty; [|reflexivity].
  rewrite (push_mapFilter (CodeJs.matchNode lowerQuery) l []). simpl.
  rewrite (mapFilter_ext_in _ (TreeBuilder.matchNode lowerQuery) l); [reflexivity|].
  now apply List.Forall_forall.
Qed.

Lemma toggleNode_agrees nodeId node :
  CodeJs.toggleNode nodeId node = TreeBuilder.toggleNode nodeId node.
Proof.
  induction node as [i n ty v col lv ch ind pp|i n ty l v col lv ch ind pp IH]
    using TreeNode_ind; [reflexivity|].
  simpl. destruct (String.eqb i nodeId); [reflexivity|].
  rewrite (push_map (CodeJs.toggleNode nodeId) l []). simpl.
  do 2 f_equal. apply map_ext_in. now apply List.Forall_forall.
Qed.

End TreeAgreement.

(** [filterTree] of code.js, with its loops, returns for every forest and
    query what [filterTree] of treeBuilder.ts returns; so it is idempotent
    as well. *)
Theorem codeJs_filterTree_agrees (tree : Forest) (query : string) :
  CodeJs.filterTree tree query = TreeBuilder.filterTree tree query
  /\ CodeJs.filterTree (CodeJs.filterTree tree query) query
     = CodeJs.filterTree tree query.
Proof.
  assert (H : forall t, CodeJs.filterTree t query = TreeBuilder.filterTree t query).
  { intros t. unfold CodeJs.filterTree, TreeBuilder.filterTree.
    destruct (negb (Js.truthy (Js.trim query))); [reflexivity|].
    rewrite (TreeAgreement.push_mapFilter (CodeJs.matchNode (Js.toLowerCase query)) t []).
    simpl. apply TreeAgreement.mapFilter_ext_in. intros x _.
    apply TreeAgreement.matchNode_agrees. }
  split; [apply H|]. rewrite !H. unfold TreeBuilder.filterTree.
  destruct (negb (Js.truthy (Js.trim query))); [reflexivity|].
  apply FilterFacts.mapFilter_matchNode_idempotent.
Qed.

(** [toggleNodeCollapsed] of code.js returns for every forest and id what
    [toggleNodeCollapsed] of treeBuilder.ts returns; so it undoes itself as
    well. *)
Theorem codeJs_toggleNodeCollapsed_agrees (tree : Forest) (nodeId : string) :
  CodeJs.toggleNodeCollapsed tree nodeId = TreeBuilder.toggleNodeCollapsed tree nodeId
  /\ CodeJs.toggleNodeCollapsed (CodeJs.toggleNodeCollapsed tree nodeId) nodeId = tree.
Proof.
  assert (H : forall t, CodeJs.toggleNodeCollapsed t nodeId
                        = TreeBuilder.toggleNodeCollapsed t nodeId).
  { intros t. unfold CodeJs.toggleNodeCollapsed, TreeBuilder.toggleNodeCollapsed.
    rewrite (TreeAgreement.push_map (CodeJs.toggleNode nodeId) t []). simpl.
    apply map_ext. apply TreeAgreement.toggleNode_agrees. }
  split; [apply H|]. rewrite !H. unfold TreeBuilder.toggleNodeCollapsed.
  rewrite map_map. apply map_fixed, List.Forall_forall. intros x _.
  apply ToggleFacts.toggleNode_twice.
Qed.

(** ** Check marks, collapsing and filtering together *)

Module MarkFacts.
Import TreeNode TreeBuilder.

Lemma toggleNode_checked nodeId node :
  TreeNode.checked (toggleNode nodeId node) = TreeNode.checked node
  /\ TreeNode.indeterminate (toggleNode nodeId node) = TreeNode.indeterminate node.
Proof.
  destruct node as [i n ty cs v col lv ch ind pp]. simpl.
  destruct (String.eqb i nodeId); [now split|]. destruct cs; now split.
Qed.

Lemma count_toggled (p : TreeNode.t -> bool) nodeId (l : Forest) :
  (forall node, p (toggleNode nodeId node) = p node) ->
  length (List.filter p (map (toggleNode nodeId) l)) = length (List.filter p l).
Proof.
  intros Hp. induction l as [|x r IH]; simpl; [reflexivity|].
  rewrite Hp. destruct (p x); simpl; now rewrite IH.
Qed.

Lemma toggle_updateAll nodeId value node :
  toggleNode nodeId (updateAllChildrenNode value node)
  = updateAllChildrenNode value (toggleNode nodeId node).
Proof.
  induction node as [i n ty v col lv ch ind pp|i n ty l v col lv ch ind pp IH]
    using TreeNode_ind; simpl.
  - destruct (String.eqb i nodeId); reflexivity.
  - destruct (String.eqb i nodeId); simpl; [reflexivity|].
    rewrite !map_map. do 2 f_equal. apply map_ext_in. now apply List.Forall_forall.
Qed.

(** Collapsing and checking do not see each other. *)
Lemma toggle_update a value b node :
  toggleNode b (updateNodeCheckedNode a value node)
  = updateNodeCheckedNode a value (toggleNode b node).
Proof.
  induction node as [i n ty v col lv ch ind pp|i n ty l v col lv ch ind pp IH]
    using TreeNode_ind; simpl.
  - destruct (String.eqb i a) eqn:Ea, (String.eqb i b) eqn:Eb; simpl;
      rewrite ?Ea, ?Eb; reflexivity.
  - destruct (String.eqb i a) eqn:Ea, (String.eqb i b) eqn:Eb; simpl;
      rewrite ?Ea, ?Eb; try reflexivity.
    + unfold updateAllChildren. rewrite !map_map. do 2 f_equal.
      apply map_ext. intros x. apply toggle_updateAll.
    + assert (E : map (toggleNode b) (map (updateNodeCheckedNode a value) l)
                  = map (updateNodeCheckedNode a value) (map (toggleNode b) l)).
      { rewrite !map_map. apply map_ext_in. now apply List.Forall_forall. }
      rewrite <- E. unfold checkedCount, indeterminateCount.
      rewrite !(count_toggled _ b), !length_map;
        [reflexivity|intros x; apply toggleNode_checked..].
Qed.

Lemma traverse_toggle nodeId node :
  traverseNode (toggleNode nodeId node) = traverseNode node.
Proof.
  induction node as [i n ty v col lv ch ind pp|i n ty l v col lv ch ind pp IH]
    using TreeNode_ind; simpl.
  - destruct (String.eqb i nodeId); reflexivity.
  - destruct (String.eqb i nodeId); simpl; [reflexivity|]. f_equal.
    rewrite flat_map_concat_map, map_map, <- flat_map_concat_map.
    induction IH as [|x r Hx _ IHr]; simpl; [reflexivity|]. now rewrite Hx, IHr.
Qed.

Lemma updateAll_twice value value' node :
  updateAllChildrenNode value' (updateAllChildrenNode value node)
  = updateAllChildrenNode value' node.
Proof.
  induction node as [i n ty v col lv ch ind pp|i n ty l v col lv ch ind pp IH]
    using TreeNode_ind; simpl; [reflexivity|].
  rewrite map_map. do 2 f_equal. apply map_ext_in. now apply List.Forall_forall.
Qed.

(** An update changes nothing but check marks. *)
Lemma updateAll_update nodeId value value' node :
  updateAllChildrenNode value' (updateNodeCheckedNode nodeId value node)
  = updateAllChildrenNode value' node.
Proof.
  induction node as [i n ty v col lv ch ind pp|i n ty l v col lv ch ind pp IH]
    using TreeNode_ind; simpl.
  - destruct (String.eqb i nodeId); reflexivity.
  - destruct (String.eqb i nodeId); simpl.
    + unfold updateAllChildren. rewrite map_map. do 2 f_equal.
      apply map_ext. intros x. apply updateAll_twice.
    + rewrite map_map. do 2 f_equal. apply map_ext_in. now apply List.Forall_forall.
Qed.

Lemma update_twice nodeId value node :
  updateNodeCheckedNode nodeId value (updateNodeCheckedNode nodeId value node)
  = updateNodeCheckedNode nodeId value node.
Proof.
  induction node as [i n ty v col lv ch ind pp|i n ty l v col lv ch ind pp IH]
    using TreeNode_ind; simpl.
  - destruct (String.eqb i nodeId) eqn:E; simpl; rewrite E; reflexivity.
  - destruct (String.eqb i nodeId) eqn:E; simpl; rewrite E.
    + unfold updateAllChildren. rewrite map_map. do 2 f_equal.
      apply map_ext. intros x. apply updateAll_twice.
    + assert (El : map (updateNodeCheckedNode nodeId value)
                     (map (updateNodeCheckedNode nodeId value) l)
                   = map (updateNodeCheckedNode nodeId value) l).
      { rewrite map_map. apply map_ext_in. now apply List.Forall_forall. }
      now rewrite El.
Qed.

(** On a node that keeps the invariant and the shape, an id that is not
    there changes nothing. *)
Lemma update_absent nodeId value node :
  good node -> ~ In nodeId (map TreeNode.id (subtree node)) ->
  updateNodeCheckedNode nodeId value node = node.
Proof.
  induction node as [i n ty v col lv ch ind pp|i n ty l v col lv ch ind pp IH]
    using TreeNode_ind; intros Hg Hno; simpl.
  - destruct (String.eqb_spec i nodeId) as [->|_]; [|reflexivity].
    exfalso. apply Hno. now left.
  - destruct (String.eqb_spec i nodeId) as [->|_].
    { exfalso. apply Hno. now left. }
    assert (El : map (updateNodeCheckedNode nodeId value) l = l).
    { apply map_fixed. rewrite List.Forall_forall in IH |- *. intros c Hc. apply IH.
      - exact Hc.
      - eapply CheckedFacts.good_child; [|exact Hc|exact Hg]. reflexivity.
      - intros Hin. apply Hno. right.
        rewrite in_map_iff in Hin |- *. destruct Hin as (y & Hy & Hin).
        exists y. split; [exact Hy|]. apply in_flat_map. now exists c. }
    rewrite El.
    destruct (CheckedFacts.good_summary _ Hg) as (Hch & Hind & _).
    destruct (Hg _ (CheckedFacts.subtree_self _)) as (Hs & _ & _).
    unfold shapeAt in Hs. simpl in Hs. destruct ty; [|discriminate Hs].
    simpl in Hch, Hind.
    destruct (CheckedFacts.recompute_from_children l) as [E1 E2].
    { intros c Hc. apply CheckedFacts.good_summary.
      eapply CheckedFacts.good_child; [|exact Hc|exact Hg]. reflexivity. }
    rewrite E1, E2. congruence.
Qed.

(** What [matchNode] keeps of a node holds no checked variable that the
    node did not hold. *)
Lemma traverse_matchNode lowerQuery node :
  forall kept, matchNode lowerQuery node = Some kept ->
    sublist (traverseNode kept) (traverseNode node).
Proof.
  induction node as [i n ty v col lv ch ind pp|i n ty l v col lv ch ind pp IH]
    using TreeNode_ind; intros kept; simpl.
  - destruct ty; simpl; destruct (Js.includes _ _); try discriminate;
      intros [= <-]; reflexivity.
  - destruct ty.
    + destruct (_ || _); [|discriminate]. intros [= <-]. simpl.
      induction IH as [|c r Hc _ IHr]; simpl; [reflexivity|].
      destruct (matchNode lowerQuery c) as [k|] eqn:E; simpl.
      * apply sublist_app; [now apply Hc|exact IHr].
      * apply sublist_inserts_l. exact IHr.
    + destruct (Js.includes _ _); [|discriminate]. intros [= <-]. reflexivity.
Qed.

End MarkFacts.

(** Check marks and the collapsed state are independent: toggling a group
    and checking a node commute, toggling leaves the checked variable ids as
    they are, and an update changes nothing that is left once every check
    mark is cleared. *)
Theorem checks_and_collapse_independent
    (forest : Forest) (nodeId : string) (value : bool) (toggled : string) :
  TreeBuilder.toggleNodeCollapsed (TreeBuilder.updateNodeChecked forest nodeId value) toggled
  = TreeBuilder.updateNodeChecked (TreeBuilder.toggleNodeCollapsed forest toggled) nodeId value
  /\ TreeBuilder.getCheckedVariableIds (TreeBuilder.toggleNodeCollapsed forest toggled)
     = TreeBuilder.getCheckedVariableIds forest
  /\ TreeBuilder.updateAllChildren (TreeBuilder.updateNodeChecked forest nodeId value) false
     = TreeBuilder.updateAllChildren forest false.
Proof.
  unfold TreeBuilder.toggleNodeCollapsed, TreeBuilder.updateNodeChecked,
    TreeBuilder.getCheckedVariableIds, TreeBuilder.updateAllChildren.
  split; [|split].
  - rewrite !map_map. apply map_ext. intros x. apply MarkFacts.toggle_update.
  - rewrite flat_map_concat_map, map_map, <- flat_map_concat_map.
    induction forest as [|x r IH]; simpl; [reflexivity|].
    now rewrite MarkFacts.traverse_toggle, IH.
  - rewrite map_map. apply map_ext. intros x. apply MarkFacts.updateAll_update.
Qed.

(** Repeating an update changes nothing more, on every forest. On a forest
    that keeps the tri-state invariant and the shape of the data model, an
    update for an id that no node has changes nothing at all. *)
Theorem updateNodeChecked_idempotent (forest : Forest) (nodeId : string) (value : bool) :
  TreeBuilder.updateNodeChecked (TreeBuilder.updateNodeChecked forest nodeId value)
    nodeId value
  = TreeBuilder.updateNodeChecked forest nodeId value
  /\ (TreeBuilder.wellShaped forest = true ->
      TreeBuilder.leavesDeterminate forest = true ->
      TreeBuilder.triState forest = true ->
      ~ In nodeId (map TreeNode.id (TreeBuilder.nodesOf forest)) ->
      TreeBuilder.updateNodeChecked forest nodeId value = forest).
Proof.
  unfold TreeBuilder.updateNodeChecked. split.
  - rewrite map_map. apply map_ext. intros x. apply MarkFacts.update_twice.
  - intros Hs Hd Ht Hno.
    pose proof (proj1 (CheckedFacts.good_forest forest) (conj Hs (conj Hd Ht))) as Hg.
    apply map_fixed, List.Forall_forall. intros node Hn.
    apply MarkFacts.update_absent; [now apply Hg|].
    intros Hin. apply Hno. unfold TreeBuilder.nodesOf.
    rewrite in_map_iff in Hin |- *. destruct Hin as (y & Hy & Hin).
    exists y. split; [exact Hy|]. apply in_flat_map. now exists node.
Qed.

(** Filtering selects nothing new: the checked variable ids of the filtered
    forest are among those of the forest, in the same order. *)
Theorem getCheckedVariableIds_of_filterTree (forest : Forest) (query : string) :
  sublist (TreeBuilder.getCheckedVariableIds (TreeBuilder.filterTree forest query))
    (TreeBuilder.getCheckedVariableIds forest).
Proof.
  unfold TreeBuilder.getCheckedVariableIds, TreeBuilder.filterTree.
  destruct (negb (Js.truthy (Js.trim query))); [reflexivity|].
  induction forest as [|x r IH]; simpl; [reflexivity|].
  destruct (TreeBuilder.matchNode (Js.toLowerCase query) x) as [k|] eqn:E; simpl.
  - apply sublist_app; [|exact IH]. exact (MarkFacts.traverse_matchNode _ x k E).
  - apply sublist_inserts_l. exact IH.
Qed.

(** ** What a move does to the store *)

Module MoveFacts.

Lemma transferValues_collections modeMapping newId values :
  forall s,
    Figma.collections (CodeJs.transferValues modeMapping newId values s)
    = Figma.collections s.
Proof.
  unfold CodeJs.transferValues.
  induction values as [|e values IH]; intros s; simpl; [reflexivity|].
  rewrite IH.
  destruct (CodeJs.readMapping modeMapping (fst e)) as [t| |]; [|reflexivity|reflexivity].
  now destruct (Js.truthy t).
Qed.

Lemma withValues_same (v : Figma.FigmaVariable.t) :
  Figma.withValues (Figma.FigmaVariable.valuesByMode v) v = v.
Proof. now destruct v. Qed.

(** The loop touches the values of the new variable and nothing else. *)
Lemma transferValues_lookup modeMapping newId values :
  forall s k,
    Figma.variables (CodeJs.transferValues modeMapping newId values s) !! k
    = if String.eqb k newId
      then (fun v => Figma.withValues (CodeJs.transferred modeMapping values
                                   (Figma.FigmaVariable.valuesByMode v)) v)
           <$> Figma.variables s !! k
      else Figma.variables s !! k.
Proof.
  unfold CodeJs.transferValues, CodeJs.transferred.
  induction values as [|e values IH]; intros s k; simpl.
  - destruct (String.eqb k newId); [|reflexivity].
    destruct (Figma.variables s !! k) as [v|]; simpl; [|reflexivity].
    now rewrite withValues_same.
  - rewrite IH. destruct (String.eqb_spec k newId) as [->|Hne].
    + destruct (CodeJs.readMapping modeMapping (fst e)) as [t| |];
        [|reflexivity|reflexivity].
      destruct (Js.truthy t); [|reflexivity]. simpl.
      rewrite lookup_alter_eq. destruct (Figma.variables s !! newId) as [v|]; reflexivity.
    + destruct (CodeJs.readMapping modeMapping (fst e)) as [t| |];
        [|reflexivity|reflexivity].
      destruct (Js.truthy t); [|reflexivity]. simpl.
      now rewrite lookup_alter_ne by congruence.
Qed.

(** What a call of [swapVariableCollection] of code.js that returns has
    gone through. *)
Lemma codeJs_swap_returns variableId sourceCollectionId targetCollectionId s result s' :
  CodeJs.swapVariableCollection variableId sourceCollectionId targetCollectionId s
  = (Js.normal result, s') ->
  exists variable sourceCollection targetCollection modeMapping,
    Figma.getVariableByIdAsync s variableId = Some variable
    /\ Figma.getVariableCollectionByIdAsync s sourceCollectionId = Some sourceCollection
    /\ Figma.getVariableCollectionByIdAsync s targetCollectionId = Some targetCollection
    /\ CodeJs.validateModeCompatibility sourceCollection targetCollection
       = CodeJs.compatible modeMapping
    /\ find (CodeJs.sameName (Figma.FigmaVariable.name variable))
         (CodeJs.getVariablesByCollection targetCollectionId s) = None
    /\ result = CodeJs.mkSwapResult true (Figma.FigmaVariable.name variable)
    /\ s' = Figma.remove variableId
              (CodeJs.transferValues modeMapping (Figma.freshId (Figma.variables s))
                 (Figma.FigmaVariable.valuesByMode variable)
                 (snd (Figma.createVariable (Figma.FigmaVariable.name variable)
                         targetCollectionId (Figma.FigmaVariable.resolvedType variable) s))).
Proof.
  unfold CodeJs.swapVariableCollection.
  destruct (Figma.getVariableByIdAsync s variableId) as [variable|] eqn:Ev;
    [|discriminate].
  destruct (Figma.getVariableCollectionByIdAsync s sourceCollectionId)
    as [sourceCollection|] eqn:Es; [|discriminate].
  destruct (Figma.getVariableCollectionByIdAsync s targetCollectionId)
    as [targetCollection|] eqn:Et; [|discriminate].
  destruct (CodeJs.validateModeCompatibility sourceCollection targetCollection)
    as [e|modeMapping] eqn:Em; [discriminate|].
  destruct (find _ _) eqn:Efind; [discriminate|].
  unfold Figma.createVariable. simpl. intros [= <- <-].
  exists variable, sourceCollection, targetCollection, modeMapping. now repeat split.
Qed.

(** The variables of the store after a call that returns. *)
Lemma moved_variables variableId targetCollectionId name resolvedType modeMapping values s :
  let newId := Figma.freshId (Figma.variables s) in
  let s' := Figma.remove variableId
              (CodeJs.transferValues modeMapping newId values
                 (snd (Figma.createVariable name targetCollectionId resolvedType s))) in
  is_Some (Figma.getVariableByIdAsync s variableId) ->
  Figma.getVariableByIdAsync s' newId
  = Some (Figma.FigmaVariable.make newId name resolvedType targetCollectionId
            (CodeJs.transferred modeMapping values []))
  /\ Figma.getVariableByIdAsync s' variableId = None
  /\ forall k, k <> variableId -> k <> newId ->
       Figma.getVariableByIdAsync s' k = Figma.getVariableByIdAsync s k.
Proof.
  intros newId s' [variable Hv]. unfold Figma.getVariableByIdAsync in *.
  assert (Hne : newId <> variableId).
  { intros E. pose proof (StoreFacts.freshId_fresh (Figma.variables s)) as Hf.
    fold newId in Hf. rewrite E in Hf. congruence. }
  subst s'. unfold Figma.remove, Figma.createVariable. simpl. fold newId.
  split; [|split].
  - rewrite lookup_delete_ne by congruence. rewrite transferValues_lookup.
    rewrite String.eqb_refl. simpl. now rewrite lookup_insert_eq.
  - apply lookup_delete_eq.
  - intros k Hk Hk'. rewrite lookup_delete_ne by congruence.
    rewrite transferValues_lookup.
    destruct (String.eqb_spec k newId) as [E|_]; [contradiction|].
    simpl. now rewrite lookup_insert_ne by congruence.
Qed.

(** The collections of the store after a call that returns. *)
Lemma moved_collections variableId targetCollectionId name resolvedType modeMapping values s c :
  let newId := Figma.freshId (Figma.variables s) in
  let s' := Figma.remove variableId
              (CodeJs.transferValues modeMapping newId values
                 (snd (Figma.createVariable name targetCollectionId resolvedType s))) in
  Figma.getVariableCollectionByIdAsync s' c
  = (fun collection =>
       Figma.VariableCollection.make (Figma.VariableCollection.id collection)
         (Figma.VariableCollection.name collection)
         (Figma.VariableCollection.modes collection)
         (List.filter (fun k => negb (String.eqb k variableId))
            (Figma.VariableCollection.variableIds collection
             ++ if String.eqb c targetCollectionId then [newId] else [])))
    <$> Figma.getVariableCollectionByIdAsync s c.
Proof.
  intros newId s'. subst s'. unfold Figma.getVariableCollectionByIdAsync, Figma.remove.
  simpl. rewrite lookup_fmap, transferValues_collections.
  unfold Figma.createVariable. simpl. fold newId.
  destruct (String.eqb_spec c targetCollectionId) as [->|Hne].
  - rewrite lookup_alter_eq. destruct (Figma.collections s !! targetCollectionId); reflexivity.
  - rewrite lookup_alter_ne by congruence.
    destruct (Figma.collections s !! c) as [collection|]; [|reflexivity].
    simpl. unfold Figma.dropMember. now rewrite app_nil_r.
Qed.

(** *** The values of the moved variable *)

Lemma valueFor_setValue held k x k' :
  Figma.valueFor (Figma.setValue held k x) k'
  = if String.eqb k k' then Some x else Figma.valueFor held k'.
Proof.
  unfold Figma.valueFor. induction held as [|[k0 x0] r IH]; simpl.
  - destruct (String.eqb k k'); reflexivity.
  - destruct (String.eqb_spec k0 k) as [->|Hne]; simpl.
    + destruct (String.eqb k k'); reflexivity.
    + destruct (String.eqb_spec k0 k') as [->|Hne'].
      * destruct (String.eqb_spec k k') as [->|_]; [congruence|reflexivity].
      * exact IH.
Qed.

Lemma valueFor_absent (values : ValuesByMode) k :
  k ∉ map fst values -> Figma.valueFor values k = None.
Proof.
  unfold Figma.valueFor. induction values as [|[k0 x0] r IH]; simpl; intros Hk; [reflexivity|].
  destruct (String.eqb_spec k0 k) as [->|_].
  - exfalso. apply Hk. left.
  - apply IH. intros Hin. apply Hk. now right.
Qed.

Lemma valueFor_cons k0 x0 (values : ValuesByMode) k :
  Figma.valueFor ((k0, x0) :: values) k = if String.eqb k0 k then Some x0 else Figma.valueFor values k.
Proof. unfold Figma.valueFor. simpl. now destruct (String.eqb k0 k). Qed.

(** A key that names no property of [Object.prototype] reads as it was
    assigned. *)
Lemma readMapping_plain modeMapping k :
  JsObject.isPrototypeKey k = false ->
  CodeJs.readMapping modeMapping k
  = match modeMapping !! k with
    | Some t => JsObject.own t
    | None => JsObject.missing
    end.
Proof.
  intros Hk. unfold CodeJs.readMapping. rewrite Hk.
  destruct (String.eqb_spec k "__proto__") as [->|_]; [discriminate Hk|reflexivity].
Qed.

(** What reads as an own property was assigned. *)
Lemma readMapping_own modeMapping k t :
  CodeJs.readMapping modeMapping k = JsObject.own t -> modeMapping !! k = Some t.
Proof.
  unfold CodeJs.readMapping. destruct (String.eqb k "__proto__"); [discriminate|].
  destruct (modeMapping !! k) as [t0|]; [now intros [= ->]|].
  destruct (JsObject.isPrototypeKey k); discriminate.
Qed.

(** The value held for [t] after the loop: the value of the source mode
    that is mapped to [t], when no other source mode is. *)
Lemma transferred_valueFor modeMapping k t :
  modeMapping !! k = Some t -> Js.truthy t = true ->
  (forall k', modeMapping !! k' = Some t -> k' = k) ->
  forall values held,
    NoDup (map fst values) ->
    Forall (fun k' => JsObject.isPrototypeKey k' = false) (map fst values) ->
    Figma.valueFor (CodeJs.transferred modeMapping values held) t
    = match Figma.valueFor values k with
      | Some x => Some x
      | None => Figma.valueFor held t
      end.
Proof.
  intros Hk Ht Hinj. unfold CodeJs.transferred.
  induction values as [|[k0 x0] r IH]; intros held Hnd Hplain; [reflexivity|].
  simpl in Hnd. apply NoDup_cons in Hnd as [Hnotin Hnd].
  simpl in Hplain. apply List.Forall_cons_iff in Hplain as [Hk0 Hplain]. simpl fold_left.
  rewrite IH by assumption. rewrite valueFor_cons.
  rewrite (readMapping_plain modeMapping k0 Hk0).
  destruct (String.eqb_spec k0 k) as [->|Hne].
  - rewrite Hk, Ht. rewrite (valueFor_absent r k Hnotin).
    now rewrite valueFor_setValue, String.eqb_refl.
  - destruct (Figma.valueFor r k); [reflexivity|].
    destruct (modeMapping !! k0) as [t0|] eqn:E0; [|reflexivity].
    destruct (Js.truthy t0); [|reflexivity].
    rewrite valueFor_setValue. destruct (String.eqb_spec t0 t) as [->|_]; [|reflexivity].
    exfalso. apply Hne. now apply Hinj.
Qed.

(** Only modes that some source mode is mapped to get a value. *)
Lemma transferred_keys modeMapping t :
  forall values held,
    is_Some (Figma.valueFor (CodeJs.transferred modeMapping values held) t) ->
    is_Some (Figma.valueFor held t) \/ exists k, modeMapping !! k = Some t.
Proof.
  unfold CodeJs.transferred. induction values as [|[k0 x0] r IH]; intros held H; [now left|].
  simpl in H. apply IH in H as [H|H]; [|now right].
  destruct (CodeJs.readMapping modeMapping k0) as [t0| |] eqn:E0; [|now left|now left].
  destruct (Js.truthy t0); [|now left].
  rewrite valueFor_setValue in H. destruct (String.eqb_spec t0 t) as [->|_]; [|now left].
  right. exists k0. now apply readMapping_own.
Qed.

(** The mapping of two collections with distinct mode ids: what is mapped to
    what, and that no two ids are mapped to one. *)
Lemma fillMapping_positions (sm tm : list Figma.Mode.t) k t :
  length sm = length tm -> NoDup (map Figma.Mode.modeId sm) ->
  CodeJs.fillMapping ∅ sm tm !! k = Some t ->
  exists i a b, sm !! i = Some a /\ tm !! i = Some b
                /\ Figma.Mode.modeId a = k /\ Figma.Mode.modeId b = t.
Proof.
  intros Hlen Hs Hk.
  assert (Hin : k ∈ map Figma.Mode.modeId sm).
  { pose proof (ModeFacts.fillMapping_keys sm tm ∅ k Hlen) as Hkeys.
    rewrite lookup_empty in Hkeys.
    destruct (proj1 Hkeys (ex_intro _ t Hk)) as [[x [=]]|H]. exact H. }
  apply ModeFacts.modeId_position in Hin as (i & a & Ha & <-).
  assert (Hb : is_Some (tm !! i)).
  { apply lookup_lt_is_Some. rewrite <- Hlen. apply lookup_lt_is_Some. eauto. }
  destruct Hb as [b Hb]. exists i, a, b. repeat split; try assumption.
  pose proof (ModeFacts.fillMapping_position sm tm ∅ i a b Hs Ha Hb) as Hm.
  congruence.
Qed.

Lemma fillMapping_injective (sm tm : list Figma.Mode.t) k1 k2 t :
  length sm = length tm ->
  NoDup (map Figma.Mode.modeId sm) -> NoDup (map Figma.Mode.modeId tm) ->
  CodeJs.fillMapping ∅ sm tm !! k1 = Some t ->
  CodeJs.fillMapping ∅ sm tm !! k2 = Some t -> k1 = k2.
Proof.
  intros Hlen Hs Ht H1 H2.
  destruct (fillMapping_positions sm tm k1 t Hlen Hs H1) as (i & a & b & Ha & Hb & <- & Eb).
  destruct (fillMapping_positions sm tm k2 t Hlen Hs H2) as (j & a' & b' & Ha' & Hb' & <- & Eb').
  assert (i = j).
  { apply (NoDup_lookup (map Figma.Mode.modeId tm) i j t Ht).
    - change (map Figma.Mode.modeId tm) with (Figma.Mode.modeId <$> tm).
      rewrite list_lookup_fmap, Hb. simpl. now f_equal.
    - change (map Figma.Mode.modeId tm) with (Figma.Mode.modeId <$> tm).
      rewrite list_lookup_fmap, Hb'. simpl. now f_equal. }
  subst j. congruence.
Qed.

Lemma compatible_mapping source target modeMapping :
  CodeJs.validateModeCompatibility source target = CodeJs.compatible modeMapping ->
  length (Figma.VariableCollection.modes source) = length (Figma.VariableCollection.modes target)
  /\ modeMapping = CodeJs.fillMapping ∅ (Figma.VariableCollection.modes source)
                     (Figma.VariableCollection.modes target).
Proof.
  unfold CodeJs.validateModeCompatibility.
  destruct (Nat.eqb_spec (length (Figma.VariableCollection.modes source))
              (length (Figma.VariableCollection.modes target))) as [Hlen|Hlen]; simpl;
    [|discriminate].
  destruct (CodeJs.compareNames 0 _ _); [discriminate|]. intros [= <-]. now split.
Qed.

Lemma validate_modes source target source' target' :
  Figma.VariableCollection.modes source' = Figma.VariableCollection.modes source ->
  Figma.VariableCollection.modes target' = Figma.VariableCollection.modes target ->
  CodeJs.validateModeCompatibility source' target'
  = CodeJs.validateModeCompatibility source target.
Proof. unfold CodeJs.validateModeCompatibility. now intros -> ->. Qed.

(** Every [throw] of [swapVariableCollection] of code.js comes before its
    first write. *)
Lemma codeJs_swap_throws variableId sourceCollectionId targetCollectionId s e s' :
  CodeJs.swapVariableCollection variableId sourceCollectionId targetCollectionId s
  = (Js.throw e, s') ->
  s' = s.
Proof.
  unfold CodeJs.swapVariableCollection.
  destruct (Figma.getVariableByIdAsync s variableId) as [variable|];
    [|now intros [= _ <-]].
  destruct (Figma.getVariableCollectionByIdAsync s sourceCollectionId)
    as [sourceCollection|]; [|now intros [= _ <-]].
  destruct (Figma.getVariableCollectionByIdAsync s targetCollectionId)
    as [targetCollection|]; [|now intros [= _ <-]].
  destruct (CodeJs.validateModeCompatibility sourceCollection targetCollection)
    as [error|modeMapping]; [now intros [= _ <-]|].
  destruct (find _ _); [now intros [= _ <-]|].
  unfold Figma.createVariable. simpl. discriminate.
Qed.

End MoveFacts.

(** A call of [swapVariableCollection] of code.js that returns has moved
    one variable and touched nothing else: the source id resolves to nothing
    any more, a variable of the same name and type is in the target
    collection under an id that was free, every other variable is as it was,
    and every collection keeps its id, its name and its modes; of the member
    lists only the source id is dropped and the new id added to the
    target's. *)
Theorem codeJs_swap_moves_one_variable
    (s s' : Figma.Store) (variableId sourceCollectionId targetCollectionId : string)
    (variable : Figma.FigmaVariable.t) (result : CodeJs.SwapResult) :
  Figma.getVariableByIdAsync s variableId = Some variable ->
  CodeJs.swapVariableCollection variableId sourceCollectionId targetCollectionId s
  = (Js.normal result, s') ->
  exists newId values,
    Figma.getVariableByIdAsync s newId = None
    /\ Figma.getVariableByIdAsync s' newId
       = Some (Figma.FigmaVariable.make newId (Figma.FigmaVariable.name variable)
                 (Figma.FigmaVariable.resolvedType variable) targetCollectionId values)
    /\ Figma.getVariableByIdAsync s' variableId = None
    /\ (forall k, k <> variableId -> k <> newId ->
          Figma.getVariableByIdAsync s' k = Figma.getVariableByIdAsync s k)
    /\ (forall c,
          Figma.getVariableCollectionByIdAsync s' c
          = (fun collection =>
               Figma.VariableCollection.make (Figma.VariableCollection.id collection)
                 (Figma.VariableCollection.name collection)
                 (Figma.VariableCollection.modes collection)
                 (List.filter (fun k => negb (String.eqb k variableId))
                    (Figma.VariableCollection.variableIds collection
                     ++ if String.eqb c targetCollectionId then [newId] else [])))
            <$> Figma.getVariableCollectionByIdAsync s c).
Proof.
  intros Hv Hswap.
  destruct (MoveFacts.codeJs_swap_returns _ _ _ _ _ _ Hswap)
    as (variable' & sourceCollection & targetCollection & modeMapping
        & Hv' & _ & _ & _ & _ & _ & ->).
  assert (variable' = variable) by congruence. subst variable'.
  exists (Figma.freshId (Figma.variables s)),
    (CodeJs.transferred modeMapping (Figma.FigmaVariable.valuesByMode variable) []).
  split; [apply StoreFacts.freshId_fresh|].
  destruct (MoveFacts.moved_variables variableId targetCollectionId
              (Figma.FigmaVariable.name variable) (Figma.FigmaVariable.resolvedType variable)
              modeMapping (Figma.FigmaVariable.valuesByMode variable) s)
    as (Hnew & Hgone & Hother); [eauto|].
  split; [exact Hnew|]. split; [exact Hgone|]. split; [exact Hother|].
  intros c. apply MoveFacts.moved_collections.
Qed.

(** A move keeps the values: when the mode ids of each of the two
    collections are distinct and those of the target are not empty, and no
    mode the variable has a value for names a property of
    [Object.prototype], the variable that a call of
    [swapVariableCollection] of code.js leaves in the target holds, for the mode at every position of the target, the value
    the source held for the mode at that position of the source collection,
    and it holds a value for no other mode. *)
Theorem codeJs_swap_keeps_values
    (s s' : Figma.Store) (variableId sourceCollectionId targetCollectionId : string)
    (variable : Figma.FigmaVariable.t)
    (sourceCollection targetCollection : Figma.VariableCollection.t)
    (result : CodeJs.SwapResult) :
  Figma.getVariableByIdAsync s variableId = Some variable ->
  Figma.getVariableCollectionByIdAsync s sourceCollectionId = Some sourceCollection ->
  Figma.getVariableCollectionByIdAsync s targetCollectionId = Some targetCollection ->
  NoDup (CodeJs.modeIds sourceCollection) ->
  NoDup (CodeJs.modeIds targetCollection) ->
  Forall (fun modeId => Js.truthy modeId = true) (CodeJs.modeIds targetCollection) ->
  NoDup (map fst (Figma.FigmaVariable.valuesByMode variable)) ->
  Forall (fun modeId => JsObject.isPrototypeKey modeId = false)
    (map fst (Figma.FigmaVariable.valuesByMode variable)) ->
  CodeJs.swapVariableCollection variableId sourceCollectionId targetCollectionId s
  = (Js.normal result, s') ->
  exists newVariable,
    Figma.getVariableByIdAsync s' (Figma.freshId (Figma.variables s)) = Some newVariable
    /\ (forall i a b,
          Figma.VariableCollection.modes sourceCollection !! i = Some a ->
          Figma.VariableCollection.modes targetCollection !! i = Some b ->
          Figma.valueFor (Figma.FigmaVariable.valuesByMode newVariable) (Figma.Mode.modeId b)
          = Figma.valueFor (Figma.FigmaVariable.valuesByMode variable) (Figma.Mode.modeId a))
    /\ (forall modeId,
          is_Some (Figma.valueFor (Figma.FigmaVariable.valuesByMode newVariable) modeId) ->
          modeId ∈ CodeJs.modeIds targetCollection).
Proof.
  intros Hv Hs Ht Hsd Htd Htruthy Hkeys Hplain Hswap.
  destruct (MoveFacts.codeJs_swap_returns _ _ _ _ _ _ Hswap)
    as (variable' & sourceCollection' & targetCollection' & modeMapping
        & Hv' & Hs' & Ht' & Hm & _ & _ & ->).
  assert (variable' = variable) by congruence.
  assert (sourceCollection' = sourceCollection) by congruence.
  assert (targetCollection' = targetCollection) by congruence.
  subst variable' sourceCollection' targetCollection'.
  destruct (MoveFacts.compatible_mapping _ _ _ Hm) as [Hlen ->].
  destruct (MoveFacts.moved_variables variableId targetCollectionId
              (Figma.FigmaVariable.name variable) (Figma.FigmaVariable.resolvedType variable)
              (CodeJs.fillMapping ∅ (Figma.VariableCollection.modes sourceCollection)
                 (Figma.VariableCollection.modes targetCollection))
              (Figma.FigmaVariable.valuesByMode variable) s)
    as (Hnew & _ & _); [eauto|].
  eexists. split; [exact Hnew|]. simpl. unfold CodeJs.modeIds in *. split.
  - intros i a b Ha Hb.
    pose proof (ModeFacts.fillMapping_position _ _ ∅ i a b Hsd Ha Hb) as Hmap.
    rewrite (MoveFacts.transferred_valueFor _ (Figma.Mode.modeId a) (Figma.Mode.modeId b)
               Hmap).
    + now destruct (Figma.valueFor _ _).
    + rewrite List.Forall_forall in Htruthy. apply Htruthy. apply in_map_iff.
      exists b. split; [reflexivity|]. apply list_elem_of_In.
      apply list_elem_of_lookup. eauto.
    + intros k' Hk'. exact (MoveFacts.fillMapping_injective _ _ _ _ _ Hlen Hsd Htd Hk' Hmap).
    + exact Hkeys.
    + exact Hplain.
  - intros modeId H. apply MoveFacts.transferred_keys in H as [[x [=]]|[k Hk]].
    destruct (MoveFacts.fillMapping_positions _ _ k modeId Hlen Hsd Hk)
      as (i & a & b & _ & Hb & _ & <-).
    apply list_elem_of_In. apply in_map_iff. exists b. split; [reflexivity|].
    apply list_elem_of_In. apply list_elem_of_lookup. eauto.
Qed.

(** A call of [swapVariableCollection] of code.js that throws has written
    nothing: the store is the one it was called on. *)
Theorem codeJs_swap_failure_leaves_store
    (s s' : Figma.Store) (variableId sourceCollectionId targetCollectionId : string)
    (e : Js.exn Message) :
  CodeJs.swapVariableCollection variableId sourceCollectionId targetCollectionId s
  = (Js.throw e, s') ->
  s' = s.
Proof. apply MoveFacts.codeJs_swap_throws. Qed.

(** A call of [swapVariableCollection] of variablesService.ts that throws
    has written nothing, with one exception: for a target collection
    without modes it throws a [TypeError] on [targetModes[0].modeId], after
    the new variable was created and before the source is removed, so the
    store then holds both. *)
Theorem service_swap_failure_and_the_store
    (s s' : Figma.Store) (variableId targetCollectionId : string) (e : Js.exn Message) :
  VariablesService.swapVariableCollection variableId targetCollectionId s
  = (Js.throw e, s') ->
  s' = s
  \/ exists variable targetCollection,
       e = Js.TypeError
       /\ Figma.getVariableCollectionByIdAsync s targetCollectionId = Some targetCollection
       /\ Figma.VariableCollection.modes targetCollection = []
       /\ Figma.getVariableByIdAsync s' variableId = Some variable
       /\ Figma.getVariableByIdAsync s' (Figma.freshId (Figma.variables s))
          = Some (Figma.FigmaVariable.make (Figma.freshId (Figma.variables s))
                    (Figma.FigmaVariable.name variable)
                    (Figma.FigmaVariable.resolvedType variable) targetCollectionId [])
       /\ Figma.writes s'
          = (Figma.writes s
             ++ [Figma.created (Figma.FigmaVariable.name variable) targetCollectionId
                   (Figma.FigmaVariable.resolvedType variable)
                   (Figma.freshId (Figma.variables s))])%list.
Proof.
  unfold VariablesService.swapVariableCollection.
  destruct (Figma.getVariableByIdAsync s variableId) as [variable|] eqn:Ev;
    [|intros [= _ <-]; now left].
  destruct (Figma.getVariableCollectionByIdAsync s targetCollectionId)
    as [targetCollection|] eqn:Et; [|intros [= _ <-]; now left].
  destruct (find _ _); [intros [= _ <-]; now left|].
  unfold Figma.createVariable. simpl.
  destruct (Figma.VariableCollection.modes targetCollection) as [|firstMode rest] eqn:Em;
    [|discriminate].
  intros [= <- <-]. right. exists variable, targetCollection.
  split; [reflexivity|]. split; [reflexivity|]. split; [exact Em|].
  unfold Figma.getVariableByIdAsync in *. simpl.
  split; [|split; [apply lookup_insert_eq|reflexivity]].
  rewrite lookup_insert_ne; [exact Ev|]. intros E.
  pose proof (StoreFacts.freshId_fresh (Figma.variables s)) as Hf.
  rewrite E in Hf. congruence.
Qed.

(** A move makes the name taken: after a call of [swapVariableCollection]
    of code.js has returned for a variable whose name is not empty, the same
    call for any other variable of that name throws the duplicate-name error
    and leaves the store as it is. *)
Theorem codeJs_swap_makes_name_taken
    (s s' : Figma.Store) (variableId other sourceCollectionId targetCollectionId : string)
    (variable otherVariable : Figma.FigmaVariable.t) (result : CodeJs.SwapResult) :
  Figma.getVariableByIdAsync s variableId = Some variable ->
  Js.truthy (Figma.FigmaVariable.name variable) = true ->
  CodeJs.swapVariableCollection variableId sourceCollectionId targetCollectionId s
  = (Js.normal result, s') ->
  Figma.getVariableByIdAsync s' other = Some otherVariable ->
  Figma.FigmaVariable.name otherVariable = Figma.FigmaVariable.name variable ->
  exists targetCollection,
    Figma.getVariableCollectionByIdAsync s targetCollectionId = Some targetCollection
    /\ CodeJs.swapVariableCollection other sourceCollectionId targetCollectionId s'
       = (Js.throw (Js.Error (duplicateName (Figma.FigmaVariable.name variable)
                                (Figma.VariableCollection.name targetCollection))), s').
Proof.
  intros Hv Hname Hswap Hother Hsame.
  destruct (MoveFacts.codeJs_swap_returns _ _ _ _ _ _ Hswap)
    as (variable' & sourceCollection & targetCollection & modeMapping
        & Hv' & Hs & Ht & Hm & _ & _ & E).
  assert (variable' = variable) by congruence. subst variable'.
  exists targetCollection. split; [exact Ht|].
  set (newId := Figma.freshId (Figma.variables s)) in *.
  destruct (MoveFacts.moved_variables variableId targetCollectionId
              (Figma.FigmaVariable.name variable) (Figma.FigmaVariable.resolvedType variable)
              modeMapping (Figma.FigmaVariable.valuesByMode variable) s)
    as (Hnew & _ & _); [eauto|].
  pose proof (MoveFacts.moved_collections variableId targetCollectionId
                (Figma.FigmaVariable.name variable)
                (Figma.FigmaVariable.resolvedType variable)
                modeMapping (Figma.FigmaVariable.valuesByMode variable) s) as Hcols.
  cbv zeta in Hnew, Hcols. fold newId in Hnew, Hcols. rewrite <- E in Hnew, Hcols.
  pose proof (Hcols sourceCollectionId) as Hs'. rewrite Hs in Hs'. simpl in Hs'.
  pose proof (Hcols targetCollectionId) as Ht'. rewrite Ht, String.eqb_refl in Ht'.
  simpl in Ht'.
  assert (Hne : newId <> variableId).
  { intros En. pose proof (StoreFacts.freshId_fresh (Figma.variables s)) as Hf.
    fold newId in Hf. rewrite En in Hf. unfold Figma.getVariableByIdAsync in Hv.
    congruence. }
  unfold CodeJs.swapVariableCollection. rewrite Hother, Hs', Ht'.
  rewrite (MoveFacts.validate_modes sourceCollection targetCollection) by reflexivity.
  rewrite Hm.
  destruct (SwapFacts.codeJs_duplicate_found s' targetCollectionId _
              (Figma.FigmaVariable.name otherVariable) Ht') as [v Hfound].
  - exists newId. eexists. split; [|split; [exact Hnew|]].
    + simpl. apply List.filter_In. split; [apply in_or_app; right; now left|].
      apply negb_true_iff. now apply String.eqb_neq.
    + simpl. now symmetry.
  - now rewrite Hsame.
  - rewrite Hfound. simpl. now rewrite Hsame.
Qed.

(** ** The handlers of code.js *)

Module CoordinatorFacts.
Import Coordinator.








(** Attempts that all throw leave the store, when a throw leaves it. *)
Lemma attempts_without_success {A} (swap : string -> Async A) :
  (forall varId s e s', swap varId s = (Js.throw e, s') -> s' = s) ->
  forall variableIds s,
    flat_map Batch.returned (fst (Batch.attempts swap variableIds s)) = [] ->
    snd (Batch.attempts swap variableIds s) = s
    /\ length (flat_map Batch.thrown (fst (Batch.attempts swap variableIds s)))
       = length variableIds.
Proof.
  intros Hclean. induction variableIds as [|varId rest IH]; intros s; simpl; [now split|].
  destruct (swap varId s) as [r s1] eqn:E.
  destruct (Batch.attempts swap rest s1) as [outcomes s2] eqn:Er. simpl.
  destruct r as [a|e]; [discriminate|]. simpl.
  intros H. apply Hclean in E. subst s1.
  specialize (IH s). rewrite Er in IH. simpl in IH. destruct (IH H) as [-> Hlen].
  split; [reflexivity|]. now rewrite Hlen.
Qed.

(** [batchSwapVariables] of code.js returns; when no move succeeded, the
    store is as it was and every id is among the failed. *)
Lemma batch_returns variableIds sourceCollectionId targetCollectionId s :
  exists results s',
    CodeJs.batchSwapVariables variableIds sourceCollectionId targetCollectionId s
    = (Js.normal results, s')
    /\ (CodeJs.succeeded results = [] ->
        s' = s /\ length (CodeJs.failed results) = length variableIds).
Proof.
  unfold CodeJs.batchSwapVariables.
  rewrite (BatchFacts.processNext_attempts sourceCollectionId targetCollectionId variableIds
             (CodeJs.mkBatchResults [] []) s).
  simpl. eexists. eexists. split; [reflexivity|]. simpl. intros H.
  apply map_eq_nil in H.
  apply (attempts_without_success
           (fun varId =>
              CodeJs.swapVariableCollection varId sourceCollectionId targetCollectionId));
    [|exact H].
  intros varId s0 e s0' E. exact (MoveFacts.codeJs_swap_throws _ _ _ _ _ _ E).
Qed.





End CoordinatorFacts.


(** A batch without a success changes nothing: when the selection is empty
    or every move of it failed, the store and what the plugin holds are as
    before, nothing is sent to the UI, and the user gets one error notice. *)
Theorem swapCollection_without_success
    (localIds variableIds : list string) (targetCollectionId : string)
    (w : Coordinator.World) (results : CodeJs.BatchResults) (s' : Figma.Store) :
  CodeJs.batchSwapVariables variableIds
    (Coordinator.currentCollectionId (Coordinator.plugin w)) targetCollectionId
    (Coordinator.store w)
  = (Js.normal results, s') ->
  CodeJs.succeeded results = [] ->
  Coordinator.onmessage localIds
    (Coordinator.swapCollection variableIds targetCollectionId) w
  = Coordinator.handled
      (Coordinator.mkWorld (Coordinator.plugin w) (Coordinator.store w)
         (Coordinator.effects w
          ++ [Coordinator.notify
                match variableIds with
                | [] => Coordinator.nothingSelected
                | _ :: _ => Coordinator.transferErrors (map snd (CodeJs.failed results))
                end true])
         (Coordinator.prototypeChildren w)).
Proof.
  intros Hbatch Hnone. simpl.
  destruct variableIds as [|varId rest]; [reflexivity|].
  destruct (CoordinatorFacts.batch_returns (varId :: rest)
              (Coordinator.currentCollectionId (Coordinator.plugin w)) targetCollectionId
              (Coordinator.store w)) as (results' & s'' & E & Hclean).
  rewrite Hbatch in E. injection E as <- <-. rewrite Hbatch.
  destruct (Hclean Hnone) as [-> Hlen]. rewrite Hnone. simpl.
  destruct (CodeJs.failed results); [discriminate Hlen|reflexivity].
Qed.


(** ** The theorems at the sample data *)

Module SampleFacts.


End SampleFacts.

(** C8: no node of the sample forest has the id [color/none]. *)
Lemma toggleNodeCollapsed_involution_witness :
  TreeBuilder.toggleNodeCollapsed Sample.colorForest "color/none" = Sample.colorForest.
Proof.
  apply (proj2 (toggleNodeCollapsed_involution Sample.colorForest "color/none")).
  simpl. intros H. repeat (destruct H as [H|H]; [discriminate H|]). exact H.
Defined.

(** [filterTree] on the sample heap with the query [HOVER]: three new
    objects (the leaf, then [bg], then [color], each expanded group holding
    the reference to its kept child), the five old ones as they were. *)
Example filterTree_on_the_heap :
  TreeHeap.filterTree 3 Sample.colorHeap [0] "HOVER"
  = Some
      ((Sample.colorHeap
        ++ [ TreeHeap.mkObject (Sample.leaf "color/bg/hover" "hover" "v2" 2 true false) None;
             TreeHeap.mkObject
               (TreeNode.make "color/bg" "bg" TreeNode.group None None false 1 false true None)
               (Some [5]);
             TreeHeap.mkObject
               (TreeNode.make "color" "color" TreeNode.group None None false 0 false true None)
               (Some [6]) ])%list,
       [7]).
Proof. reflexivity. Qed.

(** C7: a query of two spaces and a tab. *)
Lemma filterTree_blank_and_idempotent_witness :
  TreeBuilder.filterTree Sample.colorForest (String " " (String " " (String "009" "")))
  = Sample.colorForest.
Proof.
  exact (proj1 (filterTree_blank_and_idempotent Sample.colorForest
                  (String " " (String " " (String "009" "")))) eq_refl).
Defined.


(** C4: three distinct ids against the sample store; [fg] moves, [bg] meets
    a duplicate, [zz] does not resolve. *)
Lemma batchSwapVariables_splits_input_witness :
  exists results,
    CodeJs.batchSwapVariables ["fg"; "bg"; "zz"] "themes" "brand" Sample.store
    = (Js.normal results,
       snd (Batch.attempts
              (fun varId => CodeJs.swapVariableCollection varId "themes" "brand")
              ["fg"; "bg"; "zz"] Sample.store))
    /\ forall id, In id ["fg"; "bg"; "zz"] ->
         (In id (map fst (CodeJs.succeeded results))
          /\ ~ In id (map fst (CodeJs.failed results)))
         \/ (~ In id (map fst (CodeJs.succeeded results))
             /\ In id (map fst (CodeJs.failed results))).
Proof.
  destruct (proj1 (batchSwapVariables_splits_input ["fg"; "bg"; "zz"] "themes" "brand"
                     Sample.store))
    as (_ & results & Hrun & _ & _ & _ & Hnd).
  exists results. split; [exact Hrun|]. apply Hnd.
  constructor; [intros H; apply list_elem_of_In in H;
                destruct H as [H|[H|[]]]; discriminate H|].
  constructor; [intros H; apply list_elem_of_In in H; destruct H as [H|[]]; discriminate H|].
  constructor; [intros H; apply list_elem_of_In in H; destruct H|constructor].
Defined.


Lemma codeJs_buildTree_ids_are_paths_witness :
  exists forest,
    CodeJs.buildTree Sample.scenario = Js.normal (Some forest)
    /\ (forall root, In root forest -> TreeNode.parentPath root = Some None)
    /\ (forall m, In m (TreeBuilder.nodesOf forest) ->
          TreeNode.name m = VariableHelpers.getShortVariableName (TreeNode.id m)
          /\ TreeNode.parentPath m = Some (CodeJs.parentOf (TreeNode.id m))
          /\ forall cs c, TreeNode.children m = Some cs -> In c cs ->
               TreeNode.parentPath c = Some (Some (TreeNode.id m))).
Proof.
  eexists. split; [reflexivity|].
  apply (codeJs_buildTree_ids_are_paths Sample.scenario). reflexivity.
Defined.

(** No node of the sample forest has the id [color/none]. *)
Lemma updateNodeChecked_idempotent_witness :
  TreeBuilder.updateNodeChecked Sample.colorForest "color/none" true = Sample.colorForest.
Proof.
  apply (proj2 (updateNodeChecked_idempotent Sample.colorForest "color/none" true));
    try reflexivity.
  simpl. intuition discriminate.
Defined.

(** The id [zz] resolves to nothing in the sample store. *)
Lemma codeJs_swap_failure_leaves_store_witness :
  snd (CodeJs.swapVariableCollection "zz" "themes" "brand" Sample.store) = Sample.store.
Proof.
  apply (codeJs_swap_failure_leaves_store Sample.store _ "zz" "themes" "brand"
           (Js.Error variableNotFound)).
  reflexivity.
Defined.

(** [fg] of the sample store is moved to [bare], which has no mode. *)
Lemma service_swap_failure_and_the_store_witness :
  let s := Sample.bareStore in
  let s' := snd (VariablesService.swapVariableCollection "fg" "bare" s) in
  s' = s
  \/ exists variable targetCollection,
       @Js.TypeError Message = Js.TypeError
       /\ Figma.getVariableCollectionByIdAsync s "bare" = Some targetCollection
       /\ Figma.VariableCollection.modes targetCollection = []
       /\ Figma.getVariableByIdAsync s' "fg" = Some variable
       /\ Figma.getVariableByIdAsync s' (Figma.freshId (Figma.variables s))
          = Some (Figma.FigmaVariable.make (Figma.freshId (Figma.variables s))
                    (Figma.FigmaVariable.name variable)
                    (Figma.FigmaVariable.resolvedType variable) "bare" [])
       /\ Figma.writes s'
          = (Figma.writes s
             ++ [Figma.created (Figma.FigmaVariable.name variable) "bare"
                   (Figma.FigmaVariable.resolvedType variable)
                   (Figma.freshId (Figma.variables s))])%list.
Proof.
  exact (service_swap_failure_and_the_store Sample.bareStore
           (snd (VariablesService.swapVariableCollection "fg" "bare" Sample.bareStore))
           "fg" "bare" Js.TypeError eq_refl).
Defined.

(** In the sample store it is the right-hand case that holds. *)
Example service_swap_leaves_both :
  let s' := snd (VariablesService.swapVariableCollection "fg" "bare" Sample.bareStore) in
  is_Some (Figma.getVariableByIdAsync s' "fg")
  /\ is_Some (Figma.getVariableByIdAsync s' "VariableID:new:0").
Proof. split; eexists; reflexivity. Qed.

(** [fg] of the sample store is moved from [themes] to [brand]. *)
Lemma codeJs_swap_moves_one_variable_witness :
  let s := Sample.store in
  let s' := snd (CodeJs.swapVariableCollection "fg" "themes" "brand" s) in
  exists newId values,
    Figma.getVariableByIdAsync s newId = None
    /\ Figma.getVariableByIdAsync s' newId
       = Some (Figma.FigmaVariable.make newId "color/fg" COLOR "brand" values)
    /\ Figma.getVariableByIdAsync s' "fg" = None
    /\ (forall k, k <> "fg" -> k <> newId ->
          Figma.getVariableByIdAsync s' k = Figma.getVariableByIdAsync s k)
    /\ (forall c,
          Figma.getVariableCollectionByIdAsync s' c
          = (fun collection =>
               Figma.VariableCollection.make (Figma.VariableCollection.id collection)
                 (Figma.VariableCollection.name collection)
                 (Figma.VariableCollection.modes collection)
                 (List.filter (fun k => negb (String.eqb k "fg"))
                    (Figma.VariableCollection.variableIds collection
                     ++ if String.eqb c "brand" then [newId] else [])))
            <$> Figma.getVariableCollectionByIdAsync s c).
Proof.
  exact (codeJs_swap_moves_one_variable Sample.store
           (snd (CodeJs.swapVariableCollection "fg" "themes" "brand" Sample.store))
           "fg" "themes" "brand"
           (Figma.FigmaVariable.make "fg" "color/fg" COLOR "themes"
              [("1:0", Sample.blue); ("1:1", Sample.red)])
           (CodeJs.mkSwapResult true "color/fg") eq_refl eq_refl).
Defined.

(** [fg] keeps blue for Light and red for Dark. *)
Lemma codeJs_swap_keeps_values_witness :
  let s := Sample.store in
  let s' := snd (CodeJs.swapVariableCollection "fg" "themes" "brand" s) in
  exists newVariable,
    Figma.getVariableByIdAsync s' (Figma.freshId (Figma.variables s)) = Some newVariable
    /\ Figma.valueFor (Figma.FigmaVariable.valuesByMode newVariable) "2:0" = Some Sample.blue
    /\ Figma.valueFor (Figma.FigmaVariable.valuesByMode newVariable) "2:1" = Some Sample.red.
Proof.
  destruct (codeJs_swap_keeps_values Sample.store
              (snd (CodeJs.swapVariableCollection "fg" "themes" "brand" Sample.store))
              "fg" "themes" "brand"
              (Figma.FigmaVariable.make "fg" "color/fg" COLOR "themes"
                 [("1:0", Sample.blue); ("1:1", Sample.red)])
              (Figma.VariableCollection.make "themes" "Themes" [Sample.light; Sample.dark]
                 ["bg"; "fg"])
              (Figma.VariableCollection.make "brand" "Brand" [Sample.light'; Sample.dark']
                 ["brand-bg"])
              (CodeJs.mkSwapResult true "color/fg")
              eq_refl eq_refl eq_refl) as (newVariable & Hnew & Hvalues & _).
  - apply NoDup_ListNoDup. repeat constructor; simpl; intuition discriminate.
  - apply NoDup_ListNoDup. repeat constructor; simpl; intuition discriminate.
  - repeat constructor.
  - apply NoDup_ListNoDup. repeat constructor; simpl; intuition discriminate.
  - repeat constructor.
  - reflexivity.
  - exists newVariable. split; [exact Hnew|]. split.
    + exact (Hvalues 0 Sample.light Sample.light' eq_refl eq_refl).
    + exact (Hvalues 1 Sample.dark Sample.dark' eq_refl eq_refl).
Defined.

(** After [fg] was moved to [brand], the variable that the move made cannot
    be moved there again. *)
Lemma codeJs_swap_makes_name_taken_witness :
  let s' := snd (CodeJs.swapVariableCollection "fg" "themes" "brand" Sample.store) in
  exists targetCollection,
    Figma.getVariableCollectionByIdAsync Sample.store "brand" = Some targetCollection
    /\ CodeJs.swapVariableCollection "VariableID:new:0" "themes" "brand" s'
       = (Js.throw (Js.Error (duplicateName "color/fg"
                                (Figma.VariableCollection.name targetCollection))), s').
Proof.
  exact (codeJs_swap_makes_name_taken Sample.store
           (snd (CodeJs.swapVariableCollection "fg" "themes" "brand" Sample.store))
           "fg" "VariableID:new:0" "themes" "brand"
           (Figma.FigmaVariable.make "fg" "color/fg" COLOR "themes"
              [("1:0", Sample.blue); ("1:1", Sample.red)])
           (Figma.FigmaVariable.make "VariableID:new:0" "color/fg" COLOR "brand"
              [("2:0", Sample.blue); ("2:1", Sample.red)])
           (CodeJs.mkSwapResult true "color/fg")
           eq_refl eq_refl eq_refl eq_refl eq_refl).
Defined.


(** [bg] cannot be moved to [brand], which has a variable of its name. *)
Lemma swapCollection_without_success_witness :
  Coordinator.onmessage ["themes"; "brand"; "plain"]
    (Coordinator.swapCollection ["bg"] "brand") Sample.themesWorld
  = Coordinator.handled
      (Coordinator.mkWorld (Coordinator.plugin Sample.themesWorld) Sample.store
         (Coordinator.effects Sample.themesWorld
          ++ [Coordinator.notify
                (Coordinator.transferErrors [Js.Error (duplicateName "color/bg" "Brand")])
                true])
         false).
Proof.
  exact (swapCollection_without_success ["themes"; "brand"; "plain"] ["bg"] "brand"
           Sample.themesWorld
           (CodeJs.mkBatchResults [] [("bg", Js.Error (duplicateName "color/bg" "Brand"))])
           Sample.store eq_refl eq_refl).
Defined.


(** Once a variable named [__proto__/x] was loaded, a toggle is beyond the
    model. *)
Example onmessage_after_prototype_name :
  let s :=
    Figma.mkStore
      (<["p" := Figma.FigmaVariable.make "p" "__proto__/x" COLOR "themes" []]>
         (Figma.variables Sample.store))
      (<["themes" := Figma.VariableCollection.make "themes" "Themes"
                       [Sample.light; Sample.dark] ["bg"; "fg"; "p"]]>
         (Figma.collections Sample.store))
      [] in
  exists w,
    Coordinator.onmessage ["themes"] (Coordinator.selectCollection "themes")
      (Coordinator.mkWorld (Coordinator.mkPlugin [] [] "") s [] false)
    = Coordinator.handled w
    /\ Coordinator.prototypeChildren w = true
    /\ Coordinator.onmessage ["themes"] (Coordinator.toggleGroup "color") w
       = Coordinator.inheritedChildren.
Proof. eexists. split; [reflexivity|]. split; reflexivity. Qed.
